(** * Due-diligence analyzer: rule engine, external-finding parser and aggregator

    A shallow embedding of [analyzers/aggregator.py], [analyzers/rule_engine.py]
    and the response parser and the chunker of [analyzers/llm_analyzer.py],
    followed by the properties of the finding pipeline proved about them.

    Conventions of the embedding.
    - A Python [str] is a [string] whose characters are the code points
      below 256; [str.lower], [str.split] and [str.strip] are written out
      for that range.
    - A Python [int] is a [Z].
    - A finite Python [float] is a [float64]: a pair of integers [m], [e]
      standing for the binary64 number [m * 2^e].  True division of ints
      and [round(x, 2)] are written out with their rounding.
    - A [dict] whose iteration order matters is an association list in
      insertion order; a [set] of strings is a [gset string]. *)

From Stdlib Require Import ZArith Lia String Ascii DecimalString Sorted.
From stdpp Require Import gmap strings functions list.

Set Default Proof Using "Type".

(* ===================================================================== *)
(** * Python strings *)
(* ===================================================================== *)

Module PyStr.

(** [str.isspace] of one character below 256: TAB..CR, FS..US, space,
    NEL and NBSP. *)
Definition isspace (c : ascii) : bool :=
  let n := N_of_ascii c in
  ((9 <=? n) && (n <=? 13) || (28 <=? n) && (n <=? 32)
   || (n =? 133) || (n =? 160))%N.

(** [str.lower] of one character below 256: A..Z and the Latin-1 capitals
    (0xC0..0xDE without the multiplication sign 0xD7) move up by 32. *)
Definition lower_char (c : ascii) : ascii :=
  let n := N_of_ascii c in
  if ((65 <=? n) && (n <=? 90)
      || (192 <=? n) && (n <=? 222) && negb (n =? 215))%N
  then ascii_of_N (n + 32) else c.

Fixpoint lower (s : string) : string :=
  match s with
  | EmptyString => EmptyString
  | String c s' => String (lower_char c) (lower s')
  end.

(** [s[:n]] *)
Fixpoint take (n : nat) (s : string) : string :=
  match n, s with
  | S n', String c s' => String c (take n' s')
  | _, _ => EmptyString
  end.

(** [s[n:]] *)
Fixpoint drop (n : nat) (s : string) : string :=
  match n, s with
  | S n', String _ s' => drop n' s'
  | _, _ => s
  end.

(** [s[i:j]] for [0 <= i], [0 <= j] *)
Definition slice (i j : nat) (s : string) : string :=
  take (j - i) (drop i s).

Definition nonempty (w : string) : list string :=
  match w with EmptyString => [] | _ => [w] end.

(** [s.split()]: the maximal runs of non-whitespace characters, in order.
    [w] is the run being read. *)
Fixpoint split_from (w s : string) : list string :=
  match s with
  | EmptyString => nonempty w
  | String c s' =>
      if isspace c then nonempty w ++ split_from EmptyString s'
      else split_from (w +:+ String c EmptyString) s'
  end.

Definition split (s : string) : list string := split_from EmptyString s.

(** [s.startswith(p)] *)
Fixpoint startswith (p s : string) : bool :=
  match p, s with
  | EmptyString, _ => true
  | String a p', String b s' => bool_decide (a = b) && startswith p' s'
  | String _ _, EmptyString => false
  end.

(** [p in s] *)
Fixpoint contains (p s : string) : bool :=
  startswith p s ||
  match s with
  | EmptyString => false
  | String _ s' => contains p s'
  end.

(** [s.lstrip()], [s.rstrip()], [s.strip()] *)
Fixpoint lstrip (s : string) : string :=
  match s with
  | String c s' => if isspace c then lstrip s' else s
  | EmptyString => EmptyString
  end.

Fixpoint rstrip (s : string) : string :=
  match s with
  | EmptyString => EmptyString
  | String c s' =>
      match rstrip s' with
      | EmptyString => if isspace c then EmptyString else String c EmptyString
      | r => String c r
      end
  end.

Definition strip (s : string) : string := rstrip (lstrip s).

(** [s.endswith(p)] *)
Definition endswith (p s : string) : bool :=
  bool_decide (drop (String.length s - String.length p) s = p)
  && bool_decide (String.length p <= String.length s)%nat.

(** [str(n)] for an int *)
Definition of_Z (n : Z) : string :=
  match n with
  | Z0 => "0"
  | Zpos p => NilZero.string_of_uint (Pos.to_uint p)
  | Zneg p => String "-" (NilZero.string_of_uint (Pos.to_uint p))
  end.

(** A line feed, and the separator ["\n\n"] of paragraphs. *)
Definition newline : ascii := "010"%char.
Definition blank_line : string := String newline (String newline EmptyString).

(** [c] put in front of the first string of a list. *)
Definition cons_head (c : ascii) (l : list string) : list string :=
  match l with
  | [] => [String c EmptyString]
  | p :: ps => String c p :: ps
  end.

(** [s.split('\n\n')]: the text is cut at the occurrences of the separator,
    found from the left and without overlap. *)
Fixpoint split_blank_lines (s : string) : list string :=
  match s with
  | EmptyString => [EmptyString]
  | String c s' =>
      match s' with
      | String c' s'' =>
          if bool_decide (c = newline) && bool_decide (c' = newline)
          then EmptyString :: split_blank_lines s''
          else cons_head c (split_blank_lines s')
      | EmptyString => cons_head c (split_blank_lines s')
      end
  end.

End PyStr.

(* ===================================================================== *)
(** * Python floats *)
(* ===================================================================== *)

Module PyFloat.
Local Open Scope Z_scope.

(** The finite binary64 number [mant * 2^expo]. *)
Record float64 := Float64 { mant : Z; expo : Z }.

(** The integer nearest to [num / den] ([0 < den]), ties to the even one. *)
Definition round_half_even (num den : Z) : Z :=
  let q := num / den in
  let r := num mod den in
  if 2 * r <? den then q
  else if den <? 2 * r then q + 1
  else if Z.even q then q else q + 1.

(** [floor (log2 (a / b))] for [0 < a], [0 < b]. *)
Definition binade (a b : Z) : Z :=
  let k := Z.log2 a - Z.log2 b in
  if b * 2 ^ Z.max k 0 <=? a * 2 ^ Z.max (- k) 0 then k else k - 1.

(** [a / b] on ints: the binary64 number nearest to the quotient (ties to
    even, 53 significant bits, exponent not below -1074).  [None] is a
    raised exception: [ZeroDivisionError] for [b = 0], [OverflowError]
    when the rounded quotient reaches [2^1024]. *)
Definition int_true_divide (a b : Z) : option float64 :=
  if b =? 0 then None
  else if a =? 0 then Some (Float64 0 0)
  else
    let a' := Z.abs a in
    let b' := Z.abs b in
    let e := Z.max (binade a' b' - 52) (-1074) in
    let m := round_half_even (a' * 2 ^ Z.max (- e) 0) (b' * 2 ^ Z.max e 0) in
    if 2 ^ 1024 <=? m * 2 ^ Z.max e 0 then None
    else Some (Float64 (Z.sgn a * Z.sgn b * m) e).

(** [x <= y] on finite floats. *)
Definition float_le (x y : float64) : bool :=
  let e := Z.min (expo x) (expo y) in
  mant x * 2 ^ (expo x - e) <=? mant y * 2 ^ (expo y - e).

(** [round(x, 2)], given in hundredths: the result of Python's [round] is
    the binary64 number nearest to [h / 100] for the integer [h] returned
    here, which is the one nearest to [100 * x] (ties to even, decided on
    the exact binary value of [x]). *)
Definition round2 (x : float64) : Z :=
  round_half_even (100 * mant x * 2 ^ Z.max (expo x) 0)
                  (2 ^ Z.max (- expo x) 0).

(** The literal [0.7]. *)
Definition lit_0_7 : float64 := Float64 6305039478318694 (-53).

(** The literal [0.0], and the int [0] where a float is expected. *)
Definition lit_0_0 : float64 := Float64 0 0.

End PyFloat.

(* ===================================================================== *)
(** * Data model *)
(* ===================================================================== *)

(** Modelled from the spec: [models/schemas.py] is not among the sources.
    [FlagCategory] and [SeverityLevel] are the two fixed enumerations of the
    data model, [RedFlag] is the Finding and [AnalysisResult] the Report,
    with the fields the analyzers read and write. *)
Inductive FlagCategory :=
  | JURISDICTION | FINANCIAL | LEGAL | OPERATIONAL | COMPLIANCE
  | VAGUE_LANGUAGE | MISSING_INFO | LIABILITY | INTELLECTUAL_PROPERTY
  | TAX | EMPLOYEE | CUSTOMER | OTHER.

Inductive SeverityLevel := CRITICAL | HIGH | MEDIUM | LOW.

Record RedFlag := mkRedFlag {
  category : FlagCategory;
  severity : SeverityLevel;
  title : string;
  description : string;
  location : string;
  score : Z;
  source : string;
  recommendation : option string
}.

Record AnalysisResult {datetime : Type} := mkAnalysisResult {
  document_name : string;
  analyzed_at : datetime;
  total_flags : Z;
  critical_count : Z;
  high_count : Z;
  medium_count : Z;
  low_count : Z;
  overall_risk_score : Z;          (* a float, in hundredths *)
  flags : list RedFlag;
  processing_time_seconds : Z;     (* a float, in hundredths *)
  metadata : list (string * Z)
}.
Arguments AnalysisResult : clear implicits.

#[global] Instance FlagCategory_eq_dec : EqDecision FlagCategory.
Proof. solve_decision. Defined.

#[global] Instance SeverityLevel_eq_dec : EqDecision SeverityLevel.
Proof. solve_decision. Defined.

#[global] Instance RedFlag_eq_dec : EqDecision RedFlag.
Proof. solve_decision. Defined.

(* ===================================================================== *)
(** * analyzers/aggregator.py *)
(* ===================================================================== *)

Module ResultAggregator.
Import PyFloat.

(** [self.similarity_threshold = 0.7] *)
Definition similarity_threshold : float64 := lit_0_7.

(** [_get_flag_key] *)
Definition _get_flag_key (flag : RedFlag) : string :=
  PyStr.lower (title flag) +:+ "|" +:+
  PyStr.lower (PyStr.take 100 (description flag)).

(** [_are_similar].  The division cannot raise here: it is reached with
    [0 < union] and [overlap <= union] only (lemma
    [similarity_division_defined] below), so the [None] branch is dead. *)
Definition _are_similar (key1 key2 : string) : bool :=
  let words1 : gset string := list_to_set (PyStr.split key1) in
  let words2 : gset string := list_to_set (PyStr.split key2) in
  if bool_decide (words1 = ∅) || bool_decide (words2 = ∅) then false
  else
    let overlap := Z.of_nat (size (words1 ∩ words2)) in
    let union := Z.of_nat (size (words1 ∪ words2)) in
    let similarity :=
      if (0 <? union)%Z then int_true_divide overlap union
      else Some lit_0_0 in
    match similarity with
    | Some s => float_le similarity_threshold s
    | None => false
    end.

(** [by_category[flag.category].append(flag)] on a [defaultdict(list)]: a
    new category is entered after the ones already present. *)
Fixpoint by_category_append (by_category : list (FlagCategory * list RedFlag))
    (flag : RedFlag) : list (FlagCategory * list RedFlag) :=
  match by_category with
  | [] => [(category flag, [flag])]
  | (c, category_flags) :: rest =>
      if decide (c = category flag)
      then (c, category_flags ++ [flag]) :: rest
      else (c, category_flags) :: by_category_append rest flag
  end.

(** The inner loop body of [_deduplicate_flags]: the state is the pair of
    [deduplicated] and [seen_similar]. *)
Definition dedup_flag (st : list RedFlag * gset string) (flag : RedFlag)
    : list RedFlag * gset string :=
  let '(deduplicated, seen_similar) := st in
  let flag_key := _get_flag_key flag in
  let is_duplicate :=
    bool_decide (set_Exists (λ seen_key, _are_similar flag_key seen_key = true)
                            seen_similar) in
  if is_duplicate then (deduplicated, seen_similar)
  else (deduplicated ++ [flag], seen_similar ∪ {[flag_key]}).

(** The outer loop body: [seen_similar] starts empty for every category,
    [deduplicated] is carried on. *)
Definition dedup_category (deduplicated : list RedFlag)
    (item : FlagCategory * list RedFlag) : list RedFlag :=
  (foldl dedup_flag (deduplicated, ∅) item.2).1.

(** [_deduplicate_flags] *)
Definition _deduplicate_flags (flags : list RedFlag) : list RedFlag :=
  match flags with
  | [] => []
  | _ =>
      let by_category := foldl by_category_append [] flags in
      foldl dedup_category [] by_category
  end.

(** [severity_order] of [aggregate] *)
Definition severity_order (s : SeverityLevel) : Z :=
  match s with CRITICAL => 0 | HIGH => 1 | MEDIUM => 2 | LOW => 3 end.

(** The sort key [(severity_order[f.severity], -f.score)] and the order of
    Python tuples on it. *)
Definition sort_key (f : RedFlag) : Z * Z :=
  (severity_order (severity f), - score f)%Z.

Definition key_lt (k1 k2 : Z * Z) : bool :=
  (k1.1 <? k2.1)%Z || (k1.1 =? k2.1)%Z && (k1.2 <? k2.2)%Z.

(** [list.sort(key=...)] is a stable sort that compares keys with [<].  It
    is modelled by stable insertion; [stable_sort_unique] below shows that
    every stable sort returns the same list. *)
Fixpoint sort_insert (f : RedFlag) (sorted : list RedFlag) : list RedFlag :=
  match sorted with
  | [] => [f]
  | g :: rest =>
      if key_lt (sort_key g) (sort_key f) then g :: sort_insert f rest
      else f :: g :: rest
  end.

Definition sort_flags (l : list RedFlag) : list RedFlag :=
  foldr sort_insert [] l.

(** [_count_by_severity] *)
Definition _count_by_severity (flags : list RedFlag) : SeverityLevel → Z :=
  foldl (λ counts flag,
           <[severity flag := (counts (severity flag) + 1)%Z]> counts)
        (λ _, 0%Z) flags.

(** [severity_weights] of [_calculate_risk_score] *)
Definition severity_weights (s : SeverityLevel) : Z :=
  match s with CRITICAL => 10 | HIGH => 5 | MEDIUM => 2 | LOW => 1 end.

(** The loop of [_calculate_risk_score]: the state is the pair of
    [weighted_sum] and [total_weight]. *)
Definition risk_sums (flags : list RedFlag) : Z * Z :=
  foldl (λ '(weighted_sum, total_weight) flag,
           let weight := severity_weights (severity flag) in
           (weighted_sum + score flag * weight, total_weight + weight)%Z)
        (0, 0)%Z flags.

(** [_calculate_risk_score], in hundredths; [None] is the [OverflowError]
    of the division. *)
Definition _calculate_risk_score (flags : list RedFlag) : option Z :=
  match flags with
  | [] => Some 0%Z
  | _ =>
      let '(weighted_sum, total_weight) := risk_sums flags in
      if (total_weight =? 0)%Z then Some 0%Z
      else round2 <$> int_true_divide weighted_sum total_weight
  end.

(** [aggregate].  [now] is the reading of [datetime.now()]; the elapsed
    time is a finite float. *)
Definition aggregate {datetime : Type} (now : datetime)
    (document_name : string) (rule_flags llm_flags : list RedFlag)
    (processing_time : float64) : option (AnalysisResult datetime) :=
  let all_flags := rule_flags ++ llm_flags in
  let deduplicated := sort_flags (_deduplicate_flags all_flags) in
  let severity_counts := _count_by_severity deduplicated in
  risk_score ← _calculate_risk_score deduplicated;
  Some {|
    document_name := document_name;
    analyzed_at := now;
    total_flags := Z.of_nat (length deduplicated);
    critical_count := severity_counts CRITICAL;
    high_count := severity_counts HIGH;
    medium_count := severity_counts MEDIUM;
    low_count := severity_counts LOW;
    overall_risk_score := risk_score;
    flags := deduplicated;
    processing_time_seconds := round2 processing_time;
    metadata :=
      [("rule_flags_count", Z.of_nat (length rule_flags));
       ("llm_flags_count", Z.of_nat (length llm_flags));
       ("deduplication_removed",
        (Z.of_nat (length all_flags) - Z.of_nat (length deduplicated))%Z)]
  |}.

(** [_get_risk_level].  The comparison of a float with an int is exact. *)
Definition _get_risk_level (score : float64) : string :=
  if float_le (Float64 8 0) score then "EXTREME RISK"
  else if float_le (Float64 6 0) score then "HIGH RISK"
  else if float_le (Float64 4 0) score then "MODERATE RISK"
  else if float_le (Float64 2 0) score then "LOW RISK"
  else "MINIMAL RISK".

End ResultAggregator.

(* ===================================================================== *)
(** * analyzers/llm_analyzer.py: the response parser and the chunker *)
(* ===================================================================== *)

Module LLMAnalyzer.

(** A value returned by [json.loads].  A [dict] keeps its entries in
    insertion order with distinct keys; [JNonFinite] stands for the floats
    [NaN], [Infinity] and [-Infinity], which [json.loads] accepts. *)
#[local] Unset Elimination Schemes.
Inductive json :=
  | JNull
  | JBool (b : bool)
  | JInt (n : Z)
  | JFloat (x : PyFloat.float64)
  | JNonFinite
  | JStr (s : string)
  | JList (items : list json)
  | JDict (entries : list (string * json)).
#[local] Set Elimination Schemes.

(** [key in d] and [d.get(key, default)] *)
Fixpoint dict_has (d : list (string * json)) (key : string) : bool :=
  match d with
  | [] => false
  | (k, _) :: rest => bool_decide (k = key) || dict_has rest key
  end.

Fixpoint dict_get (d : list (string * json)) (key : string) (default : json)
    : json :=
  match d with
  | [] => default
  | (k, v) :: rest => if decide (k = key) then v else dict_get rest key default
  end.

(** Modelled from the spec: the values of the two enumerations of
    [models/schemas.py], which is not among the sources, are the names the
    data model and the analysis prompt list.  [FlagCategory(value)] and
    [SeverityLevel(value)] look a member up by its value and raise
    [ValueError] ([None]) when there is none. *)
Definition FlagCategory_of_value (v : json) : option FlagCategory :=
  match v with
  | JStr "jurisdiction" => Some JURISDICTION
  | JStr "financial" => Some FINANCIAL
  | JStr "legal" => Some LEGAL
  | JStr "operational" => Some OPERATIONAL
  | JStr "compliance" => Some COMPLIANCE
  | JStr "vague_language" => Some VAGUE_LANGUAGE
  | JStr "missing_info" => Some MISSING_INFO
  | JStr "liability" => Some LIABILITY
  | JStr "intellectual_property" => Some INTELLECTUAL_PROPERTY
  | JStr "tax" => Some TAX
  | JStr "employee" => Some EMPLOYEE
  | JStr "customer" => Some CUSTOMER
  | JStr "other" => Some OTHER
  | _ => None
  end.

Definition SeverityLevel_of_value (v : json) : option SeverityLevel :=
  match v with
  | JStr "CRITICAL" => Some CRITICAL
  | JStr "HIGH" => Some HIGH
  | JStr "MEDIUM" => Some MEDIUM
  | JStr "LOW" => Some LOW
  | _ => None
  end.

(** [v[:500]]: a slice of a string or a list, [TypeError] otherwise. *)
Definition slice_500 (v : json) : option json :=
  match v with
  | JStr s => Some (JStr (PyStr.take 500 s))
  | JList l => Some (JList (take 500 l))
  | _ => None
  end.

(** [int(x)] of a finite float: truncation towards zero. *)
Definition int_of_float (x : PyFloat.float64) : Z :=
  Z.quot (PyFloat.mant x * 2 ^ Z.max (PyFloat.expo x) 0)
         (2 ^ Z.max (- PyFloat.expo x) 0).

Section parser.

(** The parts of the run-time that the sources do not fix.
    - [int_of_str]: [int(s)] on a string, [None] when it raises.
    - [RedFlag_new]: the constructor of the [RedFlag] model applied to the
      category, severity, title, description, location, score, source and
      recommendation; [None] when validation raises.
    - [json_loads]: [json.loads], [None] when it raises
      [JSONDecodeError]. *)
Variable int_of_str : string → option Z.
Variable RedFlag_new :
  FlagCategory → SeverityLevel → json → json → json → Z → string → json →
  option RedFlag.
Variable json_loads : string → option json.

(** [int(v)] on a JSON value. *)
Definition py_int (v : json) : option Z :=
  match v with
  | JInt n => Some n
  | JBool b => Some (if b then 1 else 0)%Z
  | JFloat x => Some (int_of_float x)
  | JStr s => int_of_str s
  | JNull | JNonFinite | JList _ | JDict _ => None
  end.

(** The body of the loop over [data]: [Some flag] when the flag is built
    and appended, [None] when an exception is caught and the loop goes on
    with the next item.  [item.get] raises for an item that is no dict. *)
Definition parse_item (source : string) (item : json) : option RedFlag :=
  match item with
  | JDict d =>
      category ← FlagCategory_of_value (dict_get d "category" (JStr "other"));
      severity ← SeverityLevel_of_value (dict_get d "severity" (JStr "MEDIUM"));
      location ← slice_500 (dict_get d "quote" (dict_get d "location" (JStr "")));
      score ← py_int (dict_get d "score" (JInt 5));
      RedFlag_new category severity
        (dict_get d "title" (JStr "Unspecified Issue"))
        (dict_get d "description" (JStr ""))
        location score source
        (dict_get d "recommendation" JNull)
  | _ => None
  end.

(** The loop over [data]. *)
Definition parse_items (source : string) (data : list json) : list RedFlag :=
  omap (parse_item source) data.

(** The cleaning of the response text before [json.loads]. *)
Definition clean_response (response_text : string) : string :=
  let response_text := PyStr.strip response_text in
  let response_text :=
    if PyStr.startswith "```json" response_text
    then PyStr.drop 7 response_text else response_text in
  let response_text :=
    if PyStr.startswith "```" response_text
    then PyStr.drop 3 response_text else response_text in
  let response_text :=
    if PyStr.endswith "```" response_text
    then PyStr.take (String.length response_text - 3) response_text
    else response_text in
  PyStr.strip response_text.

(** [_parse_llm_response] *)
Definition _parse_llm_response (response_text source : string)
    : list RedFlag :=
  match json_loads (clean_response response_text) with
  | None => []
  | Some data =>
      let data :=
        match data with
        | JDict d => if dict_has d "flags" then dict_get d "flags" JNull
                     else data
        | _ => data
        end in
      match data with
      | JList items => parse_items source items
      | _ => []
      end
  end.

End parser.

(** ** The chunks of a long text *)

(** The body of the loop of [_chunk_text] over the paragraphs: the state is
    the pair of [chunks] and [current_chunk]. *)
Definition chunk_step (max_chars : Z) (st : list string * string)
    (para : string) : list string * string :=
  let '(chunks, current_chunk) := st in
  if (max_chars <? Z.of_nat (String.length current_chunk)
                   + Z.of_nat (String.length para))%Z
  then
    (if bool_decide (current_chunk ≠ EmptyString)
     then chunks ++ [current_chunk] else chunks,
     para)
  else
    (chunks,
     if bool_decide (current_chunk ≠ EmptyString)
     then current_chunk +:+ PyStr.blank_line +:+ para else para).

(** [_chunk_text] *)
Definition _chunk_text (text : string) (max_chars : Z) : list string :=
  if (Z.of_nat (String.length text) <=? max_chars)%Z then [text]
  else
    let paragraphs := PyStr.split_blank_lines text in
    let '(chunks, current_chunk) :=
      foldl (chunk_step max_chars) ([], EmptyString) paragraphs in
    if bool_decide (current_chunk ≠ EmptyString)
    then chunks ++ [current_chunk] else chunks.

End LLMAnalyzer.

(* ===================================================================== *)
(** * analyzers/rule_engine.py *)
(* ===================================================================== *)

Module RuleEngine.

(** ** The engine object

    [self.flags] holds a reference to a list object.  The state of the
    embedding is the store of the list objects of findings, by identity,
    and the reference held by the engine; a computation of the engine is a
    state transformer. *)
Record engine := mkEngine {
  objects : gmap nat (list RedFlag);
  self_flags : nat
}.

Definition M (A : Type) : Type := engine → A * engine.

#[global] Instance M_ret : MRet M := λ A a s, (a, s).
#[global] Instance M_bind : MBind M :=
  λ A B f c s, let '(a, s') := c s in f a s'.

(** [for x in l: body(x)] *)
Fixpoint for_each {A} (l : list A) (body : A → M unit) : M unit :=
  match l with
  | [] => mret ()
  | x :: rest => body x ≫= λ _, for_each rest body
  end.

(** [self.flags = []]: a new list object. *)
Definition reset_flags : M unit := λ s,
  let l := fresh (dom (objects s)) in
  ((), {| objects := <[l := []]> (objects s); self_flags := l |}).

(** [self.flags.append(flag)]: the list object is updated in place. *)
Definition append_flag (flag : RedFlag) : M unit := λ s,
  ((), {| objects := alter (λ l, l ++ [flag]) (self_flags s) (objects s);
          self_flags := self_flags s |}).

(** [return self.flags]: the reference, not a copy. *)
Definition return_flags : M nat := λ s, (self_flags s, s).

(** ** The context of a match *)

(** [_get_context] *)
Definition _get_context (text : string) (start end_ : nat) (chars : nat)
    : string :=
  let context_start := (start - chars)%nat in
  let context_end := (String.length text `min` (end_ + chars))%nat in
  let context := PyStr.strip (PyStr.slice context_start context_end text) in
  let context :=
    if (0 <? context_start)%nat then "..." +:+ context else context in
  if (context_end <? String.length text)%nat then context +:+ "..."
  else context.

(** ** The context search of the missing-schedule check

    [re.search(rf'.{{0,100}}{indicator}.{{0,100}}', text, re.IGNORECASE)]
    for an indicator of lower-case letters and spaces, written out: the
    leftmost start from which at most 100 characters other than a newline
    lead to an occurrence of the indicator in any case; of these
    occurrences the greedy quantifier takes the last; up to 100 characters
    other than a newline follow. *)

(** The indicator matches at the head of [s], ignoring case. *)
Fixpoint match_ignorecase (indicator s : string) : bool :=
  match indicator, s with
  | EmptyString, _ => true
  | String p indicator', String c s' =>
      bool_decide (PyStr.lower_char c = p) && match_ignorecase indicator' s'
  | String _ _, EmptyString => false
  end.

(** What [.{0,n}] takes at the head of [s] when greedy. *)
Fixpoint dots (n : nat) (s : string) : nat :=
  match n, s with
  | S n', String c s' =>
      if bool_decide (c = "010"%char) then 0%nat else S (dots n' s')
  | _, _ => 0%nat
  end.

(** The greatest [j <= k] at which the indicator matches in [s]. *)
Fixpoint backtrack (k : nat) (indicator s : string) : option nat :=
  if match_ignorecase indicator (PyStr.drop k s) then Some k
  else match k with
       | O => None
       | S k' => backtrack k' indicator s
       end.

(** The match that starts at the head of [s], if there is one. *)
Definition match_here (indicator s : string) : option string :=
  j ← backtrack (dots 100 s) indicator s;
  let e := (j + String.length indicator)%nat in
  Some (PyStr.take (e + dots 100 (PyStr.drop e s)) s).

(** [re.search(...).group(0)], [None] when there is no match. *)
Fixpoint search_context (indicator text : string) : option string :=
  match match_here indicator text with
  | Some m => Some m
  | None =>
      match text with
      | EmptyString => None
      | String _ text' => search_context indicator text'
      end
  end.

(** ** The checks *)

Inductive re_flags := IGNORECASE | IGNORECASE_DOTALL.

Section checks.

(** The pattern library of [utils/config.py], which is not among the
    sources, and the regular-expression engine are parameters.  A match
    object is observed through [start()], [end()] and, for the patterns
    whose group 1 is a run of digits, [int(match.group(1))]. *)
Variables OFFSHORE_JURISDICTIONS WEASEL_WORDS HIGH_RISK_PHRASES : list string.
Variable re_match : Type.
Variable m_start m_end : re_match → nat.
Variable int_group_1 : re_match → Z.
Variable re_escape : string → string.
Variable re_finditer : string → re_flags → string → list re_match.

(** [_check_offshore_jurisdictions] *)
Definition _check_offshore_jurisdictions (text : string) : M unit :=
  for_each OFFSHORE_JURISDICTIONS (λ jurisdiction,
    let pattern := "\b" +:+ re_escape jurisdiction +:+ "\b" in
    let matches := re_finditer pattern IGNORECASE text in
    for_each matches (λ match_,
      let context := _get_context text (m_start match_) (m_end match_) 150 in
      let severity :=
        if existsb (λ keyword, PyStr.contains keyword (PyStr.lower context))
                   ["governing law"; "arbitration"; "dispute resolution"]
        then CRITICAL else HIGH in
      append_flag {|
        category := JURISDICTION;
        severity := severity;
        title := "Offshore Jurisdiction: " +:+ jurisdiction;
        description := "Document references " +:+ jurisdiction +:+
          ", which may indicate jurisdiction shopping or regulatory arbitrage.";
        location := context;
        score := if decide (severity = CRITICAL) then 9 else 7;
        source := "rule_engine";
        recommendation := Some "Require arbitration in neutral jurisdiction (Delaware, New York, or London). Investigate why offshore jurisdiction was chosen."
      |})).

(** [_check_weasel_words].  The dict [weasel_count] is written and never
    read; it is left out. *)
Definition _check_weasel_words (text : string) : M unit :=
  for_each WEASEL_WORDS (λ word,
    let pattern := "\b" +:+ re_escape word +:+ "\b" in
    let matches := re_finditer pattern IGNORECASE text in
    match matches with
    | first_match :: _ =>
        if (3 <? length matches)%nat then
          let context :=
            _get_context text (m_start first_match) (m_end first_match) 150 in
          let n := PyStr.of_Z (Z.of_nat (length matches)) in
          append_flag {|
            category := VAGUE_LANGUAGE;
            severity := MEDIUM;
            title := "Excessive Vague Language: '" +:+ word +:+ "' (" +:+ n
                     +:+ "x)";
            description := "Term '" +:+ word +:+ "' appears " +:+ n +:+
              " times. Vague language creates ambiguity and potential for disputes.";
            location := context;
            score := 5;
            source := "rule_engine";
            recommendation := Some ("Request specific definitions and thresholds. Replace '"
              +:+ word +:+ "' with measurable criteria.")
          |}
        else mret ()
    | [] => mret ()
    end).

(** [_check_high_risk_phrases] *)
Definition _check_high_risk_phrases (text : string) : M unit :=
  for_each HIGH_RISK_PHRASES (λ phrase,
    let pattern := "\b" +:+ re_escape phrase +:+ "\b" in
    let matches := re_finditer pattern IGNORECASE text in
    for_each matches (λ match_,
      let context := _get_context text (m_start match_) (m_end match_) 150 in
      append_flag {|
        category := MISSING_INFO;
        severity := HIGH;
        title := "Deferred Disclosure: '" +:+ phrase +:+ "'";
        description := "Critical information is deferred or incomplete. This is a major red flag - you're signing before having full information.";
        location := context;
        score := 8;
        source := "rule_engine";
        recommendation := Some "STOP. Do not sign until all referenced information is provided and reviewed. No post-closing surprises."
      |})).

Definition missing_indicators : list string :=
  ["being finalized"; "to be provided"; "being compiled";
   "will be attached"; "to be determined"].

(** The loop of [_check_missing_schedules] over the indicators, with its
    [break]. *)
Fixpoint missing_schedules_loop (text : string) (indicators : list string)
    : M unit :=
  match indicators with
  | [] => mret ()
  | indicator :: rest =>
      if PyStr.contains indicator (PyStr.lower text) then
        match search_context indicator text with
        | Some context_match =>
            append_flag {|
              category := MISSING_INFO;
              severity := CRITICAL;
              title := "Missing or Incomplete Schedules";
              description := "Schedules are incomplete: '" +:+ indicator +:+
                "'. Never sign with missing schedules.";
              location := context_match;
              score := 10;
              source := "rule_engine";
              recommendation := Some "Require all schedules to be completed and attached before signing. Missing schedules = unknown liabilities."
            |}
        | None => missing_schedules_loop text rest
        end
      else missing_schedules_loop text rest
  end.

(** [_check_missing_schedules].  The set [referenced_schedules] is computed
    and never read; it is left out. *)
Definition _check_missing_schedules (text : string) : M unit :=
  missing_schedules_loop text missing_indicators.

(** [_check_date_anomalies] *)
Definition _check_date_anomalies (text : string) : M unit :=
  let audit_pattern := "audit(?:ed)?[^.]{0,50}(?:19|20)(\d{2})" in
  let matches := re_finditer audit_pattern IGNORECASE text in
  for_each matches (λ match_,
    let year := int_group_1 match_ in
    let full_year := (if 50 <? year then 1900 + year else 2000 + year)%Z in
    if (full_year <? 2023)%Z then
      let context := _get_context text (m_start match_) (m_end match_) 150 in
      append_flag {|
        category := FINANCIAL;
        severity := HIGH;
        title := "Outdated Financial Audit (" +:+ PyStr.of_Z full_year +:+ ")";
        description := "Most recent audit mentioned is from " +:+
          PyStr.of_Z full_year +:+ ", which is too old to be reliable.";
        location := context;
        score := 7;
        source := "rule_engine";
        recommendation := Some "Require current audited financials (within 12 months). Outdated audits hide recent problems."
      |}
    else mret ()).

(** The dict [red_flags] of [_check_payment_red_flags], in insertion
    order: pattern, title, severity, score, recommendation. *)
Definition red_flags
    : list (string * (string * SeverityLevel * Z * string)) :=
  [("earnout.*(?:undefined|to be determined|mutually agreed)",
    ("Undefined Earnout Targets", CRITICAL, 10%Z,
     "Never accept undefined earnout metrics. Specify exact EBITDA/revenue targets and calculation methods."));
   ("deferred.*(?:performance metrics|to be determined)",
    ("Undefined Deferred Payment Terms", HIGH, 8%Z,
     "All deferred payment triggers must be clearly defined at signing."))].

(** [_check_payment_red_flags] *)
Definition _check_payment_red_flags (text : string) : M unit :=
  for_each red_flags (λ '(pattern, (flag_title, flag_severity, flag_score,
                                    flag_recommendation)),
    let matches := re_finditer pattern IGNORECASE_DOTALL text in
    for_each matches (λ match_,
      let context := _get_context text (m_start match_) (m_end match_) 150 in
      append_flag {|
        category := FINANCIAL;
        severity := flag_severity;
        title := flag_title;
        description := "Payment terms are incomplete or subject to future agreement. This creates massive dispute risk.";
        location := context;
        score := flag_score;
        source := "rule_engine";
        recommendation := Some flag_recommendation
      |})).

(** [_check_liability_limitations] *)
Definition _check_liability_limitations (text : string) : M unit :=
  let survival_pattern :=
    "(?:surviv|representations).*?(\d+)\s*(?:months?|days?)" in
  let matches := re_finditer survival_pattern IGNORECASE text in
  for_each matches (λ match_,
    let period := int_group_1 match_ in
    if (period <? 12)%Z then
      let context := _get_context text (m_start match_) (m_end match_) 150 in
      append_flag {|
        category := LIABILITY;
        severity := HIGH;
        title := "Short Survival Period (" +:+ PyStr.of_Z period +:+ " months)";
        description := "Representations survive only " +:+ PyStr.of_Z period
          +:+ " months. Industry standard is 18-24 months minimum.";
        location := context;
        score := 7;
        source := "rule_engine";
        recommendation := Some ("Negotiate longer survival period (minimum 18 months). "
          +:+ PyStr.of_Z period +:+
          " months is insufficient for most issues to surface.")
      |}
    else mret ()).

(** [_check_customer_concentration] *)
Definition _check_customer_concentration (text : string) : M unit :=
  let concentration_pattern := "top\s+\d+\s+customers?.*?(\d+)%" in
  let matches := re_finditer concentration_pattern IGNORECASE text in
  for_each matches (λ match_,
    let percentage := int_group_1 match_ in
    if (50 <? percentage)%Z then
      let context := _get_context text (m_start match_) (m_end match_) 150 in
      let severity := if (70 <? percentage)%Z then CRITICAL else HIGH in
      append_flag {|
        category := CUSTOMER;
        severity := severity;
        title := "High Customer Concentration (" +:+ PyStr.of_Z percentage
                 +:+ "%)";
        description := "Top customers represent " +:+ PyStr.of_Z percentage
          +:+ "% of revenue. Loss of any major customer could be catastrophic.";
        location := context;
        score := if (70 <? percentage)%Z then 9 else 7;
        source := "rule_engine";
        recommendation := Some "Require customer retention agreements, escrow protection, or earnout tied to customer retention."
      |}
    else mret ()).

(** [analyze] *)
Definition analyze (full_text : string) : M nat :=
  reset_flags ≫= λ _,
  _check_offshore_jurisdictions full_text ≫= λ _,
  _check_weasel_words full_text ≫= λ _,
  _check_high_risk_phrases full_text ≫= λ _,
  _check_missing_schedules full_text ≫= λ _,
  _check_date_anomalies full_text ≫= λ _,
  _check_payment_red_flags full_text ≫= λ _,
  _check_liability_limitations full_text ≫= λ _,
  _check_customer_concentration full_text ≫= λ _,
  return_flags.

End checks.

End RuleEngine.

(* ===================================================================== *)
(** * Vocabulary of the statements *)
(* ===================================================================== *)

Import ResultAggregator LLMAnalyzer RuleEngine.

(** ** The deduplication *)

(** The distinct elements of a list, in the order of their first
    occurrence: the order of the keys of a dict filled from the list. *)
Fixpoint first_occurrences {A} `{EqDecision A} (l : list A) : list A :=
  match l with
  | [] => []
  | x :: l' => x :: filter (λ y, y ≠ x) (first_occurrences l')
  end.

(** The flags of one category, in their order in the list. *)
Definition in_category (c : FlagCategory) (l : list RedFlag) : list RedFlag :=
  filter (λ f, category f = c) l.

(** The key of the flag is similar to a key of the set. *)
Definition similar_to_some (flag : RedFlag) (seen : gset string) : Prop :=
  set_Exists (λ seen_key, _are_similar (_get_flag_key flag) seen_key = true) seen.

(** The flags of a category group that the inner loop keeps when it starts
    with the keys [seen]. *)
Fixpoint accepted (seen : gset string) (group : list RedFlag) : list RedFlag :=
  match group with
  | [] => []
  | flag :: rest =>
      if decide (similar_to_some flag seen) then accepted seen rest
      else flag :: accepted (seen ∪ {[_get_flag_key flag]}) rest
  end.

(** The keys of a list of flags. *)
Definition keys (l : list RedFlag) : gset string :=
  list_to_set (_get_flag_key <$> l).

(** Two flags that differ at most in severity and score. *)
Definition same_text (f g : RedFlag) : Prop :=
  category f = category g ∧ title f = title g ∧
  description f = description g ∧ location f = location g ∧
  source f = source g ∧ recommendation f = recommendation g.

(** Sample findings for the worked examples: two near-duplicate financial
    findings (a rule finding and an external one that differ in case,
    severity and score), a legal finding with the text of the first, and an
    unrelated financial finding. *)
Definition sample_rule : RedFlag :=
  {| category := FINANCIAL; severity := HIGH;
     title := "Undefined Earnout Targets";
     description := "Payment terms are incomplete or subject to future agreement.";
     location := "earnout to be determined"; score := 8;
     source := "rule_engine"; recommendation := None |}.

Definition sample_external : RedFlag :=
  {| category := FINANCIAL; severity := CRITICAL;
     title := "undefined earnout targets";
     description := "Payment terms are INCOMPLETE or subject to future agreement.";
     location := "the earnout"; score := 10;
     source := "claude"; recommendation := Some "Define the targets." |}.

Definition sample_legal : RedFlag :=
  {| category := LEGAL; severity := HIGH;
     title := "Undefined Earnout Targets";
     description := "Payment terms are incomplete or subject to future agreement.";
     location := "earnout to be determined"; score := 8;
     source := "gpt4"; recommendation := None |}.

Definition sample_other : RedFlag :=
  {| category := FINANCIAL; severity := HIGH;
     title := "Outdated Financial Audit (2019)";
     description := "Most recent audit mentioned is from 2019.";
     location := "audited in 2019"; score := 8;
     source := "rule_engine"; recommendation := None |}.

(** The word set of a key, and the exact Jaccard test
    [|w1 ∩ w2| / |w1 ∪ w2| >= 7/10] on two keys with words. *)
Definition words (key : string) : gset string := list_to_set (PyStr.split key).

Definition jaccard_at_least_0_7 (key1 key2 : string) : Prop :=
  words key1 ≠ ∅ ∧ words key2 ≠ ∅ ∧
  (7 * Z.of_nat (size (words key1 ∪ words key2))
   ≤ 10 * Z.of_nat (size (words key1 ∩ words key2)))%Z.

(** Keys of fewer than [5 * 10^14] words: on these the binary64 comparison
    of [_are_similar] is the exact one. *)
Definition few_words (f : RedFlag) : Prop :=
  (Z.of_nat (size (words (_get_flag_key f))) < 5 * 10 ^ 14)%Z.

(** ** The sort and the risk score *)

(** [k1 <= k2] on sort keys: not [k2 < k1]. *)
Definition key_le (k1 k2 : Z * Z) : Prop := key_lt k2 k1 = false.

(** A list in which every flag is followed only by flags of greater or
    equal key. *)
Definition sorted_by_key (l : list RedFlag) : Prop :=
  StronglySorted (λ f g, key_le (sort_key f) (sort_key g)) l.

(** The ranks of the severities as the specification lists them. *)
Definition severityRank (s : SeverityLevel) : Z :=
  match s with CRITICAL => 0 | HIGH => 1 | MEDIUM => 2 | LOW => 3 end.

(** The flags of one severity, in their order in the list. *)
Definition of_severity (s : SeverityLevel) (l : list RedFlag) : list RedFlag :=
  filter (λ f, severity f = s) l.

(** Three more sample findings, of categories of their own: a finding of
    low severity with a high score, a critical finding with a low score, and
    a finding of high severity with score 9. *)
Definition sample_minor : RedFlag :=
  {| category := OPERATIONAL; severity := LOW;
     title := "Office Lease Renewal";
     description := "The lease of the head office ends next year.";
     location := "lease"; score := 9;
     source := "rule_engine"; recommendation := None |}.

Definition sample_grave : RedFlag :=
  {| category := COMPLIANCE; severity := CRITICAL;
     title := "Missing Export Licence";
     description := "No licence covers the shipments to the main market.";
     location := "export"; score := 3;
     source := "gpt4"; recommendation := None |}.

Definition sample_pressing : RedFlag :=
  {| category := TAX; severity := HIGH;
     title := "Open Tax Audit";
     description := "An audit of the last three years is pending.";
     location := "tax audit"; score := 9;
     source := "claude"; recommendation := None |}.

(** The two sums of the risk score: [score * weight] and [weight] over the
    flags. *)
Fixpoint weighted_sum (flags : list RedFlag) : Z :=
  match flags with
  | [] => 0
  | f :: rest =>
      (score f * severity_weights (severity f) + weighted_sum rest)%Z
  end.

Fixpoint total_weight (flags : list RedFlag) : Z :=
  match flags with
  | [] => 0
  | f :: rest => (severity_weights (severity f) + total_weight rest)%Z
  end.

(** ** The response parser *)

(** [int(s)] on a string of characters below 256: whitespace around the
    number, an optional sign, and decimal digits that single underscores
    may separate.  The whitespace of [int] is TAB..CR, the space, NEL and
    NBSP; the separators FS..US, which [str.strip] removes, are not part
    of it.  (The limit that recent interpreters put on the number of digits
    is left out.) *)
Definition int_isspace (c : ascii) : bool :=
  let n := N_of_ascii c in
  ((9 <=? n) && (n <=? 13) || (n =? 32) || (n =? 133) || (n =? 160))%N.

Fixpoint int_lstrip (s : string) : string :=
  match s with
  | String c s' => if int_isspace c then int_lstrip s' else s
  | EmptyString => EmptyString
  end.

Fixpoint int_rstrip (s : string) : string :=
  match s with
  | EmptyString => EmptyString
  | String c s' =>
      match int_rstrip s' with
      | EmptyString => if int_isspace c then EmptyString else String c EmptyString
      | r => String c r
      end
  end.

Definition digit_of (c : ascii) : option Z :=
  let n := N_of_ascii c in
  if ((48 <=? n) && (n <=? 57))%N then Some (Z.of_N n - 48)%Z else None.

Fixpoint digits_from (acc : Z) (after_digit : bool) (s : string) : option Z :=
  match s with
  | EmptyString => if after_digit then Some acc else None
  | String c s' =>
      match digit_of c with
      | Some d => digits_from (10 * acc + d)%Z true s'
      | None =>
          if bool_decide (c = "_"%char) && after_digit
          then digits_from acc false s' else None
      end
  end.

Definition int_of_decimal (s : string) : option Z :=
  match int_rstrip (int_lstrip s) with
  | String "-" s' => Z.opp <$> digits_from 0 false s'
  | String "+" s' => digits_from 0 false s'
  | s' => digits_from 0 false s'
  end.

(** Modelled from the spec: [RedFlag] of [models/schemas.py], which is not
    among the sources, read as the record of the data model with no
    validation beyond the types of its fields: title, description and
    location are strings, the recommendation is a string or [None]. *)
Definition RedFlag_plain (c : FlagCategory) (sev : SeverityLevel)
    (title description location : json) (score : Z) (source : string)
    (recommendation : json) : option RedFlag :=
  match title, description, location with
  | JStr t, JStr d, JStr l =>
      match recommendation with
      | JNull => Some (mkRedFlag c sev t d l score source None)
      | JStr r => Some (mkRedFlag c sev t d l score source (Some r))
      | _ => None
      end
  | _, _, _ => None
  end.

(** Sample items of a response: a well-formed one, one whose category and
    one whose severity is outside the enumerations, and one without
    category and severity. *)
Definition item_good : json :=
  JDict [("category", JStr "financial"); ("severity", JStr "HIGH");
         ("title", JStr "Earnout undefined");
         ("description", JStr "Targets are left to future agreement.");
         ("quote", JStr "targets to be mutually agreed");
         ("score", JInt 8);
         ("recommendation", JStr "Define the targets.")].

Definition item_unknown_category : json :=
  JDict [("category", JStr "pricing"); ("severity", JStr "HIGH");
         ("title", JStr "Price adjustment");
         ("description", JStr "The adjustment mechanism is one-sided.");
         ("quote", JStr "price shall be adjusted"); ("score", JInt 6)].

Definition item_unknown_severity : json :=
  JDict [("category", JStr "legal"); ("severity", JStr "SEVERE");
         ("title", JStr "Unlimited indemnity");
         ("description", JStr "The indemnity has no cap.");
         ("quote", JStr "shall indemnify without limit"); ("score", JInt 9)].

Definition item_bare : json :=
  JDict [("title", JStr "Key person dependency");
         ("description", JStr "No retention plan is in place.")].

(** ** The rule engine *)

(** The engine after [fs] was appended to the list it holds. *)
Definition appended (s : engine) (fs : list RedFlag) : engine :=
  {| objects := alter (λ l, l ++ fs) (self_flags s) (objects s);
     self_flags := self_flags s |}.

(** What a check appends to an empty list. *)
Definition findings_of (c : M unit) : list RedFlag :=
  default [] (objects (c (mkEngine {[0%nat := []]} 0%nat)).2 !! 0%nat).

(** The finding of the missing-schedule check for an indicator and the
    context found for it. *)
Definition missing_schedule_flag (indicator context_match : string) : RedFlag :=
  {| category := MISSING_INFO;
     severity := CRITICAL;
     title := "Missing or Incomplete Schedules";
     description := "Schedules are incomplete: '" +:+ indicator +:+
       "'. Never sign with missing schedules.";
     location := context_match;
     score := 10;
     source := "rule_engine";
     recommendation := Some "Require all schedules to be completed and attached before signing. Missing schedules = unknown liabilities."
  |}.

(** A computation that does nothing but append [fs] to the list the engine
    holds, whatever the state. *)
Definition appends (c : M unit) (fs : list RedFlag) : Prop :=
  ∀ s, c s = ((), appended s fs).

(** The list behind the reference that a run returned. *)
Definition returned (r : nat * engine) : option (list RedFlag) :=
  objects (snd r) !! fst r.

(** A check appends: there is a list that it appends in every state. *)
Definition appender (c : M unit) : Prop := ∃ fs, appends c fs.

(** The indicator does not occur in the lower-cased text. *)
Definition absent (text indicator : string) : Prop :=
  PyStr.contains indicator (PyStr.lower text) = false.

(** A document in which a later indicator of the list occurs first. *)
Definition sample_document : string :=
  "The schedules are to be provided at closing.
Exhibit B is Being Finalized by counsel and to be determined.
Done.".

(** ** The report *)

(** The number of flags of a severity. *)
Definition count_severity (s : SeverityLevel) (l : list RedFlag) : Z :=
  Z.of_nat (length (filter (λ f, severity f = s) l)).

(** The float that a number of hundredths stands for: the binary64 number
    nearest to [h / 100], which is what [round(x, 2)] returns. *)
Definition of_hundredths (h : Z) : option PyFloat.float64 :=
  PyFloat.int_true_divide h 100.

(** The value of a float against an integer [n]: [n <= q] and [q <= n], on
    the exact value [mant * 2^expo]. *)
Definition int_le_float (n : Z) (q : PyFloat.float64) : Prop :=
  (n * 2 ^ Z.max (- PyFloat.expo q) 0
   ≤ PyFloat.mant q * 2 ^ Z.max (PyFloat.expo q) 0)%Z.

Definition float_le_int (q : PyFloat.float64) (n : Z) : Prop :=
  (PyFloat.mant q * 2 ^ Z.max (PyFloat.expo q) 0
   ≤ n * 2 ^ Z.max (- PyFloat.expo q) 0)%Z.


Definition sample_retold : RedFlag :=
  {| category := FINANCIAL; severity := MEDIUM;
     title := "undefined earnout targets";
     description := "The purchase price depends on milestones that the parties have not yet written down anywhere.";
     location := ""; score := 6;
     source := "claude"; recommendation := None |}.

(** ** The chunks *)

(** ['\n\n'.join(l)] *)
Fixpoint join_blank_lines (l : list string) : string :=
  match l with
  | [] => EmptyString
  | [p] => p
  | p :: rest => p +:+ PyStr.blank_line +:+ join_blank_lines rest
  end.

(** The paragraphs that are not empty. *)
Definition nonempty_paragraphs (l : list string) : list string :=
  filter (λ p, p ≠ EmptyString) l.

(** A group of paragraphs that starts with a paragraph that is not
    empty. *)
Definition starts_nonempty (group : list string) : Prop :=
  ∃ p rest, group = p :: rest ∧ p ≠ EmptyString.

(** The two bounds on a group of paragraphs joined into a chunk: it is
    short, or it is one paragraph. *)
Definition short_or_single (max_chars : Z) (group : list string) : Prop :=
  (Z.of_nat (String.length (join_blank_lines group)) ≤ max_chars + 2)%Z
  ∨ ∃ p, group = [p].

(** The group of one paragraph that starts a chunk: none for the empty
    paragraph. *)
Definition fresh_group (p : string) : list string :=
  if decide (p = EmptyString) then [] else [p].

(** The state of the loop of [_chunk_text] after the paragraphs [ps]: the
    chunks are the joined groups, the current chunk is the joined current
    group, and the groups hold the paragraphs read so far, in order, except
    for empty paragraphs left out where a chunk starts. *)
Definition chunk_inv (max_chars : Z) (ps : list string)
    (st : list string * string) : Prop :=
  ∃ (groups : list (list string)) (g : list string),
    st.1 = join_blank_lines <$> groups ∧ st.2 = join_blank_lines g
    ∧ Forall starts_nonempty groups ∧ (g = [] ∨ starts_nonempty g)
    ∧ concat groups ++ g `sublist_of` ps
    ∧ nonempty_paragraphs (concat groups ++ g) = nonempty_paragraphs ps
    ∧ Forall (short_or_single max_chars) groups
    ∧ (g = [] ∨ short_or_single max_chars g).

(** A run of consecutive paragraphs that makes a chunk, with the empty
    paragraphs that were left out before it; and the paragraphs that a list
    of runs stands for. *)
Definition paragraphs_of_runs (runs : list (list string * list string))
    : list string :=
  runs ≫= λ r, r.1 ++ r.2.

Definition chunks_of_runs (runs : list (list string * list string))
    : list string :=
  (λ r, join_blank_lines r.2) <$> runs.

(** The state of the loop of [_chunk_text] after the paragraphs [ps], as
    runs: the paragraphs read so far are those of the runs of the chunks,
    then empty paragraphs left out, then the run of the current chunk. *)
Definition chunk_runs_inv (ps : list string) (st : list string * string)
    : Prop :=
  ∃ runs skipped g,
    ps = paragraphs_of_runs runs ++ skipped ++ g
    ∧ st.1 = chunks_of_runs runs ∧ st.2 = join_blank_lines g
    ∧ Forall (λ r, Forall (λ p, p = EmptyString) r.1 ∧ starts_nonempty r.2) runs
    ∧ Forall (λ p, p = EmptyString) skipped
    ∧ (g = [] ∨ starts_nonempty g).

(** A text of three paragraphs; with [max_chars = 6] its first two
    paragraphs make a chunk of 8 characters. *)
Definition sample_paragraphs : string :=
  "aaa" +:+ PyStr.blank_line +:+ "bbb" +:+ PyStr.blank_line +:+ "cc".

(** ** The findings of the rule engine *)

(** The severities and scores that the checks of the rule engine give to a
    finding of each category. *)
Definition rule_grades (c : FlagCategory) : list (SeverityLevel * Z) :=
  match c with
  | JURISDICTION => [(CRITICAL, 9); (HIGH, 7)]
  | VAGUE_LANGUAGE => [(MEDIUM, 5)]
  | MISSING_INFO => [(CRITICAL, 10); (HIGH, 8)]
  | FINANCIAL => [(CRITICAL, 10); (HIGH, 8); (HIGH, 7)]
  | LIABILITY => [(HIGH, 7)]
  | CUSTOMER => [(CRITICAL, 9); (HIGH, 7)]
  | _ => []
  end%Z.

(** A finding as the rule engine builds them. *)
Definition rule_finding (f : RedFlag) : Prop :=
  source f = "rule_engine" ∧ is_Some (recommendation f)
  ∧ (severity f, score f) ∈ rule_grades (category f).

(** A computation that appends flags that all satisfy [P]. *)
Definition appends_all (P : RedFlag → Prop) (c : M unit) : Prop :=
  ∃ fs, appends c fs ∧ Forall P fs.

(** The year that [_check_date_anomalies] reads from the two digits
    captured by its pattern. *)
Definition full_year (year : Z) : Z :=
  (if 50 <? year then 1900 + year else 2000 + year)%Z.

(** The titles and the description of the findings of
    [_check_payment_red_flags]. *)
Definition payment_titles : list string :=
  ["Undefined Earnout Targets"; "Undefined Deferred Payment Terms"].

Definition payment_finding (f : RedFlag) : Prop :=
  category f = FINANCIAL ∧ title f ∈ payment_titles
  ∧ description f = "Payment terms are incomplete or subject to future agreement. This creates massive dispute risk.".

(** A document with three audit dates, and the matches that the pattern
    of [_check_date_anomalies] has in it: start, end and the two digits of
    group 1.  No other pattern of the engine matches it. *)
Definition sample_audits : string :=
  "Audited in 2019. Audited in 1923. Audited in 2051.".

Definition sample_finditer (pattern : string) (flags : re_flags)
    (text : string) : list (nat * nat * Z) :=
  if decide (pattern = "audit(?:ed)?[^.]{0,50}(?:19|20)(\d{2})"
             ∧ text = sample_audits)
  then [(0%nat, 15%nat, 19%Z); (17%nat, 32%nat, 23%Z);
        (34%nat, 49%nat, 51%Z)]
  else [].

Definition sample_analyze (text : string) : M nat :=
  analyze ["Cayman Islands"] ["reasonable"] ["to be agreed"]
    (nat * nat * Z) (λ m, m.1.1) (λ m, m.1.2) snd (λ s, s) sample_finditer
    text.

(** A document in which both payment patterns match once. *)
Definition sample_payments : string :=
  "Earnout to be determined. Deferred until performance metrics are set.".

Definition sample_payment_finditer (pattern : string) (flags : re_flags)
    (text : string) : list (nat * nat * Z) :=
  if decide (text = sample_payments) then
    if decide (pattern
               = "earnout.*(?:undefined|to be determined|mutually agreed)")
    then [(0%nat, 24%nat, 0%Z)]
    else if decide (pattern
                    = "deferred.*(?:performance metrics|to be determined)")
    then [(26%nat, 60%nat, 0%Z)]
    else []
  else [].

(* ===================================================================== *)
(** * Properties *)
(* ===================================================================== *)

(** ** Worked examples *)

Example true_divide_7_10 :
  PyFloat.int_true_divide 7 10 = Some PyFloat.lit_0_7.
Proof. vm_compute. reflexivity. Qed.

Example round2_samples :
  (PyFloat.round2 <$> PyFloat.int_true_divide 15 1000,
   PyFloat.round2 <$> PyFloat.int_true_divide 5 1000,
   PyFloat.round2 <$> PyFloat.int_true_divide 1 8,
   PyFloat.round2 <$> PyFloat.int_true_divide 3 8,
   PyFloat.round2 <$> PyFloat.int_true_divide (-1) 1000)
  = (Some 1, Some 1, Some 12, Some 38, Some 0)%Z.
Proof. vm_compute. reflexivity. Qed.

Example split_sample :
  PyStr.split "  offshore|the  cayman
 islands " = ["offshore|the"; "cayman"; "islands"].
Proof. vm_compute. reflexivity. Qed.

Example get_flag_key_sample :
  _get_flag_key sample_external =
  "undefined earnout targets|payment terms are incomplete or subject to future agreement.".
Proof. vm_compute. reflexivity. Qed.

Example deduplicate_sample :
  _deduplicate_flags ([sample_rule; sample_legal] ++
                      [sample_external; sample_other])
  = [sample_rule; sample_other; sample_legal].
Proof. vm_compute. reflexivity. Qed.

Example aggregate_sample :
  (λ r, (total_flags r, critical_count r, high_count r, medium_count r,
         low_count r, overall_risk_score r, processing_time_seconds r,
         metadata r))
    <$> aggregate 0%Z "contract.pdf" [sample_rule; sample_legal]
          [sample_external; sample_other] (PyFloat.Float64 5 (-2))
  = Some (3, 0, 3, 0, 0, 800, 125,
          [("rule_flags_count", 2); ("llm_flags_count", 2);
           ("deduplication_removed", 1)])%Z.
Proof. vm_compute. reflexivity. Qed.

Example int_of_decimal_samples :
  int_of_decimal <$> ["12"; " 12 "; "+5"; "-7"; "1_000"; "010";
                      "_1"; "1__0"; "1_"; ""; "0x10"; "1 2"; "-"; "+ 7"]
  = [Some 12; Some 12; Some 5; Some (-7); Some 1000; Some 10;
     None; None; None; None; None; None; None; None]%Z.
Proof. vm_compute. reflexivity. Qed.

Example int_of_decimal_whitespace :
  int_of_decimal <$> [String (ascii_of_N 160) "7"; String (ascii_of_N 133) "7";
                      String (ascii_of_N 11) "7"; String (ascii_of_N 28) "7";
                      String (ascii_of_N 28) " 7";
                      "7" +:+ String (ascii_of_N 31) EmptyString;
                      String (ascii_of_N 160) EmptyString]
  = [Some 7; Some 7; Some 7; None; None; None; None]%Z
  ∧ PyStr.strip (String (ascii_of_N 28) "7") = "7".
Proof. vm_compute. split; reflexivity. Qed.

Example get_context_sample :
  _get_context sample_document 10 20 5 = "...chedules are to be p...".
Proof. vm_compute. reflexivity. Qed.

Example search_context_sample :
  search_context "to be provided" sample_document
  = Some "The schedules are to be provided at closing.".
Proof. vm_compute. reflexivity. Qed.

(** ** First occurrences *)

Section first_occurrences.
Context {A : Type} `{EqDecision A}.
Implicit Types l : list A.

Lemma elem_of_first_occurrences l x : x ∈ first_occurrences l ↔ x ∈ l.
Proof.
  induction l as [|y l IH]; simpl; [done|].
  rewrite !elem_of_cons, list_elem_of_filter, IH.
  destruct (decide (x = y)); tauto.
Qed.

Lemma NoDup_first_occurrences l : NoDup (first_occurrences l).
Proof.
  induction l as [|y l IH]; simpl; [constructor|].
  constructor; [|by apply NoDup_filter].
  rewrite list_elem_of_filter. tauto.
Qed.

Lemma first_occurrences_snoc l x :
  first_occurrences (l ++ [x]) =
  if decide (x ∈ l) then first_occurrences l else first_occurrences l ++ [x].
Proof.
  induction l as [|y l IH]; simpl; [done|].
  rewrite IH. destruct (decide (x ∈ l)) as [Hin|Hin].
  - destruct (decide (x ∈ y :: l)) as [|Hn]; [done|].
    destruct Hn. rewrite elem_of_cons. tauto.
  - rewrite filter_app, filter_singleton by done.
    destruct (decide (x ∈ y :: l)) as [Hy|Hy].
    + apply elem_of_cons in Hy as [->|?]; [|done].
      rewrite decide_False by tauto. by rewrite app_nil_r.
    + rewrite decide_True; [done|]. intros ->. apply Hy, elem_of_cons. tauto.
Qed.

End first_occurrences.

(** ** The loops of [_deduplicate_flags] *)

Section dedup_structure.
Implicit Types (l fs ded : list RedFlag) (seen : gset string).
Implicit Types (c : FlagCategory) (cs : list FlagCategory).

Lemma keys_cons f l : keys (f :: l) = {[_get_flag_key f]} ∪ keys l.
Proof. done. Qed.

Lemma keys_app l1 l2 : keys (l1 ++ l2) = keys l1 ∪ keys l2.
Proof. unfold keys. rewrite fmap_app. apply list_to_set_app_L. Qed.

Lemma dedup_flag_duplicate ded seen f :
  similar_to_some f seen → dedup_flag (ded, seen) f = (ded, seen).
Proof. intros Hd. unfold dedup_flag. by rewrite bool_decide_eq_true_2. Qed.

Lemma dedup_flag_fresh ded seen f :
  ¬ similar_to_some f seen →
  dedup_flag (ded, seen) f = (ded ++ [f], seen ∪ {[_get_flag_key f]}).
Proof. intros Hd. unfold dedup_flag. by rewrite bool_decide_eq_false_2. Qed.

Lemma foldl_dedup_flag fs ded seen :
  foldl dedup_flag (ded, seen) fs =
  (ded ++ accepted seen fs, seen ∪ keys (accepted seen fs)).
Proof.
  revert ded seen. induction fs as [|f fs IH]; intros ded seen;
    cbn [foldl accepted].
  - rewrite app_nil_r. f_equal. unfold keys. simpl. by rewrite (right_id_L ∅ (∪)).
  - destruct (decide (similar_to_some f seen)) as [Hd|Hd].
    + by rewrite dedup_flag_duplicate, IH.
    + rewrite dedup_flag_fresh, IH, keys_cons by done.
      rewrite <- (assoc_L (++)), (assoc_L (∪)). done.
Qed.

Lemma dedup_category_spec ded c fs :
  dedup_category ded (c, fs) = ded ++ accepted ∅ fs.
Proof. unfold dedup_category. simpl. by rewrite foldl_dedup_flag. Qed.

Lemma foldl_dedup_category (groups : list (FlagCategory * list RedFlag)) ded :
  foldl dedup_category ded groups =
  ded ++ (groups ≫= λ g, accepted ∅ g.2).
Proof.
  revert ded. induction groups as [|[c fs] groups IH]; intros ded; simpl.
  - by rewrite app_nil_r.
  - rewrite IH, dedup_category_spec. by rewrite <- (assoc_L (++)).
Qed.

Lemma in_category_snoc c l f :
  in_category c (l ++ [f]) =
  in_category c l ++ (if decide (category f = c) then [f] else []).
Proof. unfold in_category. by rewrite filter_app, filter_singleton. Qed.

Lemma in_category_absent c l : c ∉ category <$> l → in_category c l = [].
Proof.
  induction l as [|f l IH]; [done|]. rewrite fmap_cons, not_elem_of_cons.
  intros [Hne Hl]. unfold in_category. rewrite filter_cons_False by done.
  by apply IH.
Qed.

Lemma by_category_append_fmap cs l f :
  NoDup cs →
  by_category_append ((λ c, (c, in_category c l)) <$> cs) f =
  ((λ c, (c, in_category c (l ++ [f]))) <$> cs) ++
  (if decide (category f ∈ cs) then [] else [(category f, [f])]).
Proof.
  induction 1 as [|c cs Hc Hcs IH]; [done|].
  rewrite !fmap_cons. cbn [by_category_append]. rewrite in_category_snoc.
  destruct (decide (c = category f)) as [->|Hne].
  - rewrite decide_True by done.
    rewrite (decide_True (P := _ ∈ _ :: _)) by (rewrite elem_of_cons; tauto).
    rewrite app_nil_r. f_equal. apply list_fmap_ext. intros i c Hi.
    apply list_elem_of_lookup_2 in Hi.
    rewrite in_category_snoc, decide_False, app_nil_r; [done|].
    intros Heq. by rewrite Heq in Hc.
  - rewrite decide_False by done. rewrite app_nil_r, IH.
    rewrite <- app_comm_cons. f_equal. f_equal.
    destruct (decide (category f ∈ cs)) as [Hin|Hin].
    + rewrite decide_True by (rewrite elem_of_cons; tauto). done.
    + rewrite decide_False; [done|]. rewrite elem_of_cons. intros [?|?]; congruence.
Qed.

Lemma by_category_spec l :
  foldl by_category_append [] l =
  (λ c, (c, in_category c l)) <$> first_occurrences (category <$> l).
Proof.
  induction l as [|f l IH] using rev_ind; [done|].
  rewrite foldl_snoc, IH, by_category_append_fmap
    by apply NoDup_first_occurrences.
  rewrite (fmap_app category), list_fmap_singleton, first_occurrences_snoc.
  destruct (decide (category f ∈ first_occurrences (category <$> l))) as [Hin|Hin].
  - rewrite decide_True by (by apply elem_of_first_occurrences).
    by rewrite app_nil_r.
  - rewrite decide_False by (by rewrite <- elem_of_first_occurrences).
    rewrite fmap_app. simpl. f_equal. f_equal. f_equal.
    rewrite in_category_snoc, decide_True by done.
    rewrite elem_of_first_occurrences in Hin.
    by rewrite in_category_absent.
Qed.

Lemma deduplicate_flags_spec l :
  _deduplicate_flags l =
  first_occurrences (category <$> l) ≫= λ c, accepted ∅ (in_category c l).
Proof.
  destruct l as [|f l]; [done|]. unfold _deduplicate_flags.
  rewrite by_category_spec, foldl_dedup_category, app_nil_l.
  generalize (first_occurrences (category <$> f :: l)). intros cs.
  induction cs as [|c cs IH]; [done|].
  rewrite fmap_cons, !bind_cons. cbn [snd]. f_equal. apply IH.
Qed.

End dedup_structure.

(** ** The flags accepted in a category group *)

Section accepted_facts.
Implicit Types (l fs ded : list RedFlag) (seen : gset string).
Implicit Types (c : FlagCategory) (cs : list FlagCategory).

Lemma similar_to_some_empty f : ¬ similar_to_some f ∅.
Proof. intros (k & Hk & _). set_solver. Qed.

Lemma similar_to_some_mono f seen seen' :
  seen ⊆ seen' → similar_to_some f seen → similar_to_some f seen'.
Proof. intros Hsub (k & Hk & Hs). exists k. split; [set_solver|done]. Qed.

Lemma similar_to_some_keys f l :
  similar_to_some f (keys l) ↔
  Exists (λ g, _are_similar (_get_flag_key f) (_get_flag_key g) = true) l.
Proof.
  unfold similar_to_some, set_Exists, keys. rewrite Exists_exists. split.
  - intros (k & Hk & Hs). rewrite elem_of_list_to_set, list_elem_of_fmap in Hk.
    destruct Hk as (g & -> & Hg). by exists g.
  - intros (g & Hg & Hs). exists (_get_flag_key g). split; [|done].
    rewrite elem_of_list_to_set, list_elem_of_fmap. by exists g.
Qed.

Lemma accepted_cons_fresh seen f fs :
  ¬ similar_to_some f seen →
  accepted seen (f :: fs) = f :: accepted (seen ∪ {[_get_flag_key f]}) fs.
Proof. intros. simpl. by rewrite decide_False. Qed.

Lemma accepted_cons_duplicate seen f fs :
  similar_to_some f seen → accepted seen (f :: fs) = accepted seen fs.
Proof. intros. simpl. by rewrite decide_True. Qed.

Lemma accepted_sublist seen fs : accepted seen fs `sublist_of` fs.
Proof.
  revert seen. induction fs as [|f fs IH]; intros seen; simpl; [done|].
  case_decide; [apply sublist_cons|apply sublist_skip]; apply IH.
Qed.

Lemma accepted_app seen l1 l2 :
  accepted seen (l1 ++ l2) =
  accepted seen l1 ++ accepted (seen ∪ keys (accepted seen l1)) l2.
Proof.
  revert seen. induction l1 as [|f l1 IH]; intros seen; simpl.
  - unfold keys. simpl. by rewrite (right_id_L ∅ (∪)).
  - case_decide; [apply IH|]. rewrite IH, keys_cons, (assoc_L (∪)). done.
Qed.

Lemma accepted_idemp seen seen' fs :
  seen' ⊆ seen → accepted seen' (accepted seen fs) = accepted seen fs.
Proof.
  revert seen seen'. induction fs as [|f fs IH]; intros seen seen' Hsub;
    simpl; [done|].
  case_decide as Hd; [by apply IH|].
  rewrite accepted_cons_fresh by eauto using similar_to_some_mono.
  f_equal. apply IH. by apply union_mono_r.
Qed.

Lemma accepted_not_similar seen fs pre f post :
  accepted seen fs = pre ++ f :: post →
  ¬ similar_to_some f (seen ∪ keys pre).
Proof.
  revert seen pre. induction fs as [|g fs IH]; intros seen pre; simpl.
  - by destruct pre.
  - case_decide as Hd; [apply IH|].
    destruct pre as [|p pre]; simpl; intros Heq; simplify_eq.
    + unfold keys. simpl. by rewrite (right_id_L ∅ (∪)).
    + rewrite keys_cons, (assoc_L (∪)). by eapply IH.
Qed.

Lemma in_category_all c l :
  Forall (λ f, category f = c) l → in_category c l = l.
Proof.
  induction 1 as [|f l Hf _ IH]; [done|]. unfold in_category.
  rewrite filter_cons_True by done. f_equal. apply IH.
Qed.

Lemma in_category_none c l :
  Forall (λ f, category f ≠ c) l → in_category c l = [].
Proof.
  induction 1 as [|f l Hf _ IH]; [done|]. unfold in_category.
  rewrite filter_cons_False by done. apply IH.
Qed.

Lemma Forall_in_category c l : Forall (λ f, category f = c) (in_category c l).
Proof. apply Forall_forall. intros f Hf. by apply list_elem_of_filter in Hf as [? _]. Qed.

Lemma Forall_accepted (P : RedFlag → Prop) seen fs :
  Forall P fs → Forall P (accepted seen fs).
Proof.
  rewrite !Forall_forall. intros HP f Hf. apply HP.
  eapply sublist_subseteq; [apply accepted_sublist|done].
Qed.

Lemma accepted_nonempty f fs : accepted ∅ (f :: fs) ≠ [].
Proof. rewrite accepted_cons_fresh by apply similar_to_some_empty. done. Qed.

(** The survivors of one category are the accepted flags of its group. *)
Lemma in_category_bind c cs (g : FlagCategory → list RedFlag) :
  NoDup cs → (∀ c', Forall (λ f, category f = c') (g c')) →
  in_category c (cs ≫= g) = if decide (c ∈ cs) then g c else [].
Proof.
  intros Hcs Hg. induction Hcs as [|c' cs Hc' _ IH]; [done|].
  rewrite bind_cons. unfold in_category in *. rewrite filter_app, IH.
  destruct (decide (c = c')) as [->|Hne].
  - rewrite decide_False by done. rewrite decide_True by (rewrite elem_of_cons; tauto).
    rewrite app_nil_r. by apply in_category_all.
  - fold (in_category c (g c')). rewrite in_category_none.
    + simpl. destruct (decide (c ∈ cs)).
      * rewrite decide_True by (rewrite elem_of_cons; tauto). done.
      * rewrite decide_False; [done|]. rewrite elem_of_cons. tauto.
    + eapply Forall_impl; [apply Hg|]. simpl. congruence.
Qed.

Lemma in_category_deduplicate c l :
  in_category c (_deduplicate_flags l) = accepted ∅ (in_category c l).
Proof.
  rewrite deduplicate_flags_spec, in_category_bind.
  - case_decide as Hc; [done|]. rewrite elem_of_first_occurrences in Hc.
    by rewrite in_category_absent.
  - apply NoDup_first_occurrences.
  - intros c'. apply Forall_accepted, Forall_in_category.
Qed.

End accepted_facts.

(** ** Order of the output, idempotence *)

Section dedup_order.
Implicit Types (l fs ded : list RedFlag) (seen : gset string).
Implicit Types (c : FlagCategory) (cs : list FlagCategory).

Lemma first_occurrences_block {A} `{EqDecision A} (x : A) xs ys :
  xs ≠ [] → Forall (λ y, y = x) xs →
  first_occurrences (xs ++ ys) = x :: filter (λ y, y ≠ x) (first_occurrences ys).
Proof.
  intros Hne Hxs. induction Hxs as [|y xs -> Hxs IH]; [done|]. simpl.
  destruct xs as [|z xs]; [done|]. rewrite IH by done.
  rewrite filter_cons_False by tauto. f_equal.
  rewrite list_filter_filter. apply list_filter_iff. tauto.
Qed.

Lemma filter_ne_absent {A} `{EqDecision A} (x : A) (xs : list A) :
  x ∉ xs → filter (λ y, y ≠ x) xs = xs.
Proof.
  induction xs as [|y xs IH]; [done|]. rewrite not_elem_of_cons. intros [Hne Hxs].
  rewrite filter_cons_True by congruence. f_equal. by apply IH.
Qed.

Lemma first_occurrences_blocks cs (g : FlagCategory → list RedFlag) :
  NoDup cs →
  (∀ c, c ∈ cs → g c ≠ [] ∧ Forall (λ f, category f = c) (g c)) →
  first_occurrences (category <$> (cs ≫= g)) = cs.
Proof.
  induction 1 as [|c cs Hc _ IH]; intros Hg; [done|].
  rewrite bind_cons, fmap_app.
  destruct (Hg c) as [Hne Hall]; [rewrite elem_of_cons; tauto|].
  rewrite (first_occurrences_block c).
  - rewrite IH, filter_ne_absent; [done..|].
    intros c' Hc'. apply Hg. rewrite elem_of_cons. tauto.
  - intros Hnil. by apply fmap_nil_inv in Hnil.
  - by apply Forall_fmap.
Qed.

Lemma in_category_present c l : c ∈ category <$> l → in_category c l ≠ [].
Proof.
  rewrite list_elem_of_fmap. intros (f & -> & Hf) Hnil.
  eapply (filter_nil_not_elem_of _ _ f); [apply Hnil|done..].
Qed.

Lemma accepted_group_nonempty c l :
  c ∈ category <$> l → accepted ∅ (in_category c l) ≠ [].
Proof.
  intros Hc%in_category_present.
  destruct (in_category c l); [done|]. apply accepted_nonempty.
Qed.

Lemma categories_deduplicate l :
  first_occurrences (category <$> _deduplicate_flags l) =
  first_occurrences (category <$> l).
Proof.
  rewrite deduplicate_flags_spec. apply first_occurrences_blocks.
  - apply NoDup_first_occurrences.
  - intros c Hc. rewrite elem_of_first_occurrences in Hc. split.
    + by apply accepted_group_nonempty.
    + apply Forall_accepted, Forall_in_category.
Qed.

Lemma deduplicate_subseteq l : _deduplicate_flags l ⊆ l.
Proof.
  intros f. rewrite deduplicate_flags_spec, list_elem_of_bind.
  intros (c & Hf & _).
  apply (sublist_subseteq _ _ (accepted_sublist _ _)) in Hf.
  by apply list_elem_of_filter in Hf as [_ ?].
Qed.

Lemma deduplicate_single_category c l :
  Forall (λ f, category f = c) l → _deduplicate_flags l = accepted ∅ l.
Proof.
  intros Hl. rewrite <- (in_category_all c (_deduplicate_flags l)).
  - by rewrite in_category_deduplicate, in_category_all.
  - rewrite Forall_forall in *. intros f Hf. by apply Hl, deduplicate_subseteq.
Qed.

Lemma deduplicate_idemp l :
  _deduplicate_flags (_deduplicate_flags l) = _deduplicate_flags l.
Proof.
  rewrite (deduplicate_flags_spec (_deduplicate_flags l)).
  rewrite categories_deduplicate.
  etrans; [|symmetry; apply deduplicate_flags_spec].
  apply list_bind_ext; [|done]. intros c.
  rewrite in_category_deduplicate. by apply accepted_idemp.
Qed.

End dedup_order.

(** ** The deduplication: arrival order, categories, grouping *)

Section dedup_claims.
Implicit Types (l fs : list RedFlag) (seen : gset string) (c : FlagCategory).

Lemma same_text_key f g : same_text f g → _get_flag_key f = _get_flag_key g.
Proof. intros (_ & Ht & Hd & _). unfold _get_flag_key. by rewrite Ht, Hd. Qed.

Lemma Forall2_in_category c l l' :
  Forall2 same_text l l' →
  Forall2 same_text (in_category c l) (in_category c l').
Proof.
  induction 1 as [|f g l l' Hfg _ IH]; [constructor|]. unfold in_category in *.
  rewrite !filter_cons. destruct Hfg as (Hc & Hrest). rewrite <- Hc.
  case_decide; [constructor; [by split|done]|done].
Qed.

Lemma Forall2_accepted seen l l' :
  Forall2 same_text l l' →
  Forall2 same_text (accepted seen l) (accepted seen l').
Proof.
  intros Hl. revert seen. induction Hl as [|f g l l' Hfg _ IH]; intros seen;
    [constructor|]. simpl. unfold similar_to_some.
  rewrite <- (same_text_key f g) by done.
  case_decide; [apply IH|]. constructor; [done|apply IH].
Qed.

Lemma Forall2_deduplicate l l' :
  Forall2 same_text l l' →
  Forall2 same_text (_deduplicate_flags l) (_deduplicate_flags l').
Proof.
  intros Hl. rewrite !deduplicate_flags_spec.
  assert (category <$> l = category <$> l') as <-.
  { induction Hl as [|f g l l' (Hc & _) _ IH]; [done|]. by rewrite !fmap_cons, Hc, IH. }
  apply Forall2_bind, Forall_Forall2_diag, Forall_forall. intros c _.
  by apply Forall2_accepted, Forall2_in_category.
Qed.

(** C1. In the deduplication step of the aggregator, what happens to a flag
    [f] of the combined input depends on arrival order alone.  With [pre]
    the flags that arrive before [f]: the survivors of [f]'s category among
    [pre] stay, and [f] joins them exactly when its key is similar to none
    of theirs (so the first flag of a group always survives, and a later
    flag similar to an accepted one is dropped); the flags after [f] only
    add survivors behind it; and changing severities and scores in the
    input changes nothing but the severities and scores of the output. *)
Theorem dedup_first_arrival_wins (rule_flags llm_flags pre post : list RedFlag)
    (f : RedFlag) :
  rule_flags ++ llm_flags = pre ++ f :: post →
  let group := in_category (category f) in
  let earlier := group (_deduplicate_flags pre) in
  group (_deduplicate_flags (pre ++ [f])) =
    earlier ++
    (if decide (Exists (λ g, _are_similar (_get_flag_key f) (_get_flag_key g)
                             = true) earlier)
     then [] else [f])
  ∧ (∃ later,
        group (_deduplicate_flags (rule_flags ++ llm_flags)) =
          group (_deduplicate_flags (pre ++ [f])) ++ later
        ∧ later `sublist_of` post)
  ∧ (∀ l', Forall2 same_text (rule_flags ++ llm_flags) l' →
           Forall2 same_text (_deduplicate_flags (rule_flags ++ llm_flags))
                             (_deduplicate_flags l')).
Proof.
  intros Hl group earlier. subst group earlier.
  rewrite Hl, !in_category_deduplicate.
  split; [|split].
  - rewrite in_category_snoc, decide_True, accepted_app by done.
    f_equal. rewrite (left_id_L ∅ (∪)). simpl.
    destruct (decide (similar_to_some f _)) as [Hs|Hs];
      rewrite similar_to_some_keys in Hs.
    + by rewrite decide_True.
    + by rewrite decide_False.
  - rewrite (cons_middle f pre post), (assoc_L (++)).
    unfold in_category at 1. rewrite filter_app.
    fold (in_category (category f) (pre ++ [f])).
    fold (in_category (category f) post).
    rewrite accepted_app.
    exists (accepted (∅ ∪ keys (accepted ∅ (in_category (category f) (pre ++ [f]))))
                     (in_category (category f) post)).
    split; [done|].
    etrans; [apply accepted_sublist|]. apply sublist_filter.
  - intros l' Hl'. rewrite <- Hl in Hl' |- *. by apply Forall2_deduplicate.
Qed.

Lemma dedup_first_arrival_wins_witness :
  in_category FINANCIAL
    (_deduplicate_flags ([sample_rule; sample_legal] ++ [sample_external]))
  = [sample_rule]
  ∧ in_category FINANCIAL
      (_deduplicate_flags ([sample_legal] ++ [sample_external]))
    = [sample_external].
Proof.
  split.
  - destruct (dedup_first_arrival_wins [sample_rule; sample_legal]
                [sample_external; sample_other] [sample_rule; sample_legal]
                [sample_other] sample_external eq_refl) as [H _].
    etrans; [exact H|]. vm_compute. reflexivity.
  - destruct (dedup_first_arrival_wins [sample_legal]
                [sample_external; sample_other] [sample_legal]
                [sample_other] sample_external eq_refl) as [H _].
    etrans; [exact H|]. vm_compute. reflexivity.
Defined.

(** C5. Flags of different categories are never deduplicated against each
    other: the survivors of a category are those of the input restricted
    to that category, whatever flags of other categories arrive with them;
    and two flags of different categories both survive, however similar
    (or identical) their titles and descriptions are. *)
Theorem dedup_never_across_categories (rule_flags llm_flags : list RedFlag) :
  (∀ c, in_category c (_deduplicate_flags (rule_flags ++ llm_flags)) =
        _deduplicate_flags (in_category c (rule_flags ++ llm_flags)))
  ∧ (∀ a b, category a ≠ category b →
            _deduplicate_flags ([a] ++ [b]) = [a; b]
            ∧ in_category (category a)
                (_deduplicate_flags (rule_flags ++ llm_flags)) =
              in_category (category a)
                (_deduplicate_flags
                   (filter (λ f, category f ≠ category b)
                           (rule_flags ++ llm_flags)))).
Proof.
  split.
  - intros c. rewrite in_category_deduplicate.
    symmetry. apply (deduplicate_single_category c), Forall_in_category.
  - intros a b Hab. split.
    + rewrite deduplicate_flags_spec. simpl.
      rewrite filter_cons_True, filter_nil by congruence. simpl.
      unfold in_category. rewrite !filter_cons, !filter_nil.
      rewrite decide_True, (decide_False (P := category b = category a)),
        (decide_False (P := category a = category b)), decide_True by congruence.
      simpl. rewrite !decide_False by apply similar_to_some_empty. done.
    + rewrite !in_category_deduplicate. f_equal.
      unfold in_category. rewrite list_filter_filter.
      apply list_filter_iff. intros f. split; [|tauto]. intros Hf. split; congruence.
Qed.

Lemma dedup_never_across_categories_witness :
  _deduplicate_flags ([sample_rule] ++ [sample_legal])
  = [sample_rule; sample_legal]
  ∧ _get_flag_key sample_rule = _get_flag_key sample_legal.
Proof.
  split; [|reflexivity].
  refine (proj1 (proj2 (dedup_never_across_categories [] [])
                   sample_rule sample_legal _)).
  discriminate.
Defined.

(** C6. The deduplication step is idempotent: applied to its own output it
    returns that output, the same flags in the same order. *)
Theorem dedup_idempotent (flags : list RedFlag) :
  _deduplicate_flags (_deduplicate_flags flags) = _deduplicate_flags flags.
Proof. apply deduplicate_idemp. Qed.

Lemma grouped_contiguous cs (g : FlagCategory → list RedFlag) out1 a out2 b out3 :
  NoDup cs → (∀ c, Forall (λ f, category f = c) (g c)) →
  cs ≫= g = out1 ++ a :: out2 ++ b :: out3 →
  category a = category b →
  Forall (λ x, category x = category a) out2.
Proof.
  intros Hcs Hg. revert out1.
  induction Hcs as [|c cs Hc _ IH]; intros out1 Heq Hab.
  { by destruct out1. }
  rewrite bind_cons in Heq.
  apply app_eq_inv in Heq as [(k & Hgc & Hk)|(k & -> & Hk)]; [|by eapply IH].
  destruct k as [|a' k].
  { apply (IH []); [by symmetry|done]. }
  injection Hk as <- Hk.
  pose proof (Hg c) as Hall. rewrite Hgc in Hall.
  apply Forall_app in Hall as [_ Hall]. apply Forall_cons in Hall as [Ha Hall].
  apply app_eq_inv in Hk as [(k' & -> & Hrest)|(k' & -> & _)].
  - destruct Hc. assert (b ∈ cs ≫= g) as Hb.
    { rewrite Hrest, elem_of_app, elem_of_cons. tauto. }
    apply list_elem_of_bind in Hb as (c' & Hb & Hc').
    pose proof (Hg c') as Hall'. rewrite Forall_forall in Hall'.
    apply Hall' in Hb. congruence.
  - apply Forall_app in Hall as [Hall _]. by rewrite Ha.
Qed.

(** C10. The list that the deduplication step hands to the sort is grouped
    by category: it is the concatenation, over the categories in order of
    their first occurrence in the combined input, of the survivors of each
    category; so flags of one category are contiguous, the categories
    appear in their order of first occurrence, and inside a category the
    survivors keep their arrival order.  This grouped order, not the
    arrival order of the combined input, is what the stable sort keeps for
    ties: a flag can end up before one that arrived earlier and has the
    same sort key. *)
Theorem dedup_output_grouped_by_category (rule_flags llm_flags : list RedFlag) :
  let all_flags := rule_flags ++ llm_flags in
  let out := _deduplicate_flags all_flags in
  out = first_occurrences (category <$> all_flags) ≫= (λ c, in_category c out)
  ∧ (∀ out1 a out2 b out3,
       out = out1 ++ a :: out2 ++ b :: out3 → category a = category b →
       Forall (λ x, category x = category a) out2)
  ∧ first_occurrences (category <$> out) =
    first_occurrences (category <$> all_flags)
  ∧ (∀ c, in_category c out `sublist_of` in_category c all_flags)
  ∧ (_deduplicate_flags ([sample_rule; sample_legal] ++ [sample_other])
       = [sample_rule; sample_other; sample_legal]
     ∧ sort_flags
         (_deduplicate_flags ([sample_rule; sample_legal] ++ [sample_other]))
       = [sample_rule; sample_other; sample_legal]).
Proof.
  intros all_flags out.
  assert (out = first_occurrences (category <$> all_flags)
                ≫= (λ c, in_category c out)) as Hblocks.
  { unfold out at 1. rewrite deduplicate_flags_spec.
    apply list_bind_ext; [|done]. intros c. unfold out.
    by rewrite in_category_deduplicate. }
  split; [done|]. split; [|split; [|split]].
  - intros out1 a out2 b out3 Hout. rewrite Hblocks in Hout.
    eapply grouped_contiguous; [apply NoDup_first_occurrences| |done].
    intros c. apply Forall_in_category.
  - apply categories_deduplicate.
  - intros c. unfold out. rewrite in_category_deduplicate.
    apply accepted_sublist.
  - split; vm_compute; reflexivity.
Qed.

Lemma dedup_output_grouped_by_category_witness :
  Forall (λ x, category x = category sample_rule) []
  ∧ first_occurrences
      (category <$>
         _deduplicate_flags ([sample_rule; sample_legal] ++ [sample_other]))
    = [FINANCIAL; LEGAL].
Proof.
  destruct (dedup_output_grouped_by_category [sample_rule; sample_legal]
              [sample_other]) as (_ & Hcontiguous & Hcategories & _).
  split.
  - apply (Hcontiguous [] sample_rule [] sample_other [sample_legal]);
      vm_compute; reflexivity.
  - etrans; [exact Hcategories|]. vm_compute. reflexivity.
Defined.

End dedup_claims.

(** ** Rounding of binary64 *)

Section float_facts.
Import PyFloat.
Local Open Scope Z_scope.

Lemma round_half_even_bounds num den :
  0 < den →
  (2 * round_half_even num den - 1) * den <= 2 * num
  ∧ 2 * num <= (2 * round_half_even num den + 1) * den.
Proof.
  intros Hden. unfold round_half_even. cbv zeta.
  pose proof (Z.div_mod num den ltac:(lia)) as Hdm.
  pose proof (Z.mod_pos_bound num den Hden) as Hr.
  generalize dependent (num mod den). generalize dependent (num / den).
  intros q r -> Hr.
  destruct (Z.ltb_spec (2 * r) den); [lia|].
  destruct (Z.ltb_spec den (2 * r)); [lia|].
  destruct (Z.even q); lia.
Qed.

Lemma round_half_even_ge num den n :
  0 < den → n * den <= num → n <= round_half_even num den.
Proof. intros Hden Hn. pose proof (round_half_even_bounds num den Hden). nia. Qed.

Lemma round_half_even_le num den n :
  0 < den → num <= n * den → round_half_even num den <= n.
Proof. intros Hden Hn. pose proof (round_half_even_bounds num den Hden). nia. Qed.

Lemma round_half_even_below num den n :
  0 < den → 2 * num < (2 * n + 1) * den → round_half_even num den <= n.
Proof. intros Hden Hn. pose proof (round_half_even_bounds num den Hden). nia. Qed.

Lemma round_half_even_above num den n :
  0 < den → (2 * n - 1) * den < 2 * num → n <= round_half_even num den.
Proof. intros Hden Hn. pose proof (round_half_even_bounds num den Hden). nia. Qed.

(** [2^e] as the fraction [2^max e 0 / 2^max (-e) 0]. *)
Lemma pow2_fraction_succ e :
  2 ^ Z.max (- e) 0 * 2 ^ Z.max (e + 1) 0 =
  2 * 2 ^ Z.max (- (e + 1)) 0 * 2 ^ Z.max e 0.
Proof.
  destruct (Z.le_gt_cases 0 e) as [He|He].
  - rewrite (Z.max_r (- e)), (Z.max_l (e + 1)), (Z.max_r (- (e + 1))),
      (Z.max_l e) by lia.
    rewrite Z.pow_add_r by lia. simpl. lia.
  - rewrite (Z.max_l (- e)), (Z.max_r (e + 1)), (Z.max_l (- (e + 1))),
      (Z.max_r e) by lia.
    replace (- e) with (- (e + 1) + 1) at 1 by lia.
    rewrite Z.pow_add_r by lia. simpl. lia.
Qed.

Lemma pow2_fraction_sub la lb :
  0 <= la → 0 <= lb →
  2 ^ la * 2 ^ Z.max (- (la - lb)) 0 = 2 ^ lb * 2 ^ Z.max (la - lb) 0.
Proof.
  intros Hla Hlb. destruct (Z.le_gt_cases lb la) as [He|He].
  - rewrite (Z.max_r (- _)), (Z.max_l (la - lb)) by lia.
    rewrite Z.pow_0_r, Z.mul_1_r, <- Z.pow_add_r by lia. f_equal; lia.
  - rewrite (Z.max_l (- _)), (Z.max_r (la - lb)) by lia.
    rewrite Z.pow_0_r, Z.mul_1_r, <- Z.pow_add_r by lia. f_equal; lia.
Qed.

Lemma pow2_pos e : 0 < 2 ^ Z.max e 0.
Proof. apply Z.pow_pos_nonneg; lia. Qed.

(** [2^binade <= a / b < 2^(binade + 1)] *)
Lemma binade_spec a b :
  0 < a → 0 < b →
  let e := binade a b in
  b * 2 ^ Z.max e 0 <= a * 2 ^ Z.max (- e) 0
  ∧ a * 2 ^ Z.max (- e) 0 < 2 * b * 2 ^ Z.max e 0.
Proof.
  intros Ha Hb. unfold binade. cbv zeta.
  pose proof (Z.log2_spec a Ha) as [Hla1 Hla2].
  pose proof (Z.log2_spec b Hb) as [Hlb1 Hlb2].
  pose proof (Z.log2_nonneg a) as Hla. pose proof (Z.log2_nonneg b) as Hlb.
  rewrite Z.pow_succ_r in Hla2, Hlb2 by done.
  pose proof (pow2_fraction_sub _ _ Hla Hlb) as Hk.
  set (k := Z.log2 a - Z.log2 b) in *.
  pose proof (pow2_fraction_succ (k - 1)) as Hk1.
  replace (k - 1 + 1) with k in Hk1 by lia.
  pose proof (pow2_pos k) as Hd0. pose proof (pow2_pos (- k)) as Hn0.
  pose proof (pow2_pos (k - 1)) as Hd1.
  pose proof (pow2_pos (- (k - 1))) as Hn1.
  assert (0 < 2 ^ Z.log2 a) as Hpa by (apply Z.pow_pos_nonneg; lia).
  assert (0 < 2 ^ Z.log2 b) as Hpb by (apply Z.pow_pos_nonneg; lia).
  set (pa := 2 ^ Z.log2 a) in *. set (pb := 2 ^ Z.log2 b) in *.
  set (d0 := 2 ^ Z.max k 0) in *. set (n0 := 2 ^ Z.max (- k) 0) in *.
  set (d1 := 2 ^ Z.max (k - 1) 0) in *.
  set (n1 := 2 ^ Z.max (- (k - 1)) 0) in *.
  destruct (Z.leb_spec (b * d0) (a * n0)) as [Ht|Ht].
  - fold d0 n0. split; [done|]. clearbody pa pb d0 n0 d1 n1. nia.
  - fold d1 n1. clearbody pa pb d0 n0 d1 n1.
    assert (pa * n1 = 2 * pb * d1) as Heq.
    { apply (Z.mul_cancel_r _ _ d0); [lia|]. nia. }
    split; [nia|].
    apply (Z.mul_lt_mono_pos_r d0); [done|]. nia.
Qed.

Lemma pow2_shift52 e :
  e < 52 → 2 ^ (52 - e) * 2 ^ Z.max e 0 = 2 ^ 52 * 2 ^ Z.max (- e) 0.
Proof.
  intros He. destruct (Z.le_gt_cases 0 e).
  - rewrite (Z.max_l e), (Z.max_r (- e)) by lia.
    rewrite Z.pow_0_r, Z.mul_1_r, <- Z.pow_add_r by lia. f_equal; lia.
  - rewrite (Z.max_r e), (Z.max_l (- e)) by lia.
    rewrite Z.pow_0_r, Z.mul_1_r, <- Z.pow_add_r by lia. f_equal; lia.
Qed.

(** True division in the normal range, for a quotient below [2^52]: the
    result is [m * 2^(-n)] with [n > 0], the quotient scaled by [2^n] lies
    in [2^52, 2^53) and [m] is an integer nearest to it. *)
Lemma int_true_divide_normal a b :
  a ≠ 0 → 0 < b → Z.abs a < 2 ^ 52 * b → b < 2 ^ 1021 * Z.abs a →
  ∃ m n, 0 < n
    ∧ int_true_divide a b = Some (Float64 (Z.sgn a * m) (- n))
    ∧ 2 ^ 52 * b <= Z.abs a * 2 ^ n ∧ Z.abs a * 2 ^ n < 2 ^ 53 * b
    ∧ (2 * m - 1) * b <= 2 * (Z.abs a * 2 ^ n)
    ∧ 2 * (Z.abs a * 2 ^ n) <= (2 * m + 1) * b.
Proof.
  intros Ha Hb Hhi Hlo. unfold int_true_divide.
  rewrite (proj2 (Z.eqb_neq b 0)), (proj2 (Z.eqb_neq a 0)) by lia. cbv zeta.
  rewrite (Z.abs_eq b), (Z.sgn_pos b) by lia.
  assert (0 < Z.abs a) as Ha' by lia.
  pose proof (binade_spec (Z.abs a) b Ha' Hb) as [HP HP']. cbv zeta in HP, HP'.
  set (e0 := binade (Z.abs a) b) in *.
  assert (e0 < 52) as He52.
  { destruct (Z.lt_ge_cases e0 52) as [|Hge]; [done|exfalso].
    rewrite (Z.max_l e0), (Z.max_r (- e0)), Z.pow_0_r in HP by lia.
    pose proof (Z.pow_le_mono_r 2 52 e0 ltac:(lia) Hge). nia. }
  assert (-1022 <= e0) as He1022.
  { destruct (Z.le_gt_cases (-1022) e0) as [|Hlt]; [done|exfalso].
    rewrite (Z.max_r e0), (Z.max_l (- e0)), Z.pow_0_r in HP' by lia.
    pose proof (Z.pow_le_mono_r 2 1023 (- e0) ltac:(lia) ltac:(lia)) as Hp.
    change (2 ^ 1023) with (4 * 2 ^ 1021) in Hp.
    generalize dependent (2 ^ 1021). intros. nia. }
  rewrite (Z.max_l (e0 - 52)) by lia.
  rewrite (Z.max_l (- (e0 - 52))), (Z.max_r (e0 - 52)) by lia.
  replace (- (e0 - 52)) with (52 - e0) by lia.
  rewrite Z.pow_0_r, !Z.mul_1_r.
  pose proof (pow2_shift52 e0 He52) as Hshift.
  pose proof (pow2_pos e0) as HD. pose proof (pow2_pos (- e0)) as HU.
  assert (0 < 2 ^ (52 - e0)) as HN by (apply Z.pow_pos_nonneg; lia).
  assert (2 ^ 52 * b <= Z.abs a * 2 ^ (52 - e0)
          ∧ Z.abs a * 2 ^ (52 - e0) < 2 ^ 53 * b) as [Hn1 Hn2].
  { change (2 ^ 53) with (2 * 2 ^ 52). clear Hhi Hlo.
    generalize dependent (2 ^ (52 - e0)). generalize dependent (2 ^ 52).
    generalize dependent (2 ^ Z.max e0 0).
    generalize dependent (2 ^ Z.max (- e0) 0). intros U HU D HP HP' HD p52 N HNs HN.
    split.
    - apply (Z.mul_le_mono_pos_r _ _ D); [done|]. nia.
    - apply (Z.mul_lt_mono_pos_r D); [done|]. nia. }
  pose proof (round_half_even_bounds (Z.abs a * 2 ^ (52 - e0)) b Hb) as [Hm1 Hm2].
  pose proof (round_half_even_le (Z.abs a * 2 ^ (52 - e0)) b (2 ^ 53) Hb
                ltac:(lia)) as Hm53.
  set (m := round_half_even (Z.abs a * 2 ^ (52 - e0)) b) in *.
  exists m, (52 - e0).
  rewrite (proj2 (Z.leb_gt (2 ^ 1024) m)).
  - replace (- (52 - e0)) with (e0 - 52) by lia.
    repeat split; try done; lia.
  - eapply Z.le_lt_trans; [apply Hm53|]. done.
Qed.

(** A quotient of at most one never overflows. *)
Lemma int_true_divide_le_1 a b :
  0 <= a <= b → 0 < b → is_Some (int_true_divide a b).
Proof.
  intros Hab Hb. unfold int_true_divide.
  rewrite (proj2 (Z.eqb_neq b 0)) by lia.
  destruct (Z.eqb_spec a 0) as [|Ha]; [done|]. cbv zeta.
  rewrite (Z.abs_eq a), (Z.abs_eq b) by lia.
  assert (0 < a) as Ha' by lia.
  pose proof (binade_spec a b Ha' Hb) as [HP HP']. cbv zeta in HP, HP'.
  set (e0 := binade a b) in *.
  assert (e0 <= 0) as He0.
  { destruct (Z.le_gt_cases e0 0) as [|Hgt]; [done|exfalso].
    rewrite (Z.max_l e0), (Z.max_r (- e0)), Z.pow_0_r in HP by lia.
    pose proof (Z.pow_le_mono_r 2 1 e0 ltac:(lia) ltac:(lia)) as Hp.
    change (2 ^ 1) with 2 in Hp. nia. }
  set (e := Z.max (e0 - 52) (-1074)).
  rewrite (Z.max_l (- e)), (Z.max_r e), Z.pow_0_r, !Z.mul_1_r by lia.
  rewrite (Z.max_r e0), (Z.max_l (- e0)), Z.pow_0_r, Z.mul_1_r in HP' by lia.
  assert (a * 2 ^ (- e) <= 2 ^ 53 * b) as Hm.
  { pose proof (Z.pow_le_mono_r 2 (- e) (52 - e0) ltac:(lia) ltac:(lia)) as Hp.
    replace (52 - e0) with (52 + - e0) in Hp by lia.
    rewrite Z.pow_add_r in Hp by lia. change (2 ^ 53) with (2 ^ 52 * 2).
    assert (0 < 2 ^ (- e)) by (apply Z.pow_pos_nonneg; lia).
    assert (0 < 2 ^ (- e0)) by (apply Z.pow_pos_nonneg; lia).
    assert (0 < 2 ^ 52) by done.
    set (X := 2 ^ (- e)) in *. set (U := 2 ^ (- e0)) in *.
    set (p52 := 2 ^ 52) in *. clearbody X U p52.
    apply Z.le_trans with (a * (p52 * U)); [nia|].
    rewrite (Z.mul_comm p52 U), Z.mul_assoc. nia. }
  apply (round_half_even_le _ _ _ Hb) in Hm.
  rewrite (proj2 (Z.leb_gt (2 ^ 1024) _)); [done|].
  eapply Z.le_lt_trans; [apply Hm|done].
Qed.

(** The comparison [a / b >= 0.7] of binary64 agrees with the exact one
    whenever the quotient is at least 7/10, and for every denominator below
    [2^53 / 9] (about [10^15]). *)
Lemma true_divide_ge_0_7 a b :
  0 <= a <= b → 0 < b → 7 * b <= 10 * a ∨ 9 * b < 2 ^ 53 →
  match int_true_divide a b with
  | Some s => float_le lit_0_7 s
  | None => false
  end = (7 * b <=? 10 * a).
Proof.
  intros Hab Hb Hsmall. destruct (Z.eq_dec a 0) as [->|Ha].
  { unfold int_true_divide. rewrite (proj2 (Z.eqb_neq b 0)) by lia. simpl.
    symmetry. apply Z.leb_gt. lia. }
  destruct (int_true_divide_normal a b) as (m & n & Hn & -> & Hn1 & Hn2 & Hm1 & Hm2);
    [done|done|lia| |].
  { destruct Hsmall as [Hge|Hsmall].
    - change (2 ^ 1021) with (2 * 2 ^ 1020).
      assert (1 <= 2 ^ 1020) by done. set (p := 2 ^ 1020) in *. clearbody p.
      nia.
    - change (2 ^ 1021) with (2 ^ 53 * 2 ^ 968). lia. }
  rewrite (Z.abs_eq a), ?(Z.sgn_pos a) in * by lia. rewrite Z.mul_1_l.
  unfold float_le, lit_0_7. cbn [mant expo].
  assert (52 <= n) as Hn52.
  { destruct (Z.le_gt_cases 52 n) as [|Hlt]; [done|exfalso].
    pose proof (Z.pow_le_mono_r 2 n 51 ltac:(lia) ltac:(lia)) as Hp.
    change (2 ^ 52) with (2 * 2 ^ 51) in Hn1.
    assert (0 < 2 ^ 51) by done.
    set (N := 2 ^ n) in *. set (p51 := 2 ^ 51) in *. clearbody N p51. nia. }
  change (2 ^ 53) with 9007199254740992 in *.
  change (2 ^ 52) with 4503599627370496 in *.
  destruct (Z.eq_dec n 52) as [->|Hn52'].
  { (* the quotient is 1.0 *)
    change (2 ^ 52) with 4503599627370496 in *.
    rewrite (Z.min_l (-53)) by lia. simpl.
    rewrite (proj2 (Z.leb_le _ _)), (proj2 (Z.leb_le _ _)); [done|lia|nia]. }
  destruct (Z.eq_dec n 53) as [->|Hn53].
  { (* the quotients in [1/2, 1) *)
    change (2 ^ 53) with 9007199254740992 in *.
    rewrite Z.min_id, Z.sub_diag. simpl. rewrite !Z.mul_1_r.
    destruct (Z.leb_spec (7 * b) (10 * a)); [apply Z.leb_le; nia|].
    apply Z.leb_gt. destruct Hsmall as [Hge|Hsmall]; [lia|nia]. }
  (* the quotients below 1/2 *)
  rewrite (Z.min_r (-53)), Z.sub_diag by lia. simpl (2 ^ 0). rewrite Z.mul_1_r.
  pose proof (Z.pow_le_mono_r 2 54 n ltac:(lia) ltac:(lia)) as Hp.
  replace (-53 - - n) with (n - 53) by lia.
  pose proof (Z.pow_le_mono_r 2 1 (n - 53) ltac:(lia) ltac:(lia)) as Hq.
  change (2 ^ 54) with 18014398509481984 in Hp. change (2 ^ 1) with 2 in Hq.
  rewrite (proj2 (Z.leb_gt _ _)), (proj2 (Z.leb_gt _ _)); [done|nia|].
  set (N := 2 ^ n) in *. set (Q := 2 ^ (n - 53)) in *. clearbody N Q. nia.
Qed.

End float_facts.

(** ** The similarity test *)

Section similarity.
Import PyFloat.
Implicit Types (l fs : list RedFlag) (seen : gset string) (c : FlagCategory).

Lemma are_similar_empty key1 key2 :
  words key1 = ∅ ∨ words key2 = ∅ → _are_similar key1 key2 = false.
Proof.
  intros Hw. unfold _are_similar. fold (words key1) (words key2).
  destruct Hw as [-> | ->]; [done|]. by rewrite orb_true_r.
Qed.

Lemma overlap_le_union (w1 w2 : gset string) :
  (0 ≤ Z.of_nat (size (w1 ∩ w2)) ≤ Z.of_nat (size (w1 ∪ w2)))%Z.
Proof.
  split; [lia|]. apply Nat2Z.inj_le, subseteq_size.
  intros x. rewrite elem_of_intersection, elem_of_union. tauto.
Qed.

Lemma union_nonempty (w1 w2 : gset string) :
  w1 ≠ ∅ → (0 < Z.of_nat (size (w1 ∪ w2)))%Z.
Proof.
  intros Hw. assert (size (w1 ∪ w2) ≠ 0%nat); [|lia].
  intros Hz%size_empty_inv. apply Hw. apply leibniz_equiv.
  intros x. split; [|intros []%not_elem_of_empty].
  intros Hx. apply Hz. apply elem_of_union. tauto.
Qed.

(** The division of [_are_similar] never raises. *)
Lemma similarity_division_defined key1 key2 :
  words key1 ≠ ∅ →
  is_Some (int_true_divide (Z.of_nat (size (words key1 ∩ words key2)))
                           (Z.of_nat (size (words key1 ∪ words key2)))).
Proof.
  intros Hw. apply int_true_divide_le_1;
    [apply overlap_le_union|by apply union_nonempty].
Qed.

Lemma are_similar_exact key1 key2 :
  jaccard_at_least_0_7 key1 key2
  ∨ (9 * Z.of_nat (size (words key1 ∪ words key2)) < 2 ^ 53)%Z →
  _are_similar key1 key2 = true ↔ jaccard_at_least_0_7 key1 key2.
Proof.
  intros Hsmall. unfold _are_similar, jaccard_at_least_0_7 in *.
  fold (words key1) (words key2).
  destruct (decide (words key1 = ∅)) as [He1|He1].
  { rewrite bool_decide_eq_true_2 by done. simpl. split; [done|tauto]. }
  destruct (decide (words key2 = ∅)) as [He2|He2].
  { rewrite (bool_decide_eq_true_2 (words key2 = ∅)) by done.
    rewrite orb_true_r. split; [done|tauto]. }
  rewrite !bool_decide_eq_false_2 by done. simpl orb. cbv iota zeta.
  pose proof (union_nonempty _ (words key2) He1) as Hu.
  rewrite (proj2 (Z.ltb_lt _ _) Hu).
  unfold similarity_threshold.
  rewrite true_divide_ge_0_7; [|apply overlap_le_union|done|tauto].
  rewrite Z.leb_le. tauto.
Qed.

(** Keys with Jaccard similarity of at least 0.7 are similar for
    [_are_similar], whatever their size. *)
Lemma jaccard_are_similar key1 key2 :
  jaccard_at_least_0_7 key1 key2 → _are_similar key1 key2 = true.
Proof. intros Hj. apply are_similar_exact; [by left|done]. Qed.

Lemma jaccard_sym key1 key2 :
  jaccard_at_least_0_7 key1 key2 → jaccard_at_least_0_7 key2 key1.
Proof.
  unfold jaccard_at_least_0_7.
  rewrite (comm_L (∪) (words key1)), (comm_L (∩) (words key1)). tauto.
Qed.

Lemma few_words_small f g :
  few_words f → few_words g →
  (9 * Z.of_nat (size (words (_get_flag_key f) ∪ words (_get_flag_key g)))
   < 2 ^ 53)%Z.
Proof.
  unfold few_words. intros Hf Hg.
  pose proof (size_union_alt (words (_get_flag_key f)) (words (_get_flag_key g))) as Hu.
  pose proof (subseteq_size (words (_get_flag_key g) ∖ words (_get_flag_key f))
                (words (_get_flag_key g))) as Hd.
  assert (size (words (_get_flag_key g) ∖ words (_get_flag_key f))
          ≤ size (words (_get_flag_key g)))%nat as Hle.
  { apply Hd. intros x. rewrite elem_of_difference. tauto. }
  change (2 ^ 53)%Z with 9007199254740992%Z.
  change (5 * 10 ^ 14)%Z with 500000000000000%Z in *. lia.
Qed.

End similarity.

(** ** The deduplication and the Jaccard threshold *)

Section jaccard_claim.
Implicit Types (l fs : list RedFlag) (seen : gset string) (c : FlagCategory).

Lemma similar_to_some_jaccard b l :
  few_words b → Forall few_words l →
  similar_to_some b (∅ ∪ keys l) →
  ∃ a, a ∈ l ∧ jaccard_at_least_0_7 (_get_flag_key a) (_get_flag_key b).
Proof.
  intros Hb Hl. rewrite (left_id_L ∅ (∪)), similar_to_some_keys, Exists_exists.
  intros (a & Ha & Hs). exists a. split; [done|]. apply jaccard_sym.
  apply are_similar_exact; [|done]. right. apply few_words_small; [done|].
  by eapply Forall_forall in Hl.
Qed.

Lemma jaccard_similar_to_some a b l :
  a ∈ l →
  jaccard_at_least_0_7 (_get_flag_key a) (_get_flag_key b) →
  similar_to_some b (∅ ∪ keys l).
Proof.
  intros Hin Hj. rewrite (left_id_L ∅ (∪)), similar_to_some_keys, Exists_exists.
  exists a. split; [done|]. by apply jaccard_are_similar, jaccard_sym.
Qed.

Lemma Forall_sublist_of {A} (P : A → Prop) (l1 l2 : list A) :
  l1 `sublist_of` l2 → Forall P l2 → Forall P l1.
Proof.
  intros Hsub. rewrite !Forall_forall. intros HP x Hx.
  by eapply HP, sublist_subseteq.
Qed.

(** C7, as the deduplication has it.  The key of a flag is its title in
    lower case, a bar, and the first 100 characters of its description in
    lower case.  Two flags of one category whose keys have Jaccard
    similarity of at least 0.7 never both survive.  On keys of fewer than
    [5 * 10^14] words a flag is dropped exactly when its key has similarity
    of at least 0.7 with the key of a flag of its category that was
    accepted before it, and survives otherwise: so it survives when its
    similarity with every earlier flag of its category is below 0.7, and
    two flags of similarity below 0.7 that are the whole input both
    survive.  A key without words is similar to nothing. *)
Theorem dedup_jaccard_threshold (rule_flags llm_flags : list RedFlag) :
  let out := _deduplicate_flags (rule_flags ++ llm_flags) in
  (∀ f, _get_flag_key f
        = PyStr.lower (title f) +:+ "|"
          +:+ PyStr.lower (PyStr.take 100 (description f)))
  ∧ (∀ out1 a out2 b out3,
       out = out1 ++ a :: out2 ++ b :: out3 → category a = category b →
       ¬ jaccard_at_least_0_7 (_get_flag_key a) (_get_flag_key b))
  ∧ (Forall few_words (rule_flags ++ llm_flags) →
     (∀ pre b post,
        rule_flags ++ llm_flags = pre ++ b :: post →
        let earlier := in_category (category b) (_deduplicate_flags pre) in
        ((∃ a, a ∈ earlier
               ∧ jaccard_at_least_0_7 (_get_flag_key a) (_get_flag_key b))
         ∧ in_category (category b) (_deduplicate_flags (pre ++ [b]))
           = earlier)
        ∨ ((∀ a, a ∈ earlier →
                 ¬ jaccard_at_least_0_7 (_get_flag_key a) (_get_flag_key b))
           ∧ in_category (category b) (_deduplicate_flags (pre ++ [b]))
             = earlier ++ [b]
           ∧ b ∈ out))
     ∧ (∀ pre b post,
        rule_flags ++ llm_flags = pre ++ b :: post →
        (∀ a, a ∈ pre → category a = category b →
              ¬ jaccard_at_least_0_7 (_get_flag_key a) (_get_flag_key b)) →
        in_category (category b) (_deduplicate_flags (pre ++ [b])) =
          in_category (category b) (_deduplicate_flags pre) ++ [b]
        ∧ b ∈ out)
     ∧ (∀ a b,
          rule_flags ++ llm_flags = [a; b] → category a = category b →
          ¬ jaccard_at_least_0_7 (_get_flag_key a) (_get_flag_key b) →
          out = [a; b]))
  ∧ (∀ key1 key2,
       words key1 = ∅ ∨ words key2 = ∅ →
       _are_similar key1 key2 = false ∧ ¬ jaccard_at_least_0_7 key1 key2).
Proof.
  intros out. split; [done|]. split; [|split].
  - intros out1 a out2 b out3 Hout Hab Hj.
    pose proof (in_category_deduplicate (category a) (rule_flags ++ llm_flags))
      as Hacc.
    fold out in Hacc. rewrite Hout in Hacc. unfold in_category at 1 in Hacc.
    rewrite filter_app, filter_cons_True, filter_app, filter_cons_True in Hacc
      by done.
    rewrite app_comm_cons, (assoc_L (++)) in Hacc. symmetry in Hacc.
    apply accepted_not_similar in Hacc. apply Hacc.
    rewrite (left_id_L ∅ (∪)). rewrite <- (left_id_L ∅ (∪) (keys _)).
    apply (jaccard_similar_to_some a); [|done].
    rewrite elem_of_app, elem_of_cons. tauto.
  - intros Hfew.
    assert (∀ pre b post,
      rule_flags ++ llm_flags = pre ++ b :: post →
      let earlier := in_category (category b) (_deduplicate_flags pre) in
      ((∃ a, a ∈ earlier
             ∧ jaccard_at_least_0_7 (_get_flag_key a) (_get_flag_key b))
       ∧ in_category (category b) (_deduplicate_flags (pre ++ [b]))
         = earlier)
      ∨ ((∀ a, a ∈ earlier →
               ¬ jaccard_at_least_0_7 (_get_flag_key a) (_get_flag_key b))
         ∧ in_category (category b) (_deduplicate_flags (pre ++ [b]))
           = earlier ++ [b]
         ∧ b ∈ out)) as Hexact.
    { intros pre b post Hl earlier. subst earlier.
      rewrite !in_category_deduplicate.
      rewrite in_category_snoc, decide_True, accepted_app by done.
      rewrite Hl in Hfew. apply Forall_app in Hfew as [Hfpre Hfb].
      apply Forall_cons in Hfb as [Hfb _].
      assert (Forall few_words (accepted ∅ (in_category (category b) pre)))
        as Hfacc.
      { eapply Forall_sublist_of; [apply accepted_sublist|].
        eapply Forall_sublist_of; [apply sublist_filter|done]. }
      destruct (decide (similar_to_some b
                  (∅ ∪ keys (accepted ∅ (in_category (category b) pre)))))
        as [Hs|Hs].
      - left. split.
        + by apply similar_to_some_jaccard.
        + by rewrite accepted_cons_duplicate, app_nil_r.
      - right. split; [|split].
        + intros a Ha Hj. apply Hs. by apply (jaccard_similar_to_some a).
        + by rewrite accepted_cons_fresh.
        + assert (b ∈ in_category (category b) out) as Hb.
          { unfold out. rewrite Hl, in_category_deduplicate.
            rewrite (cons_middle b pre post), (assoc_L (++)).
            unfold in_category at 1. rewrite filter_app.
            fold (in_category (category b) (pre ++ [b])).
            rewrite accepted_app, in_category_snoc, decide_True, accepted_app
              by done.
            rewrite (accepted_cons_fresh _ b) by done.
            rewrite !elem_of_app, elem_of_cons. tauto. }
          by apply list_elem_of_filter in Hb as [_ ?]. }
    assert (∀ pre b post,
      rule_flags ++ llm_flags = pre ++ b :: post →
      (∀ a, a ∈ pre → category a = category b →
            ¬ jaccard_at_least_0_7 (_get_flag_key a) (_get_flag_key b)) →
      in_category (category b) (_deduplicate_flags (pre ++ [b])) =
        in_category (category b) (_deduplicate_flags pre) ++ [b]
      ∧ b ∈ out) as Hsurvives.
    { intros pre b post Hl Hpre.
      destruct (Hexact pre b post Hl) as [[(a & Ha & Hj) _]|(_ & ? & ?)];
        [exfalso|done].
      apply list_elem_of_filter in Ha as [Hc Ha].
      apply deduplicate_subseteq in Ha. by apply (Hpre a). }
    split; [done|]. split; [done|].
    intros a b Hl Hab Hj. unfold out. rewrite Hl in Hfew |- *.
    apply Forall_cons in Hfew as [Ha [Hb _]%Forall_cons].
    rewrite (deduplicate_single_category (category b))
      by (repeat constructor; done).
    rewrite accepted_cons_fresh by apply similar_to_some_empty. f_equal.
    apply accepted_cons_fresh. intros Hs.
    replace ({[_get_flag_key a]} : gset string) with (keys [a]) in Hs
      by (unfold keys; simpl; by rewrite (right_id_L ∅ (∪))).
    apply similar_to_some_jaccard in Hs as (a' & Ha' & Hj');
      [|done|by repeat constructor].
    apply list_elem_of_singleton in Ha' as ->. done.
  - intros key1 key2 Hw. split; [by apply are_similar_empty|].
    intros (? & ? & _). tauto.
Qed.

(** The claim as the specification states it fails: two flags of one
    category with distinct keys that have no word in common need not both
    survive.  The third flag below is dropped for its similarity with the
    first one. *)
Lemma dissimilar_flag_dropped_for_a_third :
  category sample_other = category sample_external
  ∧ _get_flag_key sample_other
    = "outdated financial audit (2019)|most recent audit mentioned is from 2019."
  ∧ _get_flag_key sample_external
    = "undefined earnout targets|payment terms are incomplete or subject to future agreement."
  ∧ size (words (_get_flag_key sample_other)
          ∩ words (_get_flag_key sample_external)) = 0%nat
  ∧ _are_similar (_get_flag_key sample_other) (_get_flag_key sample_external)
    = false
  ∧ _are_similar (_get_flag_key sample_rule) (_get_flag_key sample_external)
    = true
  ∧ _deduplicate_flags ([sample_rule; sample_other] ++ [sample_external])
    = [sample_rule; sample_other].
Proof. vm_compute. repeat split; reflexivity. Qed.

Lemma dedup_jaccard_threshold_witness :
  Forall few_words ([sample_rule] ++ [sample_other])
  ∧ _deduplicate_flags ([sample_rule] ++ [sample_other])
    = [sample_rule; sample_other]
  ∧ _deduplicate_flags ([sample_rule] ++ [sample_external]) = [sample_rule]
  ∧ jaccard_at_least_0_7 (_get_flag_key sample_rule)
      (_get_flag_key sample_external)
  ∧ Forall few_words ([sample_rule; sample_other] ++ [sample_external])
  ∧ in_category FINANCIAL
      (_deduplicate_flags ([sample_rule; sample_other] ++ [sample_external]))
    = [sample_rule; sample_other].
Proof.
  assert (Forall few_words ([sample_rule] ++ [sample_other])) as Hfew.
  { repeat constructor; vm_compute; reflexivity. }
  assert (Forall few_words ([sample_rule; sample_other] ++ [sample_external]))
    as Hfew3.
  { repeat constructor; vm_compute; reflexivity. }
  assert (jaccard_at_least_0_7 (_get_flag_key sample_rule)
            (_get_flag_key sample_external)) as Hsimilar.
  { apply are_similar_exact; [right|]; vm_compute; reflexivity. }
  split; [exact Hfew|].
  destruct (dedup_jaccard_threshold [sample_rule] [sample_other])
    as (_ & _ & Hlow & _).
  destruct (Hlow Hfew) as (_ & _ & Hboth).
  split; [|split; [|split; [|split]]].
  - apply Hboth; [reflexivity..|].
    intros (_ & _ & Hle). vm_compute in Hle. by apply Hle.
  - vm_compute. reflexivity.
  - exact Hsimilar.
  - exact Hfew3.
  - destruct (dedup_jaccard_threshold [sample_rule; sample_other]
                [sample_external]) as (_ & _ & Hlow3 & _).
    destruct (Hlow3 Hfew3) as (Hexact & _).
    destruct (Hexact [sample_rule; sample_other] sample_external [] eq_refl)
      as [[_ Hdrop]|(Hno & _)].
    + etrans; [exact Hdrop|]. vm_compute. reflexivity.
    + exfalso. apply (Hno sample_rule); [|exact Hsimilar].
      apply list_elem_of_In. vm_compute. left. reflexivity.
Defined.

End jaccard_claim.

(** ** The sort of the report *)

Section sorting.
Implicit Types (l out : list RedFlag) (f g : RedFlag) (k : Z * Z).

Lemma key_lt_spec k1 k2 :
  key_lt k1 k2 = true ↔ (k1.1 < k2.1 ∨ k1.1 = k2.1 ∧ k1.2 < k2.2)%Z.
Proof.
  unfold key_lt.
  rewrite orb_true_iff, andb_true_iff, !Z.ltb_lt, Z.eqb_eq. done.
Qed.

Lemma key_le_spec k1 k2 :
  key_le k1 k2 ↔ (k1.1 < k2.1 ∨ k1.1 = k2.1 ∧ k1.2 ≤ k2.2)%Z.
Proof.
  unfold key_le. rewrite <- not_true_iff_false, key_lt_spec. lia.
Qed.

Lemma key_le_trans k1 k2 k3 : key_le k1 k2 → key_le k2 k3 → key_le k1 k3.
Proof. rewrite !key_le_spec. lia. Qed.

Lemma key_le_antisym k1 k2 : key_le k1 k2 → key_le k2 k1 → k1 = k2.
Proof.
  rewrite !key_le_spec. destruct k1, k2. simpl. intros. f_equal; lia.
Qed.

Lemma key_le_total k1 k2 : key_le k1 k2 ∨ key_le k2 k1.
Proof. rewrite !key_le_spec. lia. Qed.

Lemma sort_insert_perm f l : sort_insert f l ≡ₚ f :: l.
Proof.
  induction l as [|g l IH]; simpl; [done|].
  case_match; [|done]. rewrite IH. apply Permutation_swap.
Qed.

Lemma sort_flags_perm l : sort_flags l ≡ₚ l.
Proof.
  induction l as [|f l IH]; simpl; [done|].
  by rewrite sort_insert_perm, IH.
Qed.

Lemma sort_insert_sorted f l : sorted_by_key l → sorted_by_key (sort_insert f l).
Proof.
  unfold sorted_by_key.
  induction 1 as [|g l Hl IH Hg]; simpl; [repeat constructor|].
  destruct (key_lt (sort_key g) (sort_key f)) eqn:Hlt.
  - constructor; [done|]. rewrite sort_insert_perm. constructor; [|done].
    apply key_le_spec. apply key_lt_spec in Hlt. lia.
  - constructor; [by constructor|]. constructor; [done|].
    eapply Forall_impl; [apply Hg|]. simpl. intros h Hh.
    by eapply key_le_trans.
Qed.

Lemma sort_flags_sorted l : sorted_by_key (sort_flags l).
Proof.
  induction l as [|f l IH]; simpl; [constructor|]. by apply sort_insert_sorted.
Qed.

Lemma sort_insert_stable k f l :
  filter (λ h, sort_key h = k) (sort_insert f l) =
  filter (λ h, sort_key h = k) (f :: l).
Proof.
  induction l as [|g l IH]; cbn [sort_insert]; [done|].
  destruct (key_lt (sort_key g) (sort_key f)) eqn:Hlt; [|done].
  rewrite (filter_cons _ g), IH, !filter_cons.
  destruct (decide (sort_key f = k)) as [Hf|Hf]; [|done].
  destruct (decide (sort_key g = k)) as [Hg|Hg]; [|done].
  rewrite Hf, Hg in Hlt. apply key_lt_spec in Hlt. lia.
Qed.

Lemma sort_flags_stable k l :
  filter (λ h, sort_key h = k) (sort_flags l) = filter (λ h, sort_key h = k) l.
Proof.
  induction l as [|f l IH]; [done|]. cbn [sort_flags foldr].
  rewrite sort_insert_stable, !filter_cons. fold (sort_flags l).
  by rewrite IH.
Qed.

Lemma key_le_refl k : key_le k k.
Proof. apply key_le_spec. lia. Qed.

Lemma sorted_stable_eq out1 out2 :
  sorted_by_key out1 → sorted_by_key out2 →
  (∀ k, filter (λ h, sort_key h = k) out1 = filter (λ h, sort_key h = k) out2) →
  out1 = out2.
Proof.
  unfold sorted_by_key. intros Hs1. revert out2.
  induction Hs1 as [|x t1 Hs1 IH Hx]; intros out2 Hs2 Hfilter.
  - destruct out2 as [|y t2]; [done|]. specialize (Hfilter (sort_key y)).
    by rewrite filter_nil, filter_cons_True in Hfilter.
  - destruct Hs2 as [|y t2 Hs2 Hy].
    { specialize (Hfilter (sort_key x)).
      by rewrite filter_nil, filter_cons_True in Hfilter. }
    assert (key_le (sort_key y) (sort_key x)) as Hyx.
    { pose proof (Hfilter (sort_key x)) as Hk.
      rewrite filter_cons_True in Hk by done.
      assert (x ∈ y :: t2) as Hin.
      { eapply list_elem_of_filter. rewrite <- Hk. apply elem_of_cons. tauto. }
      apply elem_of_cons in Hin as [->|Hin]; [apply key_le_refl|].
      rewrite Forall_forall in Hy. by apply Hy. }
    assert (key_le (sort_key x) (sort_key y)) as Hxy.
    { pose proof (Hfilter (sort_key y)) as Hk.
      rewrite (filter_cons_True _ y) in Hk by done.
      assert (y ∈ x :: t1) as Hin.
      { eapply list_elem_of_filter. rewrite Hk. apply elem_of_cons. tauto. }
      apply elem_of_cons in Hin as [->|Hin]; [apply key_le_refl|].
      rewrite Forall_forall in Hx. by apply Hx. }
    pose proof (key_le_antisym _ _ Hxy Hyx) as Hkey.
    pose proof (Hfilter (sort_key x)) as Hk.
    rewrite !filter_cons_True in Hk by done. injection Hk as <- Hk.
    f_equal. apply IH; [done|]. intros k.
    destruct (decide (sort_key x = k)) as [<-|Hne]; [done|].
    specialize (Hfilter k). by rewrite !filter_cons_False in Hfilter.
Qed.

(** Every sorted and stable rearrangement of a list is the one that
    [sort_flags] returns: the model of [list.sort] does not depend on the
    sorting algorithm. *)
Lemma stable_sort_unique l out :
  sorted_by_key out →
  (∀ k, filter (λ h, sort_key h = k) out = filter (λ h, sort_key h = k) l) →
  out = sort_flags l.
Proof.
  intros Hs Hfilter. apply sorted_stable_eq; [done|apply sort_flags_sorted|].
  intros k. by rewrite sort_flags_stable.
Qed.

Lemma sorted_by_key_precedes out l1 a l2 b l3 :
  sorted_by_key out → out = l1 ++ a :: l2 ++ b :: l3 →
  key_le (sort_key a) (sort_key b).
Proof.
  unfold sorted_by_key. intros Hs ->.
  induction l1 as [|x l1 IH]; simpl in Hs.
  - apply StronglySorted_inv in Hs as [_ Hall].
    apply Forall_app in Hall as [_ Hall]. by apply Forall_cons in Hall as [? _].
  - apply StronglySorted_inv in Hs as [Hs _]. by apply IH.
Qed.

Lemma of_severity_above s f l :
  Forall (λ g, key_le (sort_key f) (sort_key g)) l →
  (severity_order s < severity_order (severity f))%Z →
  of_severity s l = [].
Proof.
  intros Hall Hlt. induction Hall as [|g l Hg _ IH]; [done|].
  unfold of_severity in *. rewrite filter_cons_False; [done|].
  intros <-. apply key_le_spec in Hg. unfold sort_key in Hg. simpl in Hg. lia.
Qed.

(** A list sorted by the key is the list of its critical flags, followed by
    its flags of high, of medium and of low severity. *)
Lemma sorted_by_key_severities l :
  sorted_by_key l →
  l = of_severity CRITICAL l ++ of_severity HIGH l
      ++ of_severity MEDIUM l ++ of_severity LOW l.
Proof.
  unfold sorted_by_key. induction 1 as [|f l _ IH Hall]; [done|].
  pose proof (λ s, of_severity_above s f l Hall) as Hnil.
  unfold of_severity in *.
  destruct (severity f) eqn:Hsev;
    rewrite !filter_cons, Hsev; repeat case_decide; try done;
    rewrite ?(Hnil CRITICAL), ?(Hnil HIGH), ?(Hnil MEDIUM) in IH |- * by done;
    cbn [app] in IH |- *; by rewrite <- IH.
Qed.

(** C2. The flags of the report are the survivors of the deduplication,
    sorted by [(severity_order, -score)], and [severity_order] ranks
    CRITICAL 0, HIGH 1, MEDIUM 2 and LOW 3.  So the report lists its
    critical flags first, then those of high, of medium and of low
    severity: a flag of lower rank comes before every flag of higher rank;
    among flags of equal severity the scores never increase; and flags
    equal in severity and score keep the order they had after the
    deduplication. *)
Theorem report_sorted_by_severity_then_score {datetime : Type} (now : datetime)
    (doc : string) (rule_flags llm_flags : list RedFlag)
    (elapsed : PyFloat.float64) (report : AnalysisResult datetime) :
  aggregate now doc rule_flags llm_flags elapsed = Some report →
  let survivors := _deduplicate_flags (rule_flags ++ llm_flags) in
  flags report ≡ₚ survivors
  ∧ (∀ s, severity_order s = severityRank s)
  ∧ flags report
    = of_severity CRITICAL (flags report) ++ of_severity HIGH (flags report)
      ++ of_severity MEDIUM (flags report) ++ of_severity LOW (flags report)
  ∧ (∀ l1 a l2 b l3,
       flags report = l1 ++ a :: l2 ++ b :: l3 →
       (severityRank (severity a) ≤ severityRank (severity b))%Z
       ∧ (severity a = severity b → (score b ≤ score a)%Z))
  ∧ (∀ l1 b l2 a l3,
       flags report = l1 ++ b :: l2 ++ a :: l3 →
       ¬ (severityRank (severity a) < severityRank (severity b))%Z)
  ∧ (∀ sev sc,
       filter (λ f, severity f = sev ∧ score f = sc) (flags report) =
       filter (λ f, severity f = sev ∧ score f = sc) survivors).
Proof.
  intros Hagg survivors. unfold aggregate in Hagg. fold survivors in Hagg.
  destruct (_calculate_risk_score _) as [risk|]; [|done].
  simpl in Hagg. injection Hagg as <-. cbn [flags].
  pose proof (sort_flags_sorted survivors) as Hsorted.
  assert (∀ s, severity_order s = severityRank s) as Hrank by (by intros []).
  split; [apply sort_flags_perm|]. split; [done|].
  split; [by apply sorted_by_key_severities|]. split; [|split].
  - intros l1 a l2 b l3 Heq.
    pose proof (sorted_by_key_precedes _ _ _ _ _ _ Hsorted Heq) as Hle.
    apply key_le_spec in Hle. unfold sort_key in Hle. cbn [fst snd] in Hle.
    rewrite !(Hrank (severity a)), !(Hrank (severity b)) in Hle. split; [lia|]. intros Hsev. rewrite Hsev in Hle. lia.
  - intros l1 b l2 a l3 Heq.
    pose proof (sorted_by_key_precedes _ _ _ _ _ _ Hsorted Heq) as Hle.
    apply key_le_spec in Hle. unfold sort_key in Hle. cbn [fst snd] in Hle.
    rewrite !(Hrank (severity a)), !(Hrank (severity b)) in Hle. lia.
  - intros sev sc.
    assert (∀ f, severity f = sev ∧ score f = sc ↔
                 sort_key f = (severity_order sev, - sc)%Z) as Hiff.
    { intros f. unfold sort_key. split; [by intros [<- <-]|].
      intros Hkey. injection Hkey as Hsev Hsc.
      split; [by destruct (severity f), sev|lia]. }
    rewrite !(list_filter_iff _ _ _ Hiff). apply sort_flags_stable.
Qed.

Lemma report_sorted_by_severity_then_score_witness :
  ∃ report,
    aggregate 0%Z "contract.pdf"
      [sample_minor; sample_rule; sample_legal; sample_other]
      [sample_retold; sample_pressing; sample_grave] (PyFloat.Float64 5 (-2))
    = Some report
    ∧ _deduplicate_flags
        ([sample_minor; sample_rule; sample_legal; sample_other]
         ++ [sample_retold; sample_pressing; sample_grave])
      = [sample_minor; sample_rule; sample_other; sample_retold;
         sample_legal; sample_pressing; sample_grave]
    ∧ flags report
      = [sample_grave; sample_pressing; sample_rule; sample_other;
         sample_legal; sample_retold; sample_minor]
    ∧ flags report
      = of_severity CRITICAL (flags report) ++ of_severity HIGH (flags report)
        ++ of_severity MEDIUM (flags report) ++ of_severity LOW (flags report).
Proof.
  destruct (aggregate 0%Z "contract.pdf"
              [sample_minor; sample_rule; sample_legal; sample_other]
              [sample_retold; sample_pressing; sample_grave]
              (PyFloat.Float64 5 (-2)))
    as [report|] eqn:Hagg; [|by vm_compute in Hagg].
  exists report. split; [done|]. split; [vm_compute; reflexivity|].
  destruct (report_sorted_by_severity_then_score _ _ _ _ _ _ Hagg)
    as (_ & _ & Hgroups & _).
  split; [|exact Hgroups].
  vm_compute in Hagg. by injection Hagg as <-.
Defined.

End sorting.

(** ** The risk score *)

Section risk_score.
Import PyFloat.
Local Open Scope Z_scope.
Implicit Types (flags : list RedFlag) (f : RedFlag).

Lemma severity_weights_pos s : 0 < severity_weights s.
Proof. by destruct s. Qed.

Lemma total_weight_nonneg flags : 0 <= total_weight flags.
Proof.
  induction flags as [|f flags IH]; simpl; [done|].
  pose proof (severity_weights_pos (severity f)). lia.
Qed.

Lemma total_weight_pos f flags : 0 < total_weight (f :: flags).
Proof.
  simpl. pose proof (severity_weights_pos (severity f)).
  pose proof (total_weight_nonneg flags). lia.
Qed.

Lemma risk_sums_foldl flags ws tw :
  foldl (λ '(weighted_sum, total_weight) flag,
           let weight := severity_weights (severity flag) in
           (weighted_sum + score flag * weight, total_weight + weight))
        (ws, tw) flags
  = (ws + weighted_sum flags, tw + total_weight flags).
Proof.
  revert ws tw. induction flags as [|f flags IH]; intros ws tw; simpl.
  - f_equal; lia.
  - rewrite IH. f_equal; lia.
Qed.

Lemma risk_sums_spec flags :
  risk_sums flags = (weighted_sum flags, total_weight flags).
Proof. unfold risk_sums. by rewrite risk_sums_foldl. Qed.




End risk_score.

(** ** Computations of the rule engine *)

Section engine_facts.
Implicit Types (s : engine) (c : M unit) (fs gs : list RedFlag).

Lemma appended_nil s : appended s [] = s.
Proof.
  destruct s as [objs l]. unfold appended. simpl. f_equal.
  apply alter_id. intros fs _. apply app_nil_r.
Qed.

Lemma appended_app s fs gs : appended (appended s fs) gs = appended s (fs ++ gs).
Proof.
  unfold appended. simpl. f_equal. rewrite alter_alter_eq.
  apply alter_ext. intros l _. simpl. by rewrite (assoc_L (++)).
Qed.

Lemma appends_ret : appends (mret ()) [].
Proof. intros s. unfold mret, M_ret. by rewrite appended_nil. Qed.

Lemma appends_append_flag f : appends (append_flag f) [f].
Proof. done. Qed.

Lemma appends_bind c1 c2 fs gs :
  appends c1 fs → appends c2 gs → appends (c1 ≫= λ _, c2) (fs ++ gs).
Proof.
  intros H1 H2 s. unfold mbind, M_bind. by rewrite H1, H2, appended_app.
Qed.

Lemma appends_for_each {A} (l : list A) (body : A → M unit)
    (g : A → list RedFlag) :
  (∀ x, appends (body x) (g x)) → appends (for_each l body) (l ≫= g).
Proof.
  intros Hbody. induction l as [|x l IH]; cbn [for_each].
  - apply appends_ret.
  - rewrite bind_cons. by apply appends_bind.
Qed.

Lemma appends_findings_of c fs : appends c fs → findings_of c = fs.
Proof.
  intros Hc. unfold findings_of. rewrite Hc. unfold appended. simpl.
  by rewrite lookup_alter_eq, lookup_singleton_eq.
Qed.

Lemma appends_unique c fs : appends c fs → appends c (findings_of c).
Proof. intros Hc. by rewrite (appends_findings_of c fs). Qed.

Lemma appender_ret : appender (mret ()).
Proof. eexists. apply appends_ret. Qed.

Lemma appender_append_flag f : appender (append_flag f).
Proof. eexists. apply appends_append_flag. Qed.

Lemma appender_bind c1 c2 : appender c1 → appender c2 → appender (c1 ≫= λ _, c2).
Proof. intros [fs H1] [gs H2]. eexists. by apply appends_bind. Qed.

Lemma appender_for_each {A} (l : list A) (body : A → M unit) :
  (∀ x, appender (body x)) → appender (for_each l body).
Proof.
  intros Hbody. induction l as [|x l IH]; simpl.
  - apply appender_ret.
  - by apply appender_bind.
Qed.

Lemma appender_appends c : appender c → appends c (findings_of c).
Proof. intros [fs Hc]. by eapply appends_unique. Qed.

End engine_facts.

(** ** [analyze] *)

Section rule_engine_claims.
Context (OFFSHORE_JURISDICTIONS WEASEL_WORDS HIGH_RISK_PHRASES : list string).
Context (re_match : Type) (m_start m_end : re_match → nat).
Context (int_group_1 : re_match → Z) (re_escape : string → string).
Context (re_finditer : string → re_flags → string → list re_match).

Local Abbreviation check_offshore :=
  (_check_offshore_jurisdictions OFFSHORE_JURISDICTIONS re_match m_start m_end
     re_escape re_finditer).
Local Abbreviation check_weasel :=
  (_check_weasel_words WEASEL_WORDS re_match m_start m_end re_escape
     re_finditer).
Local Abbreviation check_high_risk :=
  (_check_high_risk_phrases HIGH_RISK_PHRASES re_match m_start m_end re_escape
     re_finditer).
Local Abbreviation check_dates :=
  (_check_date_anomalies re_match m_start m_end int_group_1 re_finditer).
Local Abbreviation check_payment :=
  (_check_payment_red_flags re_match m_start m_end re_finditer).
Local Abbreviation check_liability :=
  (_check_liability_limitations re_match m_start m_end int_group_1 re_finditer).
Local Abbreviation check_customer :=
  (_check_customer_concentration re_match m_start m_end int_group_1
     re_finditer).
Local Abbreviation run_analyze :=
  (analyze OFFSHORE_JURISDICTIONS WEASEL_WORDS HIGH_RISK_PHRASES re_match
     m_start m_end int_group_1 re_escape re_finditer).

Ltac appender_step :=
  first [ apply appender_ret
        | apply appender_append_flag
        | apply appender_for_each; intros
        | case_match ].

Lemma appender_offshore text : appender (check_offshore text).
Proof. unfold _check_offshore_jurisdictions. repeat appender_step. Qed.

Lemma appender_weasel text : appender (check_weasel text).
Proof. unfold _check_weasel_words. repeat appender_step. Qed.

Lemma appender_high_risk text : appender (check_high_risk text).
Proof. unfold _check_high_risk_phrases. repeat appender_step. Qed.

Lemma appender_missing_loop text indicators :
  appender (missing_schedules_loop text indicators).
Proof. induction indicators; simpl; repeat appender_step; done. Qed.

Lemma appender_missing text : appender (_check_missing_schedules text).
Proof. apply appender_missing_loop. Qed.

Lemma appender_dates text : appender (check_dates text).
Proof. unfold _check_date_anomalies. repeat appender_step. Qed.

Lemma appender_payment text : appender (check_payment text).
Proof. unfold _check_payment_red_flags. repeat appender_step. Qed.

Lemma appender_liability text : appender (check_liability text).
Proof. unfold _check_liability_limitations. repeat appender_step. Qed.

Lemma appender_customer text : appender (check_customer text).
Proof. unfold _check_customer_concentration. repeat appender_step. Qed.

Lemma bind_appends (c : M unit) fs {B} (k : M B) s :
  appends c fs → (c ≫= λ _, k) s = k (appended s fs).
Proof. intros Hc. unfold mbind, M_bind. by rewrite Hc. Qed.

Lemma analyze_run text s :
  let l := fresh (dom (objects s)) in
  run_analyze text s =
  (l, appended {| objects := <[l := []]> (objects s); self_flags := l |}
        (findings_of (check_offshore text) ++
         findings_of (check_weasel text) ++
         findings_of (check_high_risk text) ++
         findings_of (_check_missing_schedules text) ++
         findings_of (check_dates text) ++
         findings_of (check_payment text) ++
         findings_of (check_liability text) ++
         findings_of (check_customer text))).
Proof.
  intros l. unfold analyze. unfold mbind at 1, M_bind at 1.
  unfold reset_flags. fold l.
  rewrite (bind_appends _ _ _ _ (appender_appends _ (appender_offshore text))).
  rewrite (bind_appends _ _ _ _ (appender_appends _ (appender_weasel text))).
  rewrite (bind_appends _ _ _ _ (appender_appends _ (appender_high_risk text))).
  rewrite (bind_appends _ _ _ _ (appender_appends _ (appender_missing text))).
  rewrite (bind_appends _ _ _ _ (appender_appends _ (appender_dates text))).
  rewrite (bind_appends _ _ _ _ (appender_appends _ (appender_payment text))).
  rewrite (bind_appends _ _ _ _ (appender_appends _ (appender_liability text))).
  rewrite (bind_appends _ _ _ _ (appender_appends _ (appender_customer text))).
  rewrite !appended_app. unfold return_flags. simpl. f_equal.
Qed.

Lemma analyze_returned text s :
  returned (run_analyze text s) =
  Some (findings_of (check_offshore text) ++
        findings_of (check_weasel text) ++
        findings_of (check_high_risk text) ++
        findings_of (_check_missing_schedules text) ++
        findings_of (check_dates text) ++
        findings_of (check_payment text) ++
        findings_of (check_liability text) ++
        findings_of (check_customer text)).
Proof.
  rewrite analyze_run. unfold returned, appended.
  cbn [fst snd objects self_flags].
  by rewrite lookup_alter_eq, lookup_insert_eq.
Qed.

Lemma analyze_fresh text s : fst (run_analyze text s) ∉ dom (objects s).
Proof. rewrite analyze_run. apply is_fresh. Qed.

Lemma analyze_frame text s l :
  l ≠ fst (run_analyze text s) →
  objects (snd (run_analyze text s)) !! l = objects s !! l.
Proof.
  rewrite analyze_run. unfold appended. cbn [fst snd objects self_flags].
  intros Hl. by rewrite lookup_alter_ne, lookup_insert_ne.
Qed.

(** C8. The rule engine is deterministic and stateless across calls.  From
    every state of the engine, [analyze] returns a new list object that
    holds the findings of the eight checks on the text, in the order of the
    checks: a list that depends on the text alone.  So two invocations on
    the same text return equal lists, an invocation on another text in
    between changes nothing of a later result, and the list returned
    earlier is not touched by a later invocation. *)
Theorem analyze_deterministic_and_stateless (text : string) :
  let findings :=
    findings_of (check_offshore text) ++
    findings_of (check_weasel text) ++
    findings_of (check_high_risk text) ++
    findings_of (_check_missing_schedules text) ++
    findings_of (check_dates text) ++
    findings_of (check_payment text) ++
    findings_of (check_liability text) ++
    findings_of (check_customer text) in
  ∀ s : engine,
    returned (run_analyze text s) = Some findings
    ∧ (fst (run_analyze text s) ∉ dom (objects s))
    ∧ (∀ l, l ≠ fst (run_analyze text s) →
            objects (snd (run_analyze text s)) !! l = objects s !! l)
    ∧ (∀ s', returned (run_analyze text s') = returned (run_analyze text s))
    ∧ (∀ other,
         let earlier := run_analyze other s in
         let later := run_analyze text (snd earlier) in
         returned later = Some findings
         ∧ objects (snd later) !! fst earlier = returned earlier).
Proof.
  intros findings s.
  split; [apply analyze_returned|]. split; [apply analyze_fresh|].
  split; [apply analyze_frame|]. split.
  - intros s'. by rewrite !analyze_returned.
  - intros other earlier later. subst earlier later.
    split; [apply analyze_returned|].
    apply analyze_frame. intros Heq.
    apply (analyze_fresh text (snd (run_analyze other s))). rewrite <- Heq.
    apply elem_of_dom. change (is_Some (returned (run_analyze other s))).
    by rewrite analyze_returned.
Qed.

End rule_engine_claims.

(** ** The missing-schedule check *)

Section missing_schedules.
Implicit Types (text indicator : string) (indicators : list string).

Lemma startswith_lower_match indicator s :
  PyStr.startswith indicator (PyStr.lower s) = true →
  match_ignorecase indicator s = true.
Proof.
  revert s. induction indicator as [|p indicator IH]; intros [|c s]; simpl;
    try done.
  rewrite !andb_true_iff, !bool_decide_eq_true. intros [-> Hrest]. auto.
Qed.

Lemma backtrack_is_Some k indicator s :
  match_ignorecase indicator s = true → is_Some (backtrack k indicator s).
Proof.
  intros Hm. induction k as [|k IH]; simpl.
  - by rewrite Hm.
  - by case_match.
Qed.

Lemma match_here_is_Some indicator s :
  match_ignorecase indicator s = true → is_Some (match_here indicator s).
Proof.
  intros Hm. unfold match_here.
  by destruct (backtrack_is_Some (dots 100 s) indicator s Hm) as [j ->].
Qed.

Lemma search_context_is_Some indicator text :
  PyStr.contains indicator (PyStr.lower text) = true →
  is_Some (search_context indicator text).
Proof.
  induction text as [|c text IH]; intros Hc.
  - assert (match_ignorecase indicator "" = true) as Hm.
    { apply startswith_lower_match. simpl in *. by rewrite orb_false_r in Hc. }
    simpl. by destruct (match_here_is_Some _ _ Hm) as [m ->].
  - simpl in Hc. apply orb_true_iff in Hc as [Hm|Hc].
    + apply (startswith_lower_match _ (String c text)) in Hm.
      simpl. by destruct (match_here_is_Some _ _ Hm) as [m ->].
    + simpl. case_match; [done|by apply IH].
Qed.

Lemma missing_loop_absent text indicators :
  Forall (absent text) indicators →
  appends (missing_schedules_loop text indicators) [].
Proof.
  induction 1 as [|indicator indicators Habs _ IH]; simpl.
  - apply appends_ret.
  - unfold absent in Habs. by rewrite Habs.
Qed.

Lemma missing_loop_first text pre indicator post :
  Forall (absent text) pre →
  PyStr.contains indicator (PyStr.lower text) = true →
  ∃ context_match,
    search_context indicator text = Some context_match
    ∧ appends (missing_schedules_loop text (pre ++ indicator :: post))
              [missing_schedule_flag indicator context_match].
Proof.
  intros Hpre Hin.
  destruct (search_context_is_Some _ _ Hin) as [context_match Hctx].
  exists context_match. split; [done|].
  induction Hpre as [|i pre Habs _ IH]; simpl.
  - rewrite Hin, Hctx. apply appends_append_flag.
  - unfold absent in Habs. by rewrite Habs.
Qed.

Lemma first_present text indicators :
  Forall (absent text) indicators
  ∨ ∃ pre indicator post,
      indicators = pre ++ indicator :: post ∧ Forall (absent text) pre
      ∧ PyStr.contains indicator (PyStr.lower text) = true.
Proof.
  induction indicators as [|i indicators IH]; [by left|].
  destruct (PyStr.contains i (PyStr.lower text)) eqn:Hi.
  - right. by exists [], i, indicators.
  - destruct IH as [Hall|(pre & indicator & post & -> & Hpre & Hin)].
    + left. by constructor.
    + right. exists (i :: pre), indicator, post. by repeat constructor.
Qed.

(** C9. The missing-schedule check appends at most one finding.  The
    indicators are tried in the order of the configured list: the first
    indicator of the list that occurs in the lower-cased text yields the
    finding, with severity CRITICAL and score 10, and the indicators after
    it are not tried; when none occurs nothing is appended.  The order is
    that of the list and not that of the document: in the sample document
    the finding cites [being finalized] although [to be provided] occurs
    before it. *)
Theorem missing_schedules_first_listed_indicator (text : string) :
  let fs := findings_of (_check_missing_schedules text) in
  appends (_check_missing_schedules text) fs
  ∧ (length fs ≤ 1)%nat
  ∧ (∀ pre indicator post,
       missing_indicators = pre ++ indicator :: post →
       Forall (absent text) pre →
       PyStr.contains indicator (PyStr.lower text) = true →
       ∃ context_match,
         search_context indicator text = Some context_match
         ∧ fs = [missing_schedule_flag indicator context_match])
  ∧ (Forall (absent text) missing_indicators → fs = [])
  ∧ Forall (λ f, severity f = CRITICAL ∧ score f = 10%Z) fs
  ∧ (findings_of (_check_missing_schedules sample_document)
       = [missing_schedule_flag "being finalized"
            "Exhibit B is Being Finalized by counsel and to be determined."]
     ∧ PyStr.contains "to be provided"
         (PyStr.lower (PyStr.take 44 sample_document)) = true
     ∧ absent (PyStr.take 44 sample_document) "being finalized").
Proof.
  intros fs.
  assert (∀ pre indicator post,
       missing_indicators = pre ++ indicator :: post →
       Forall (absent text) pre →
       PyStr.contains indicator (PyStr.lower text) = true →
       ∃ context_match,
         search_context indicator text = Some context_match
         ∧ fs = [missing_schedule_flag indicator context_match]) as Hfirst.
  { intros pre indicator post Heq Hpre Hin.
    destruct (missing_loop_first text pre indicator post Hpre Hin)
      as (context_match & Hctx & Happ).
    exists context_match. split; [done|].
    unfold fs, _check_missing_schedules. rewrite Heq.
    by apply appends_findings_of. }
  assert (Forall (absent text) missing_indicators → fs = []) as Hnone.
  { intros Hall. apply appends_findings_of. by apply missing_loop_absent. }
  split; [apply appender_appends, appender_missing_loop|].
  clearbody fs.
  assert (length fs ≤ 1 ∧ Forall (λ f, severity f = CRITICAL ∧ score f = 10%Z) fs)
    as [Hlen Hsev].
  { destruct (first_present text missing_indicators)
      as [Hall|(pre & indicator & post & Heq & Hpre & Hin)].
    - rewrite (Hnone Hall). split; [simpl; lia|constructor].
    - destruct (Hfirst _ _ _ Heq Hpre Hin) as (context_match & _ & ->).
      split; [done|by repeat constructor]. }
  repeat split; try done; vm_compute; reflexivity.
Qed.

Lemma missing_schedules_first_listed_indicator_witness :
  ∃ context_match,
    search_context "being finalized" sample_document = Some context_match
    ∧ findings_of (_check_missing_schedules sample_document)
      = [missing_schedule_flag "being finalized" context_match].
Proof.
  refine (proj1 (proj2 (proj2
            (missing_schedules_first_listed_indicator sample_document)))
            [] "being finalized" _ eq_refl _ _).
  - constructor.
  - vm_compute. reflexivity.
Defined.

End missing_schedules.

(** ** The response parser *)

Section parser_claims.
Context (int_of_str : string → option Z).
Context (RedFlag_new :
  FlagCategory → SeverityLevel → json → json → json → Z → string → json →
  option RedFlag).
Context (json_loads : string → option json).

Local Abbreviation item_flag := (parse_item int_of_str RedFlag_new).
Local Abbreviation items_flags := (parse_items int_of_str RedFlag_new).

Lemma dict_get_cons_ne k v d key default :
  k ≠ key → dict_get ((k, v) :: d) key default = dict_get d key default.
Proof. intros. simpl. by rewrite decide_False. Qed.

Lemma dict_get_absent d key default :
  dict_has d key = false → dict_get d key default = default.
Proof.
  induction d as [|[k v] d IH]; simpl; [done|].
  rewrite orb_false_iff, bool_decide_eq_false. intros [Hne Hd].
  rewrite decide_False by done. by apply IH.
Qed.

Lemma parse_items_app source items1 items2 :
  items_flags source (items1 ++ items2) =
  items_flags source items1 ++ items_flags source items2.
Proof. unfold parse_items. apply omap_app. Qed.

Lemma parse_items_dropped source item items :
  item_flag source item = None →
  items_flags source (item :: items) = items_flags source items.
Proof. intros Hitem. unfold parse_items. simpl. by rewrite Hitem. Qed.

(** C4, as the parser has it.  An item whose category or severity is
    present with a value outside its enumeration yields no flag: the item
    is dropped, it is not kept with [other] or [MEDIUM].  These defaults
    stand in for a key that is absent.  A dropped item does not end the
    loop: the items before and after it are parsed as if it were not
    there, and every flag returned comes from an item that parsed as a
    whole. *)
Theorem unrecognised_value_drops_the_item (source : string) :
  (∀ d, FlagCategory_of_value (dict_get d "category" (JStr "other")) = None
        ∨ SeverityLevel_of_value (dict_get d "severity" (JStr "MEDIUM")) = None →
        item_flag source (JDict d) = None)
  ∧ (∀ d, dict_has d "category" = false →
          item_flag source (JDict d) =
          item_flag source (JDict (("category", JStr "other") :: d)))
  ∧ (∀ d, dict_has d "severity" = false →
          item_flag source (JDict d) =
          item_flag source (JDict (("severity", JStr "MEDIUM") :: d)))
  ∧ (∀ before item after,
       item_flag source item = None →
       items_flags source (before ++ item :: after) =
       items_flags source before ++ items_flags source after)
  ∧ (∀ items flag,
       flag ∈ items_flags source items →
       ∃ item, item ∈ items ∧ item_flag source item = Some flag)
  ∧ (∀ response_text items,
       json_loads (clean_response response_text) = Some (JList items) →
       _parse_llm_response int_of_str RedFlag_new json_loads response_text
         source = items_flags source items).
Proof.
  split; [|split; [|split; [|split; [|split]]]].
  - intros d [Hc|Hs]; unfold parse_item; simpl.
    + by rewrite Hc.
    + rewrite Hs. by destruct (FlagCategory_of_value _).
  - intros d Hd. unfold parse_item.
    rewrite !(dict_get_cons_ne "category") by done.
    rewrite (dict_get_absent d "category") by done. done.
  - intros d Hd. unfold parse_item.
    rewrite !(dict_get_cons_ne "severity") by done.
    rewrite (dict_get_absent d "severity") by done. done.
  - intros before item after Hitem.
    by rewrite parse_items_app, parse_items_dropped.
  - intros items flag Hflag. unfold parse_items in Hflag.
    apply list_elem_of_omap in Hflag. done.
  - intros response_text items Hloads. unfold _parse_llm_response.
    by rewrite Hloads.
Qed.

End parser_claims.

(** The claim as the specification states it fails: the items with a
    category or a severity outside the enumerations are not kept with
    [other] or [MEDIUM], they are dropped. *)
Lemma unrecognised_values_not_coerced :
  parse_items int_of_decimal RedFlag_plain "claude"
    [item_good; item_unknown_category; item_unknown_severity; item_bare]
  = [ {| category := FINANCIAL; severity := HIGH;
         title := "Earnout undefined";
         description := "Targets are left to future agreement.";
         location := "targets to be mutually agreed"; score := 8;
         source := "claude"; recommendation := Some "Define the targets." |};
      {| category := OTHER; severity := MEDIUM;
         title := "Key person dependency";
         description := "No retention plan is in place.";
         location := ""; score := 5;
         source := "claude"; recommendation := None |} ].
Proof. vm_compute. reflexivity. Qed.

Lemma unrecognised_value_drops_the_item_witness :
  parse_items int_of_decimal RedFlag_plain "claude"
    ([item_good] ++ item_unknown_category :: [item_bare])
  = parse_items int_of_decimal RedFlag_plain "claude" [item_good] ++
    parse_items int_of_decimal RedFlag_plain "claude" [item_bare].
Proof.
  refine (proj1 (proj2 (proj2 (proj2
            (unrecognised_value_drops_the_item int_of_decimal RedFlag_plain
               (λ _, None) "claude"))))
            [item_good] item_unknown_category [item_bare] _).
  reflexivity.
Defined.

(* ===================================================================== *)
(** * Further properties *)
(* ===================================================================== *)

(** ** Strings *)

Section strings.
Implicit Types (a b c s p w : string) (ch : ascii).

Lemma append_nil_l s : EmptyString +:+ s = s.
Proof. reflexivity. Qed.

Lemma append_cons ch a b : String ch a +:+ b = String ch (a +:+ b).
Proof. reflexivity. Qed.

Lemma append_nil_r s : s +:+ EmptyString = s.
Proof. induction s as [|ch s IH]; [done|]. by rewrite append_cons, IH. Qed.

Lemma append_assoc a b c : (a +:+ b) +:+ c = a +:+ b +:+ c.
Proof. induction a as [|ch a IH]; [done|]. by rewrite !append_cons, IH. Qed.

Lemma length_append a b :
  String.length (a +:+ b) = (String.length a + String.length b)%nat.
Proof. induction a as [|ch a IH]; [done|]. rewrite append_cons. simpl. by rewrite IH. Qed.

Lemma append_eq_nil a b : a +:+ b = EmptyString → a = EmptyString ∧ b = EmptyString.
Proof. destruct a; [done|]. rewrite append_cons. discriminate. Qed.

(** ** Slices *)

Lemma take_nil n : PyStr.take n EmptyString = EmptyString.
Proof. by destruct n. Qed.

Lemma drop_nil n : PyStr.drop n EmptyString = EmptyString.
Proof. by destruct n. Qed.

Lemma take_add n m s :
  PyStr.take (n + m) s = PyStr.take n s +:+ PyStr.take m (PyStr.drop n s).
Proof.
  revert s. induction n as [|n IH]; intros s; [done|].
  destruct s as [|ch s]; [cbn; by rewrite take_nil|].
  cbn [Nat.add PyStr.take PyStr.drop]. by rewrite IH, append_cons.
Qed.

Lemma drop_drop n m s : PyStr.drop m (PyStr.drop n s) = PyStr.drop (n + m) s.
Proof.
  revert s. induction n as [|n IH]; intros s; [done|].
  destruct s as [|ch s]; [by rewrite drop_nil|]. apply IH.
Qed.

Lemma length_take n s : (String.length (PyStr.take n s) ≤ n)%nat.
Proof.
  revert s. induction n as [|n IH]; intros [|ch s]; simpl; try lia.
  specialize (IH s). lia.
Qed.

Lemma take_all n s : (String.length s ≤ n)%nat → PyStr.take n s = s.
Proof.
  revert n. induction s as [|ch s IH]; intros n Hn; [apply take_nil|].
  destruct n as [|n]; simpl in Hn; [lia|]. simpl. rewrite IH; [done|lia].
Qed.

Lemma take_app_length a b : PyStr.take (String.length a) (a +:+ b) = a.
Proof. induction a as [|ch a IH]; [done|]. rewrite append_cons. simpl. by rewrite IH. Qed.

Lemma drop_app_length a b : PyStr.drop (String.length a) (a +:+ b) = b.
Proof. induction a as [|ch a IH]; [done|]. rewrite append_cons. simpl. by rewrite IH. Qed.

Lemma slice_app i j k s :
  (i ≤ j ≤ k)%nat →
  PyStr.slice i k s = PyStr.slice i j s +:+ PyStr.slice j k s.
Proof.
  intros Hijk. unfold PyStr.slice.
  replace (k - i)%nat with ((j - i) + (k - j))%nat by lia.
  rewrite take_add, drop_drop. do 3 f_equal. lia.
Qed.

(** ** Containment *)

Lemma startswith_nil s : PyStr.startswith EmptyString s = true.
Proof. by destruct s. Qed.

Lemma startswith_app p s : PyStr.startswith p (p +:+ s) = true.
Proof.
  induction p as [|ch p IH]; [apply startswith_nil|].
  rewrite append_cons. cbn [PyStr.startswith].
  by rewrite bool_decide_eq_true_2, IH.
Qed.

Lemma startswith_inv p s :
  PyStr.startswith p s = true → ∃ b, s = p +:+ b.
Proof.
  revert s. induction p as [|ch p IH]; intros s Hs; [by exists s|].
  destruct s as [|ch' s]; [done|]. cbn [PyStr.startswith] in Hs.
  apply andb_true_iff in Hs as [->%bool_decide_eq_true Hs].
  destruct (IH s Hs) as [b ->]. by exists b.
Qed.

Lemma contains_cons p ch s :
  PyStr.contains p (String ch s)
  = PyStr.startswith p (String ch s) || PyStr.contains p s.
Proof. reflexivity. Qed.

Lemma contains_startswith p s :
  PyStr.startswith p s = true → PyStr.contains p s = true.
Proof.
  intros Hs. destruct s as [|ch s].
  - cbn [PyStr.contains]. by rewrite Hs.
  - by rewrite contains_cons, Hs.
Qed.

Lemma contains_spec p s :
  PyStr.contains p s = true ↔ ∃ a b, s = a +:+ p +:+ b.
Proof.
  split.
  - induction s as [|ch s IH].
    + cbn [PyStr.contains]. rewrite orb_false_r.
      intros [b Hb]%startswith_inv. by exists EmptyString, b.
    + rewrite contains_cons.
      intros [[b Hb]%startswith_inv|Hs]%orb_true_iff.
      * by exists EmptyString, b.
      * destruct (IH Hs) as (a & b & ->). by exists (String ch a), b.
  - intros (a & b & ->). induction a as [|ch a IH].
    + rewrite append_nil_l. apply contains_startswith, startswith_app.
    + rewrite append_cons, contains_cons, IH. apply orb_true_r.
Qed.

(** ** Stripping *)

Lemma lstrip_cons ch s :
  PyStr.lstrip (String ch s)
  = if PyStr.isspace ch then PyStr.lstrip s else String ch s.
Proof. reflexivity. Qed.

Lemma rstrip_cons ch s :
  PyStr.rstrip (String ch s)
  = match PyStr.rstrip s with
    | EmptyString =>
        if PyStr.isspace ch then EmptyString else String ch EmptyString
    | r => String ch r
    end.
Proof. reflexivity. Qed.

Lemma lstrip_decomp s : ∃ w, s = w +:+ PyStr.lstrip s.
Proof.
  induction s as [|ch s [w IH]]; [by exists EmptyString|].
  rewrite lstrip_cons. destruct (PyStr.isspace ch).
  - exists (String ch w). by rewrite append_cons, <- IH.
  - by exists EmptyString.
Qed.

Lemma lstrip_head s ch r :
  PyStr.lstrip s = String ch r → PyStr.isspace ch = false.
Proof.
  induction s as [|ch' s IH]; [done|]. rewrite lstrip_cons.
  destruct (PyStr.isspace ch') eqn:Hsp; [done|]. by intros [= <- _].
Qed.

Lemma lstrip_app_head p ch r :
  PyStr.isspace ch = false →
  ∃ p', PyStr.lstrip (p +:+ String ch r) = p' +:+ String ch r.
Proof.
  intros Hch. induction p as [|ch' p [p' IH]].
  - exists EmptyString. by rewrite !append_nil_l, lstrip_cons, Hch.
  - rewrite append_cons, lstrip_cons. destruct (PyStr.isspace ch').
    + by exists p'.
    + exists (String ch' p). by rewrite append_cons.
Qed.

Lemma rstrip_app_keep s b :
  PyStr.rstrip s ≠ EmptyString →
  ∃ b', PyStr.rstrip (s +:+ b) = PyStr.rstrip s +:+ b'.
Proof.
  induction s as [|ch s IH]; [done|]. rewrite append_cons, !rstrip_cons.
  destruct (PyStr.rstrip s) as [|ch' r] eqn:Hr.
  - destruct (PyStr.isspace ch); [done|]. intros _.
    destruct (PyStr.rstrip (s +:+ b)) as [|ch'' r'].
    + by exists EmptyString.
    + by exists (String ch'' r').
  - intros _. destruct IH as [b' ->]; [done|]. rewrite append_cons.
    by exists b'.
Qed.

Lemma rstrip_app_l p s :
  PyStr.rstrip s ≠ EmptyString →
  PyStr.rstrip (p +:+ s) = p +:+ PyStr.rstrip s.
Proof.
  intros Hs. induction p as [|ch p IH]; [done|].
  rewrite !append_cons, rstrip_cons, IH.
  destruct (p +:+ PyStr.rstrip s) eqn:Hp; [|done].
  by apply append_eq_nil in Hp as [_ ?].
Qed.

Lemma length_lstrip s : (String.length (PyStr.lstrip s) ≤ String.length s)%nat.
Proof.
  induction s as [|ch s IH]; [done|]. rewrite lstrip_cons.
  destruct (PyStr.isspace ch); simpl; lia.
Qed.

Lemma length_rstrip s : (String.length (PyStr.rstrip s) ≤ String.length s)%nat.
Proof.
  induction s as [|ch s IH]; [done|]. rewrite rstrip_cons.
  destruct (PyStr.rstrip s); [destruct (PyStr.isspace ch)|]; simpl in *; lia.
Qed.

Lemma length_strip s : (String.length (PyStr.strip s) ≤ String.length s)%nat.
Proof.
  unfold PyStr.strip. etrans; [apply length_rstrip|apply length_lstrip].
Qed.

(** What is left of a part of a string after stripping is still there
    after stripping the string. *)
Lemma strip_contains a m b :
  PyStr.contains (PyStr.strip m) (PyStr.strip (a +:+ m +:+ b)) = true.
Proof.
  unfold PyStr.strip. destruct (PyStr.lstrip m) as [|ch r] eqn:Hl.
  { apply contains_spec. exists EmptyString. eexists. by rewrite !append_nil_l. }
  destruct (PyStr.rstrip (String ch r)) as [|ch' r'] eqn:Hr.
  { apply contains_spec. exists EmptyString. eexists. by rewrite !append_nil_l. }
  destruct (lstrip_decomp m) as [w Hm]. rewrite Hl in Hm.
  pose proof (lstrip_head _ _ _ Hl) as Hch.
  rewrite Hm, append_assoc, <- (append_assoc a w), append_cons.
  destruct (lstrip_app_head (a +:+ w) ch (r +:+ b) Hch) as [p' ->].
  rewrite <- append_cons.
  destruct (rstrip_app_keep (String ch r) b) as [b' Hb]; [by rewrite Hr|].
  rewrite rstrip_app_l, Hb, Hr; [|by rewrite Hb, Hr].
  apply contains_spec. by exists p', b'.
Qed.

End strings.

(** ** The counters of the report *)

Section counts.
Local Open Scope Z_scope.

Lemma count_by_severity_foldl (flags : list RedFlag) (counts : SeverityLevel → Z) s :
  foldl (λ counts flag,
           <[severity flag := (counts (severity flag) + 1)%Z]> counts)
        counts flags s
  = counts s + count_severity s flags.
Proof.
  revert counts. induction flags as [|f flags IH]; intros counts.
  - unfold count_severity. simpl. lia.
  - cbn [foldl]. rewrite IH. unfold count_severity.
    rewrite filter_cons. destruct (decide (severity f = s)) as [->|Hne].
    + rewrite fn_lookup_insert. cbn [length]. lia.
    + rewrite fn_lookup_insert_ne by done. lia.
Qed.

Lemma count_by_severity_spec flags s :
  _count_by_severity flags s = count_severity s flags.
Proof. unfold _count_by_severity. by rewrite count_by_severity_foldl. Qed.

Lemma count_severity_total flags :
  count_severity CRITICAL flags + count_severity HIGH flags +
  count_severity MEDIUM flags + count_severity LOW flags
  = Z.of_nat (length flags).
Proof.
  unfold count_severity. induction flags as [|f flags IH]; [done|].
  rewrite !filter_cons. cbn [length].
  destruct (severity f); repeat case_decide; try done; cbn [length]; lia.
Qed.

End counts.

(** ** The order of binary64 against the integers *)

Section float_order.
Import PyFloat.
Local Open Scope Z_scope.

Lemma float_le_of_int n q :
  float_le (Float64 n 0) q = true ↔ int_le_float n q.
Proof.
  unfold float_le, int_le_float. cbn [mant expo]. rewrite Z.leb_le.
  destruct (Z.le_gt_cases (expo q) 0).
  - rewrite Z.min_r, (Z.max_l (- expo q)), (Z.max_r (expo q)), Z.sub_diag by lia.
    replace (0 - expo q) with (- expo q) by lia. done.
  - rewrite Z.min_l, (Z.max_r (- expo q)), (Z.max_l (expo q)), Z.sub_diag by lia.
    replace (expo q - 0) with (expo q) by lia. done.
Qed.

Lemma float_le_to_int n q :
  float_le q (Float64 n 0) = true ↔ float_le_int q n.
Proof.
  unfold float_le, float_le_int. cbn [mant expo]. rewrite Z.leb_le.
  destruct (Z.le_gt_cases (expo q) 0).
  - rewrite Z.min_l, (Z.max_l (- expo q)), (Z.max_r (expo q)), Z.sub_diag by lia.
    replace (0 - expo q) with (- expo q) by lia. done.
  - rewrite Z.min_r, (Z.max_r (- expo q)), (Z.max_l (expo q)), Z.sub_diag by lia.
    replace (expo q - 0) with (expo q) by lia. done.
Qed.

(** The division of positive ints, with the names of its parts. *)
Lemma int_true_divide_pos a b :
  0 < a → 0 < b →
  let e := Z.max (binade a b - 52) (-1074) in
  let m := round_half_even (a * 2 ^ Z.max (- e) 0) (b * 2 ^ Z.max e 0) in
  int_true_divide a b =
  if 2 ^ 1024 <=? m * 2 ^ Z.max e 0 then None else Some (Float64 m e).
Proof.
  intros Ha Hb. unfold int_true_divide.
  rewrite (proj2 (Z.eqb_neq b 0)), (proj2 (Z.eqb_neq a 0)) by lia. cbv zeta.
  rewrite (Z.abs_eq a), (Z.abs_eq b), (Z.sgn_pos a), (Z.sgn_pos b) by lia.
  by rewrite !Z.mul_1_l.
Qed.

(** The division of a negative int by a positive one mirrors the division
    of its absolute value. *)
Lemma int_true_divide_neg a b :
  a < 0 → 0 < b →
  int_true_divide a b =
  (λ q, Float64 (- mant q) (expo q)) <$> int_true_divide (- a) b.
Proof.
  intros Ha Hb. unfold int_true_divide.
  rewrite (proj2 (Z.eqb_neq b 0)), (proj2 (Z.eqb_neq a 0)),
    (proj2 (Z.eqb_neq (- a) 0)) by lia. cbv zeta.
  rewrite Z.abs_opp, (Z.sgn_neg a), (Z.sgn_pos (- a)), (Z.sgn_pos b) by lia.
  case_match; [done|]. cbn. f_equal. f_equal. lia.
Qed.

(** The scaled quotient of the division is below [2^53]. *)
Lemma scaled_quotient_lt a b :
  0 < a → 0 < b →
  let e := Z.max (binade a b - 52) (-1074) in
  e <= 0 → a * 2 ^ (- e) < 2 ^ 53 * b.
Proof.
  intros Ha Hb e He.
  pose proof (binade_spec a b Ha Hb) as [_ HP']. cbv zeta in HP'.
  set (k := binade a b) in *.
  assert (- e <= 52 - k) as Hek by lia.
  pose proof (Z.pow_le_mono_r 2 (- e) (52 - k) ltac:(lia) Hek) as Hp.
  assert (0 < 2 ^ (- e)) as HX by (apply Z.pow_pos_nonneg; lia).
  apply Z.le_lt_trans with (a * 2 ^ (52 - k)); [nia|].
  destruct (Z.le_gt_cases 0 k) as [Hk|Hk].
  - rewrite (Z.max_r (- k)), (Z.max_l k), Z.pow_0_r, Z.mul_1_r in HP' by lia.
    assert (2 ^ (52 - k) * 2 ^ k = 2 ^ 52) as Hs.
    { rewrite <- Z.pow_add_r by lia. f_equal. lia. }
    change (2 ^ 53) with (2 * 2 ^ 52). rewrite <- Hs.
    assert (0 < 2 ^ (52 - k)) by (apply Z.pow_pos_nonneg; lia).
    assert (0 < 2 ^ k) by (apply Z.pow_pos_nonneg; lia).
    set (U := 2 ^ (52 - k)) in *. set (V := 2 ^ k) in *. clearbody U V. nia.
  - rewrite (Z.max_l (- k)), (Z.max_r k), Z.pow_0_r, Z.mul_1_r in HP' by lia.
    replace (52 - k) with (52 + - k) by lia. rewrite Z.pow_add_r by lia.
    change (2 ^ 53) with (2 * 2 ^ 52).
    assert (0 < 2 ^ (- k)) by (apply Z.pow_pos_nonneg; lia).
    assert (0 < 2 ^ 52) by done.
    set (U := 2 ^ (- k)) in *. set (V := 2 ^ 52) in *. clearbody U V. nia.
Qed.

(** A quotient of at most [n < 2^53] is rounded to at most [n], and does
    not overflow. *)
Lemma true_divide_pos_le a b n :
  0 < a → 0 < b → a <= n * b → n < 2 ^ 53 →
  ∃ q, int_true_divide a b = Some q ∧ 0 <= mant q ∧ float_le_int q n.
Proof.
  intros Ha Hb Hn Hn53. rewrite int_true_divide_pos by done. cbv zeta.
  pose proof (binade_spec a b Ha Hb) as [HP _]. cbv zeta in HP.
  pose proof (scaled_quotient_lt a b Ha Hb) as Hlt. cbv zeta in Hlt.
  set (k := binade a b) in *. set (e := Z.max (k - 52) (-1074)) in *.
  assert (e <= 0) as He.
  { destruct (Z.le_gt_cases e 0) as [|Hgt]; [done|exfalso].
    assert (53 <= k) as Hk by lia.
    rewrite (Z.max_l k), (Z.max_r (- k)), Z.pow_0_r, Z.mul_1_r in HP by lia.
    pose proof (Z.pow_le_mono_r 2 53 k ltac:(lia) Hk).
    set (K := 2 ^ k) in *. set (p := 2 ^ 53) in *. clearbody K p. nia. }
  specialize (Hlt He).
  rewrite (Z.max_l (- e)), (Z.max_r e), Z.pow_0_r, !Z.mul_1_r by lia.
  assert (0 < 2 ^ (- e)) as HX by (apply Z.pow_pos_nonneg; lia).
  pose proof (round_half_even_le (a * 2 ^ (- e)) b (2 ^ 53) Hb ltac:(lia)) as Hm53.
  pose proof (round_half_even_le (a * 2 ^ (- e)) b (n * 2 ^ (- e)) Hb ltac:(nia))
    as Hmn.
  pose proof (round_half_even_ge (a * 2 ^ (- e)) b 0 Hb ltac:(nia)) as Hm0.
  set (m := round_half_even (a * 2 ^ (- e)) b) in *.
  rewrite (proj2 (Z.leb_gt (2 ^ 1024) m)).
  - eexists. split; [done|]. unfold float_le_int. cbn [mant expo].
    rewrite (Z.max_l (- e)), (Z.max_r e), Z.pow_0_r, !Z.mul_1_r by lia. done.
  - eapply Z.le_lt_trans; [apply Hm53|done].
Qed.

(** A quotient of at least [n < 2^53] is rounded to at least [n]. *)
Lemma true_divide_pos_ge a b n q :
  0 < a → 0 < b → n * b <= a → n < 2 ^ 53 →
  int_true_divide a b = Some q → int_le_float n q.
Proof.
  intros Ha Hb Hn Hn53. rewrite int_true_divide_pos by done. cbv zeta.
  pose proof (binade_spec a b Ha Hb) as [HP _]. cbv zeta in HP.
  set (k := binade a b) in *. set (e := Z.max (k - 52) (-1074)) in *.
  case_match; [done|]. intros [= <-]. unfold int_le_float. cbn [mant expo].
  destruct (Z.le_gt_cases e 0) as [He|He].
  - rewrite (Z.max_l (- e)), (Z.max_r e), Z.pow_0_r, !Z.mul_1_r by lia.
    assert (0 < 2 ^ (- e)) as HX by (apply Z.pow_pos_nonneg; lia).
    apply round_half_even_ge; [done|]. nia.
  - rewrite (Z.max_r (- e)), (Z.max_l e), Z.pow_0_r, !Z.mul_1_r by lia.
    assert (k = e + 52) as Hk by lia.
    rewrite (Z.max_l k), (Z.max_r (- k)), Z.pow_0_r, Z.mul_1_r in HP by lia.
    rewrite Hk, Z.pow_add_r in HP by lia.
    assert (0 < 2 ^ e) as HX by (apply Z.pow_pos_nonneg; lia).
    pose proof (Z.pow_le_mono_r 2 1 e ltac:(lia) ltac:(lia)) as He1.
    change (2 ^ 1) with 2 in He1.
    assert (2 ^ 52 <= round_half_even a (b * 2 ^ e)) as Hm.
    { apply round_half_even_ge; [nia|]. nia. }
    change (2 ^ 53) with (2 * 2 ^ 52) in Hn53.
    set (m := round_half_even a (b * 2 ^ e)) in *.
    set (X := 2 ^ e) in *. set (p := 2 ^ 52) in *.
    assert (0 < p) by done. clearbody m X p. nia.
Qed.

(** A quotient below [n], for [n * b <= 2^52], is rounded to less than
    [n]. *)
Lemma true_divide_pos_lt a b n :
  0 < a → 0 < b → a < n * b → n * b <= 2 ^ 52 →
  ∃ q, int_true_divide a b = Some q ∧ ¬ int_le_float n q.
Proof.
  intros Ha Hb Hn Hnb.
  destruct (true_divide_pos_le a b n) as (q & Hq & _ & _); [done|done|lia| |].
  { change (2 ^ 53) with (2 * 2 ^ 52). nia. }
  exists q. split; [done|]. revert Hq.
  rewrite int_true_divide_pos by done. cbv zeta.
  pose proof (binade_spec a b Ha Hb) as [HP _]. cbv zeta in HP.
  set (k := binade a b) in *. set (e := Z.max (k - 52) (-1074)) in *.
  case_match; [done|]. intros [= <-]. unfold int_le_float. cbn [mant expo].
  assert (0 < n) as Hn0 by nia.
  (* 2^k <= a / b < n <= 2^52 / b *)
  assert (k < 52) as Hk52.
  { destruct (Z.lt_ge_cases k 52) as [|Hge]; [done|exfalso].
    rewrite (Z.max_l k), (Z.max_r (- k)), Z.pow_0_r, Z.mul_1_r in HP by lia.
    pose proof (Z.pow_le_mono_r 2 52 k ltac:(lia) Hge).
    set (K := 2 ^ k) in *. set (p := 2 ^ 52) in *. clearbody K p. nia. }
  assert (e <= 0) as He by lia.
  rewrite (Z.max_l (- e)), (Z.max_r e), Z.pow_0_r, !Z.mul_1_r by lia.
  assert (0 < 2 ^ (- e)) as HX by (apply Z.pow_pos_nonneg; lia).
  (* b <= 2^(-e) *)
  assert (b * n <= 2 ^ (- e) * n ∨ b <= 2 ^ (- e)) as Hgap.
  { right. destruct (Z.le_gt_cases 0 k) as [Hk|Hk].
    - rewrite (Z.max_l k), (Z.max_r (- k)), Z.pow_0_r, Z.mul_1_r in HP by lia.
      pose proof (Z.pow_le_mono_r 2 (52 - k) (- e) ltac:(lia) ltac:(lia)) as Hp.
      assert (2 ^ (52 - k) * 2 ^ k = 2 ^ 52) as Hs.
      { rewrite <- Z.pow_add_r by lia. f_equal. lia. }
      assert (0 < 2 ^ (52 - k)) by (apply Z.pow_pos_nonneg; lia).
      assert (0 < 2 ^ k) by (apply Z.pow_pos_nonneg; lia).
      set (U := 2 ^ (52 - k)) in *. set (V := 2 ^ k) in *.
      set (X := 2 ^ (- e)) in *. set (p := 2 ^ 52) in *.
      clearbody U V X p.
      (* b * V <= a < n * b, b * n <= p = U * V, so b < U *)
      assert (V < n) by nia.
      assert (b * V < U * V) by nia.
      assert (b < U) by nia. lia.
    - pose proof (Z.pow_le_mono_r 2 52 (- e) ltac:(lia) ltac:(lia)) as Hp.
      set (X := 2 ^ (- e)) in *. set (p := 2 ^ 52) in *. clearbody X p. nia. }
  assert (b <= 2 ^ (- e)) as Hb' by (destruct Hgap; [nia|done]).
  assert (round_half_even (a * 2 ^ (- e)) b <= n * 2 ^ (- e) - 1) as Hm.
  { apply round_half_even_le; [done|].
    set (X := 2 ^ (- e)) in *. clearbody X. nia. }
  lia.
Qed.

(** The rounded quotient of positive ints is not negative. *)
Lemma true_divide_pos_nonneg a b q :
  0 < a → 0 < b → int_true_divide a b = Some q → 0 <= mant q.
Proof.
  intros Ha Hb. rewrite int_true_divide_pos by done. cbv zeta.
  case_match; [done|]. intros [= <-]. cbn [mant].
  apply round_half_even_ge.
  - pose proof (pow2_pos (Z.max (binade a b - 52) (-1074))). nia.
  - pose proof (pow2_pos (- Z.max (binade a b - 52) (-1074))). nia.
Qed.

(** True division is monotone against the integers: a quotient between two
    integers of less than 53 bits is rounded to a float between them, and
    the division does not overflow. *)
Lemma true_divide_between a b lo hi :
  0 < b → lo * b <= a <= hi * b → - 2 ^ 53 < lo → hi < 2 ^ 53 →
  ∃ q, int_true_divide a b = Some q ∧ int_le_float lo q ∧ float_le_int q hi.
Proof.
  intros Hb [Hlo Hhi] Hlo53 Hhi53.
  assert (lo <= hi) as Hlh by nia.
  destruct (Z.lt_trichotomy a 0) as [Ha|[->|Ha]].
  - rewrite int_true_divide_neg by done.
    destruct (true_divide_pos_le (- a) b (- lo)) as (q & Hq & Hm & Hle);
      [lia|done|lia|lia|].
    rewrite Hq. eexists. split; [done|].
    unfold int_le_float, float_le_int in *. cbn [mant expo].
    pose proof (pow2_pos (expo q)) as HQ. pose proof (pow2_pos (- expo q)) as HP.
    split; [lia|]. destruct (Z.le_gt_cases 0 hi) as [Hh|Hh]; [nia|].
    pose proof (true_divide_pos_ge (- a) b (- hi) q ltac:(lia) Hb ltac:(lia)
                  ltac:(lia) Hq) as Hge.
    unfold int_le_float in Hge. lia.
  - exists (Float64 0 0). unfold int_true_divide.
    rewrite (proj2 (Z.eqb_neq b 0)) by lia. split; [done|].
    unfold int_le_float, float_le_int. cbn. lia.
  - destruct (true_divide_pos_le a b hi) as (q & Hq & Hm & Hle);
      [done|done|lia|lia|].
    exists q. split; [done|]. split; [|done].
    destruct (Z.le_gt_cases lo 0) as [Hl|Hl].
    + unfold int_le_float.
      pose proof (pow2_pos (expo q)) as HQ.
      pose proof (pow2_pos (- expo q)) as HP. nia.
    + apply (true_divide_pos_ge a b); [done|done|lia| |done]. nia.
Qed.

(** [round(q, 2)] of a float between two integers lies between them. *)
Lemma round2_between q lo hi :
  int_le_float lo q → float_le_int q hi →
  100 * lo <= round2 q <= 100 * hi.
Proof.
  unfold int_le_float, float_le_int, round2. intros Hlo Hhi.
  pose proof (pow2_pos (- expo q)) as HP. split.
  - apply round_half_even_ge; [done|]. lia.
  - apply round_half_even_le; [done|]. lia.
Qed.

(** The comparison of a quotient with an integer [n], for [n * b <= 2^52],
    is the exact one. *)
Lemma true_divide_ge_int a b n q :
  0 < b → 0 < n → n * b <= 2 ^ 52 → int_true_divide a b = Some q →
  float_le (Float64 n 0) q = bool_decide (n * b <= a).
Proof.
  intros Hb Hn Hnb Hq.
  assert (n < 2 ^ 53) as Hn53.
  { change (2 ^ 53) with (2 * 2 ^ 52). nia. }
  destruct (decide (n * b <= a)) as [Hge|Hlt].
  - rewrite bool_decide_eq_true_2 by done. apply float_le_of_int.
    apply (true_divide_pos_ge a b); [nia|done..].
  - rewrite bool_decide_eq_false_2 by done.
    apply not_true_is_false. rewrite float_le_of_int.
    destruct (Z.lt_trichotomy a 0) as [Ha|[->|Ha]].
    + rewrite int_true_divide_neg in Hq by done.
      destruct (int_true_divide (- a) b) as [q'|] eqn:Hq'; [|done].
      injection Hq as <-.
      pose proof (true_divide_pos_nonneg (- a) b q' ltac:(lia) Hb Hq') as Hm.
      unfold int_le_float. cbn [mant expo].
      pose proof (pow2_pos (expo q')) as HQ.
      pose proof (pow2_pos (- expo q')) as HP. nia.
    + unfold int_true_divide in Hq.
      rewrite (proj2 (Z.eqb_neq b 0)) in Hq by lia. injection Hq as <-.
      unfold int_le_float. cbn. lia.
    + destruct (true_divide_pos_lt a b n) as (q' & Hq' & Hnot);
        [done|done|lia|done|].
      rewrite Hq in Hq'. by injection Hq' as <-.
Qed.

End float_order.

(** ** The range of the risk score and the risk level *)

Section risk_bounds.
Import PyFloat.
Local Open Scope Z_scope.

Lemma weighted_sum_between flags lo hi :
  Forall (λ f, lo <= score f <= hi) flags →
  lo * total_weight flags <= weighted_sum flags <= hi * total_weight flags.
Proof.
  induction 1 as [|f flags Hf _ IH]; simpl; [lia|].
  pose proof (severity_weights_pos (severity f)). nia.
Qed.

(** The risk score of a list of flags lies between the least and the
    greatest of their scores, and its division does not overflow. *)
Lemma calculate_risk_score_between (flags : list RedFlag) (lo hi : Z) :
  flags ≠ [] →
  Forall (λ f, lo <= score f <= hi) flags →
  - 2 ^ 53 < lo → hi < 2 ^ 53 →
  ∃ h, _calculate_risk_score flags = Some h ∧ 100 * lo <= h <= 100 * hi.
Proof.
  intros Hne Hall Hlo Hhi. destruct flags as [|f flags]; [done|].
  unfold _calculate_risk_score. rewrite risk_sums_spec.
  pose proof (total_weight_pos f flags) as Hpos.
  rewrite (proj2 (Z.eqb_neq _ 0)) by lia.
  destruct (true_divide_between (weighted_sum (f :: flags))
              (total_weight (f :: flags)) lo hi) as (q & -> & Hq1 & Hq2);
    [done|by apply weighted_sum_between|done|done|].
  eexists. split; [done|]. by apply round2_between.
Qed.

(** X1. The risk level of a score of [h] hundredths, taken as the float
    that [round] returns: EXTREME from 8.00, HIGH from 6.00, MODERATE from
    4.00, LOW from 2.00 and MINIMAL below, each bound included.  The
    comparison of the rounded float with the integer bound is decided by
    [h] exactly. *)
Theorem risk_level_thresholds (h : Z) (score : float64) :
  of_hundredths h = Some score →
  _get_risk_level score =
  if bool_decide (800 <= h) then "EXTREME RISK"
  else if bool_decide (600 <= h) then "HIGH RISK"
  else if bool_decide (400 <= h) then "MODERATE RISK"
  else if bool_decide (200 <= h) then "LOW RISK"
  else "MINIMAL RISK".
Proof.
  unfold of_hundredths, _get_risk_level. intros Hq.
  rewrite !(true_divide_ge_int h 100 _ score) by done.
  done.
Qed.

Lemma risk_level_thresholds_witness :
  (_get_risk_level <$> of_hundredths 800,
   _get_risk_level <$> of_hundredths 799,
   _get_risk_level <$> of_hundredths 0)
  = (Some "EXTREME RISK", Some "HIGH RISK", Some "MINIMAL RISK").
Proof.
  destruct (of_hundredths 800) as [q1|] eqn:H1; [|by vm_compute in H1].
  destruct (of_hundredths 799) as [q2|] eqn:H2; [|by vm_compute in H2].
  destruct (of_hundredths 0) as [q3|] eqn:H3; [|by vm_compute in H3].
  cbn [fmap option_fmap option_map].
  by rewrite (risk_level_thresholds _ _ H1), (risk_level_thresholds _ _ H2),
    (risk_level_thresholds _ _ H3).
Defined.

End risk_bounds.

(** ** The survivors as a part of the input *)

Section dedup_more.
Implicit Types (l fs : list RedFlag) (seen : gset string) (c : FlagCategory).

Lemma bind_in_category_perm (cs : list FlagCategory) l :
  NoDup cs →
  cs ≫= (λ c, in_category c l) ≡ₚ filter (λ f, category f ∈ cs) l.
Proof.
  induction 1 as [|c cs Hc _ IH].
  - simpl. induction l as [|f l IHl]; [done|].
    rewrite filter_cons_False; [done|]. apply not_elem_of_nil.
  - rewrite bind_cons, IH. clear IH. unfold in_category.
    induction l as [|f l IHl]; [done|].
    rewrite !filter_cons.
    destruct (decide (category f = c)) as [Hfc|Hfc].
    + rewrite (decide_False (P := category f ∈ cs)) by (by rewrite Hfc).
      rewrite decide_True by (rewrite elem_of_cons; tauto).
      simpl. by rewrite IHl.
    + destruct (decide (category f ∈ cs)) as [Hin|Hin].
      * rewrite decide_True by (rewrite elem_of_cons; tauto).
        rewrite <- Permutation_middle. by rewrite IHl.
      * rewrite decide_False by (rewrite elem_of_cons; tauto). done.
Qed.

Lemma bind_submseteq {A B} (g h : A → list B) (xs : list A) :
  (∀ x, g x ⊆+ h x) → xs ≫= g ⊆+ xs ≫= h.
Proof.
  intros Hgh. induction xs as [|x xs IH]; [done|].
  rewrite !bind_cons. by apply submseteq_app.
Qed.

(** The survivors are a sub-multiset of the input. *)
Lemma deduplicate_submseteq l : _deduplicate_flags l ⊆+ l.
Proof.
  rewrite deduplicate_flags_spec.
  etrans; [apply (bind_submseteq _ (λ c, in_category c l))|].
  { intros c. apply sublist_submseteq, accepted_sublist. }
  rewrite bind_in_category_perm by apply NoDup_first_occurrences.
  apply sublist_submseteq, sublist_filter.
Qed.

Lemma deduplicate_length l : (length (_deduplicate_flags l) ≤ length l)%nat.
Proof. apply submseteq_length, deduplicate_submseteq. Qed.

Lemma deduplicate_nil_inv l : _deduplicate_flags l = [] → l = [].
Proof.
  destruct l as [|f l]; [done|]. rewrite deduplicate_flags_spec.
  cbn [fmap list_fmap first_occurrences]. rewrite bind_cons.
  unfold in_category. rewrite filter_cons_True by done.
  rewrite accepted_cons_fresh by apply similar_to_some_empty. done.
Qed.

End dedup_more.

(** ** The report *)

Section report.
Import PyFloat.
Local Open Scope Z_scope.

(** X2. The counters of the report agree with its list of flags and with
    the inputs: [total_flags] is the length of [flags]; each severity
    counter is the number of flags of that severity, and the four add up to
    [total_flags]; the metadata hold the two input lengths and their sum
    less [total_flags], which is not negative; and the report has no flag
    exactly when both inputs are empty. *)
Theorem report_counters_consistent {datetime : Type} (now : datetime)
    (doc : string) (rule_flags llm_flags : list RedFlag)
    (elapsed : float64) (report : AnalysisResult datetime) :
  aggregate now doc rule_flags llm_flags elapsed = Some report →
  let n_rule := Z.of_nat (length rule_flags) in
  let n_llm := Z.of_nat (length llm_flags) in
  total_flags report = Z.of_nat (length (flags report))
  ∧ critical_count report = count_severity CRITICAL (flags report)
  ∧ high_count report = count_severity HIGH (flags report)
  ∧ medium_count report = count_severity MEDIUM (flags report)
  ∧ low_count report = count_severity LOW (flags report)
  ∧ critical_count report + high_count report + medium_count report
      + low_count report = total_flags report
  ∧ metadata report =
      [("rule_flags_count", n_rule); ("llm_flags_count", n_llm);
       ("deduplication_removed", n_rule + n_llm - total_flags report)]
  ∧ 0 <= total_flags report <= n_rule + n_llm
  ∧ (total_flags report = 0 ↔ rule_flags = [] ∧ llm_flags = [])
  ∧ document_name report = doc.
Proof.
  intros Hagg n_rule n_llm. unfold aggregate in Hagg.
  destruct (_calculate_risk_score _) as [risk|]; [|done].
  simpl in Hagg. injection Hagg as <-.
  cbn [total_flags critical_count high_count medium_count low_count flags
       metadata document_name].
  rewrite !count_by_severity_spec.
  set (survivors := _deduplicate_flags (rule_flags ++ llm_flags)).
  pose proof (Permutation_length (sort_flags_perm survivors)) as Hlen.
  pose proof (deduplicate_length (rule_flags ++ llm_flags)) as Hle.
  fold survivors in Hle. rewrite length_app in Hle.
  do 5 (split; [done|]).
  split; [apply count_severity_total|].
  split; [by rewrite length_app, Nat2Z.inj_add|].
  split; [subst n_rule n_llm; lia|].
  split; [|done]. split.
  - intros Hz. assert (survivors = []) as Hnil.
    { apply length_zero_iff_nil. lia. }
    apply deduplicate_nil_inv in Hnil. by apply app_eq_nil in Hnil.
  - intros [-> ->]. done.
Qed.

Lemma Forall_deduplicate (P : RedFlag → Prop) l :
  Forall P l → Forall P (sort_flags (_deduplicate_flags l)).
Proof.
  intros Hl. rewrite sort_flags_perm. rewrite Forall_forall in *.
  intros f Hf. by apply Hl, deduplicate_subseteq.
Qed.

(** The report is built, and its risk score lies between the least and
    the greatest score of the inputs. *)
Lemma aggregate_score_between {datetime : Type} (now : datetime)
    (doc : string) (rule_flags llm_flags : list RedFlag)
    (elapsed : float64) (lo hi : Z) :
  rule_flags ++ llm_flags ≠ [] →
  Forall (λ f, lo <= score f <= hi) (rule_flags ++ llm_flags) →
  - 2 ^ 53 < lo → hi < 2 ^ 53 →
  ∃ report,
    aggregate now doc rule_flags llm_flags elapsed = Some report
    ∧ 100 * lo <= overall_risk_score report <= 100 * hi.
Proof.
  intros Hne Hall Hlo Hhi. unfold aggregate.
  destruct (calculate_risk_score_between
              (sort_flags (_deduplicate_flags (rule_flags ++ llm_flags)))
              lo hi) as (h & -> & Hh); [|by apply Forall_deduplicate|done..|].
  { intros Hnil. apply Hne, deduplicate_nil_inv.
    apply Permutation_nil_r. rewrite <- Hnil. by rewrite sort_flags_perm. }
  eexists. split; [done|]. done.
Qed.

(** X3. When every score lies between [lo] and [hi], two integers of less
    than 53 bits, [aggregate] returns a report (the division of the risk
    score does not overflow); its risk score is 0.0 for no flags and lies
    between [lo] and [hi] otherwise: with scores from 0 to 10 the risk
    score is between 0.00 and 10.00. *)
Theorem report_score_between_scores {datetime : Type} (now : datetime)
    (doc : string) (rule_flags llm_flags : list RedFlag)
    (elapsed : float64) (lo hi : Z) :
  Forall (λ f, lo <= score f <= hi) (rule_flags ++ llm_flags) →
  - 2 ^ 53 < lo → hi < 2 ^ 53 →
  ∃ report,
    aggregate now doc rule_flags llm_flags elapsed = Some report
    ∧ (rule_flags ++ llm_flags = [] → overall_risk_score report = 0)
    ∧ (rule_flags ++ llm_flags ≠ [] →
       100 * lo <= overall_risk_score report <= 100 * hi).
Proof.
  intros Hall Hlo Hhi. destruct (rule_flags ++ llm_flags) as [|f l] eqn:Hl.
  - apply app_eq_nil in Hl as [-> ->]. eexists. split; [done|]. done.
  - destruct (aggregate_score_between now doc rule_flags llm_flags elapsed
                lo hi) as (report & Hagg & Hscore);
      [by rewrite Hl|by rewrite Hl|done..|].
    exists report. split; [done|]. split; [done|]. done.
Qed.

Lemma report_score_between_scores_witness :
  ∃ report,
    aggregate 0%Z "contract.pdf" [sample_rule; sample_legal]
      [sample_external; sample_other] (Float64 5 (-2)) = Some report
    ∧ 100 * 8 <= overall_risk_score report <= 100 * 10.
Proof.
  destruct (report_score_between_scores 0%Z "contract.pdf"
              [sample_rule; sample_legal] [sample_external; sample_other]
              (Float64 5 (-2)) 8 10) as (report & Hagg & _ & Hscore);
    [repeat constructor; vm_compute; congruence..|done|done|].
  exists report. split; [done|]. by apply Hscore.
Defined.

Lemma report_counters_consistent_witness :
  ∃ report,
    aggregate 0%Z "contract.pdf" [sample_rule; sample_legal]
      [sample_external; sample_other] (Float64 5 (-2)) = Some report
    ∧ total_flags report = 3
    ∧ metadata report =
      [("rule_flags_count", 2); ("llm_flags_count", 2);
       ("deduplication_removed", 1)].
Proof.
  destruct (aggregate 0%Z "contract.pdf" [sample_rule; sample_legal]
              [sample_external; sample_other] (Float64 5 (-2)))
    as [report|] eqn:Hagg; [|by vm_compute in Hagg].
  exists report. split; [done|].
  destruct (report_counters_consistent _ _ _ _ _ _ Hagg)
    as (Htotal & _ & _ & _ & _ & _ & Hmeta & _).
  assert (total_flags report = 3) as H3.
  { vm_compute in Hagg. by injection Hagg as <-. }
  split; [done|]. rewrite Hmeta, H3. done.
Defined.

End report.

(** ** The keys of flags *)

Section keys_have_words.
Implicit Types (l fs : list RedFlag) (seen : gset string) (c : FlagCategory).

Lemma append_snoc_ne (w : string) ch : w +:+ String ch EmptyString ≠ EmptyString.
Proof. destruct w; [rewrite append_nil_l|rewrite append_cons]; discriminate. Qed.

Lemma split_from_word w s : w ≠ EmptyString → PyStr.split_from w s ≠ [].
Proof.
  revert w. induction s as [|ch s IH]; intros w Hw; cbn [PyStr.split_from].
  - by destruct w.
  - destruct (PyStr.isspace ch).
    + by destruct w.
    + apply IH, append_snoc_ne.
Qed.

Lemma split_from_bar w a b :
  PyStr.split_from w (a +:+ "|" +:+ b) ≠ [].
Proof.
  revert w. induction a as [|ch a IH]; intros w.
  - rewrite append_nil_l, append_cons. cbn [PyStr.split_from].
    change (PyStr.isspace "|") with false. cbv iota.
    apply split_from_word, append_snoc_ne.
  - rewrite append_cons. cbn [PyStr.split_from]. destruct (PyStr.isspace ch).
    + intros [_ Hnil]%app_eq_nil. by eapply IH.
    + apply IH.
Qed.

(** The key of a flag always has a word: the bar between title and
    description belongs to one. *)
Lemma flag_key_words f : words (_get_flag_key f) ≠ ∅.
Proof.
  unfold words, _get_flag_key, PyStr.split.
  pose proof (split_from_bar EmptyString (PyStr.lower (title f))
                (PyStr.lower (PyStr.take 100 (description f)))) as Hne.
  destruct (PyStr.split_from _ _) as [|w ws]; [done|].
  intros Hempty. apply (not_elem_of_empty (C := gset string) w).
  rewrite <- Hempty. apply elem_of_list_to_set. left.
Qed.

Lemma are_similar_refl key : words key ≠ ∅ → _are_similar key key = true.
Proof.
  intros Hw. apply jaccard_are_similar. unfold jaccard_at_least_0_7.
  rewrite (idemp_L (∪)), (idemp_L (∩)). split; [done|]. split; [done|]. lia.
Qed.

Lemma are_similar_sym key1 key2 : _are_similar key1 key2 = _are_similar key2 key1.
Proof.
  unfold _are_similar. fold (words key1) (words key2). cbv zeta.
  rewrite (orb_comm (bool_decide (words key1 = ∅))).
  pose proof (comm_L (∩) (words key1) (words key2)) as Hi.
  pose proof (comm_L (∪) (words key1) (words key2)) as Hu.
  by rewrite Hi, Hu.
Qed.

(** An accepted flag is similar to nothing that was seen before it. *)
Lemma accepted_elem_not_similar seen fs g :
  g ∈ accepted seen fs → ¬ similar_to_some g seen.
Proof.
  revert seen. induction fs as [|f fs IH]; intros seen; simpl.
  - by intros ?%elem_of_nil.
  - case_decide as Hd; [apply IH|].
    rewrite elem_of_cons. intros [->|Hg]; [done|].
    intros Hs. apply (IH _ Hg). eapply similar_to_some_mono; [|done].
    apply union_subseteq_l.
Qed.

(** Every flag of a group is accepted or similar to an accepted one. *)
Lemma accepted_covers seen fs f :
  f ∈ fs →
  f ∈ accepted seen fs ∨ similar_to_some f (seen ∪ keys (accepted seen fs)).
Proof.
  revert seen. induction fs as [|g fs IH]; intros seen.
  - by intros ?%elem_of_nil.
  - rewrite elem_of_cons. intros Hf. cbn [accepted].
    destruct (decide (similar_to_some g seen)) as [Hd|Hd].
    + destruct Hf as [->|Hf]; [|by apply IH].
      right. eapply similar_to_some_mono; [|done]. apply union_subseteq_l.
    + destruct Hf as [->|Hf]; [left; left|].
      destruct (IH (seen ∪ {[_get_flag_key g]}) Hf) as [Hin|Hs].
      * left. by right.
      * right. by rewrite keys_cons, (assoc_L (∪)).
Qed.

End keys_have_words.

(** ** Duplicates and coverage *)

Section dedup_extras.
Implicit Types (l fs : list RedFlag) (seen : gset string) (c : FlagCategory).

Lemma same_words_key f g :
  PyStr.lower (title f) = PyStr.lower (title g) →
  PyStr.lower (PyStr.take 100 (description f))
  = PyStr.lower (PyStr.take 100 (description g)) →
  _get_flag_key f = _get_flag_key g.
Proof. unfold _get_flag_key. by intros -> ->. Qed.

(** X4. The similarity test does not depend on the order of its two keys;
    the key of a flag always has a word (the bar between title and
    description is part of one), so it is similar to itself; and two flags
    whose titles, and whose descriptions cut at 100 characters, agree up to
    case have similar keys. *)
Theorem similarity_symmetric_reflexive_on_keys :
  (∀ key1 key2, _are_similar key1 key2 = _are_similar key2 key1)
  ∧ (∀ f, words (_get_flag_key f) ≠ ∅
          ∧ _are_similar (_get_flag_key f) (_get_flag_key f) = true)
  ∧ (∀ f g,
       PyStr.lower (title f) = PyStr.lower (title g) →
       PyStr.lower (PyStr.take 100 (description f))
       = PyStr.lower (PyStr.take 100 (description g)) →
       _are_similar (_get_flag_key f) (_get_flag_key g) = true).
Proof.
  split; [apply are_similar_sym|]. split.
  - intros f. split; [apply flag_key_words|].
    apply are_similar_refl, flag_key_words.
  - intros f g Ht Hd. rewrite (same_words_key f g Ht Hd).
    apply are_similar_refl, flag_key_words.
Qed.


(** X6. No flag is dropped without a representative: for every flag of the
    input, a flag of the same category with a similar key survives (the
    flag itself if it was kept). *)
Theorem dedup_covers_input (flags : list RedFlag) (f : RedFlag) :
  f ∈ flags →
  ∃ g, g ∈ _deduplicate_flags flags ∧ category g = category f
       ∧ _are_similar (_get_flag_key f) (_get_flag_key g) = true.
Proof.
  intros Hf.
  assert (f ∈ in_category (category f) flags) as Hin.
  { by apply list_elem_of_filter. }
  assert (∀ g, g ∈ accepted ∅ (in_category (category f) flags) →
               g ∈ _deduplicate_flags flags ∧ category g = category f) as Hsurv.
  { intros g. rewrite <- in_category_deduplicate.
    intros [? ?]%list_elem_of_filter. done. }
  destruct (accepted_covers ∅ _ f Hin) as [Hacc|Hs].
  - exists f. destruct (Hsurv f Hacc) as [? _]. split; [done|]. split; [done|].
    apply are_similar_refl, flag_key_words.
  - rewrite (left_id_L ∅ (∪)), similar_to_some_keys, Exists_exists in Hs.
    destruct Hs as (g & Hg & Hsim). exists g.
    destruct (Hsurv g Hg) as [? ?]. done.
Qed.

End dedup_extras.

Lemma dedup_covers_input_witness :
  ∃ g, g ∈ _deduplicate_flags [sample_rule; sample_legal; sample_external]
       ∧ category g = FINANCIAL
       ∧ _are_similar (_get_flag_key sample_external) (_get_flag_key g) = true.
Proof.
  apply (dedup_covers_input [sample_rule; sample_legal; sample_external]
           sample_external).
  rewrite !elem_of_cons. tauto.
Defined.


(** ** The chunks of a long text *)

Example split_blank_lines_samples :
  PyStr.split_blank_lines <$>
    ["a" +:+ PyStr.blank_line +:+ "b"; "";
     String PyStr.newline PyStr.blank_line +:+ "b";
     PyStr.blank_line +:+ PyStr.blank_line;
     "a" +:+ String PyStr.newline EmptyString]
  = [["a"; "b"]; [""]; [""; String PyStr.newline "b"]; [""; ""; ""];
     ["a" +:+ String PyStr.newline EmptyString]].
Proof. vm_compute. reflexivity. Qed.

Example chunk_text_samples :
  _chunk_text sample_paragraphs 50000 = [sample_paragraphs]
  ∧ _chunk_text sample_paragraphs 6
    = ["aaa" +:+ PyStr.blank_line +:+ "bbb"; "cc"]
  ∧ _chunk_text sample_paragraphs 2 = ["aaa"; "bbb"; "cc"]
  ∧ _chunk_text (PyStr.blank_line +:+ "aaa" +:+ PyStr.blank_line) 4
    = ["aaa" +:+ PyStr.blank_line].
Proof. vm_compute. repeat split; reflexivity. Qed.

(** An empty paragraph inside a run stays in the chunk; an empty paragraph
    that meets an empty current chunk is left out. *)
Example chunk_text_runs_sample :
  PyStr.split_blank_lines
    ("aaa" +:+ PyStr.blank_line +:+ PyStr.blank_line +:+ "b"
     +:+ PyStr.blank_line +:+ PyStr.blank_line +:+ "c")
  = ["aaa"; ""; "b"; ""; "c"]
  ∧ _chunk_text
      ("aaa" +:+ PyStr.blank_line +:+ PyStr.blank_line +:+ "b"
       +:+ PyStr.blank_line +:+ PyStr.blank_line +:+ "c") 2
    = chunks_of_runs [([], ["aaa"]); ([""], ["b"; ""]); ([], ["c"])]
  ∧ chunks_of_runs [([], ["aaa"]); ([""], ["b"; ""]); ([], ["c"])]
    = ["aaa"; "b" +:+ PyStr.blank_line; "c"].
Proof. vm_compute. repeat split; reflexivity. Qed.

Section chunk_text.
Implicit Types (text para p current : string) (chunks ps g : list string).
Implicit Types (groups : list (list string)) (max_chars : Z).
Implicit Types (runs : list (list string * list string)).

Lemma join_cons_cons p q rest :
  join_blank_lines (p :: q :: rest)
  = p +:+ PyStr.blank_line +:+ join_blank_lines (q :: rest).
Proof. done. Qed.

Lemma join_snoc g p :
  g ≠ [] →
  join_blank_lines (g ++ [p]) = join_blank_lines g +:+ PyStr.blank_line +:+ p.
Proof.
  induction g as [|x g IH]; [done|]. intros _. destruct g as [|y g]; [done|].
  change ((x :: y :: g) ++ [p]) with (x :: y :: (g ++ [p])).
  rewrite !join_cons_cons. change (y :: g ++ [p]) with ((y :: g) ++ [p]).
  rewrite IH by done. by rewrite !append_assoc.
Qed.

Lemma join_starts_nonempty g :
  starts_nonempty g → join_blank_lines g ≠ EmptyString.
Proof.
  intros (p & rest & -> & Hp). destruct rest as [|q rest]; [done|].
  rewrite join_cons_cons. by intros [? _]%append_eq_nil.
Qed.

Lemma join_nil_inv g :
  g = [] ∨ starts_nonempty g → join_blank_lines g = EmptyString → g = [].
Proof. intros [->|Hg] Hj; [done|]. by apply join_starts_nonempty in Hg. Qed.

Lemma nonempty_paragraphs_app l1 l2 :
  nonempty_paragraphs (l1 ++ l2)
  = nonempty_paragraphs l1 ++ nonempty_paragraphs l2.
Proof. apply filter_app. Qed.

Lemma fresh_group_join p : join_blank_lines (fresh_group p) = p.
Proof. unfold fresh_group. by case_decide. Qed.

Lemma fresh_group_starts p : fresh_group p = [] ∨ starts_nonempty (fresh_group p).
Proof.
  unfold fresh_group. case_decide; [by left|right]. by exists p, [].
Qed.

Lemma fresh_group_sublist p : fresh_group p `sublist_of` [p].
Proof.
  unfold fresh_group. case_decide; [apply sublist_nil_l|done].
Qed.

Lemma fresh_group_nonempty p :
  nonempty_paragraphs (fresh_group p) = nonempty_paragraphs [p].
Proof.
  unfold fresh_group, nonempty_paragraphs. case_decide as Hp.
  - by rewrite filter_cons_False by tauto.
  - done.
Qed.

Lemma fresh_group_single max_chars p :
  fresh_group p = [] ∨ short_or_single max_chars (fresh_group p).
Proof.
  unfold fresh_group. case_decide; [by left|right]. right. by exists p.
Qed.

Lemma chunk_step_inv max_chars ps st p :
  chunk_inv max_chars ps st →
  chunk_inv max_chars (ps ++ [p]) (chunk_step max_chars st p).
Proof.
  destruct st as [chunks current].
  intros (groups & g & Hchunks & Hcurrent & Hgroups & Hg & Hsub & Hne & Hb & Hbg).
  cbn [fst snd] in Hchunks, Hcurrent. subst chunks current.
  unfold chunk_step.
  destruct (Z.ltb_spec max_chars
              (Z.of_nat (String.length (join_blank_lines g))
               + Z.of_nat (String.length p))) as [Hover|Hfits].
  - (* the paragraph starts a new chunk *)
    destruct (decide (join_blank_lines g ≠ EmptyString)) as [Hcur|Hcur].
    + rewrite bool_decide_eq_true_2 by done.
      assert (starts_nonempty g ∧ short_or_single max_chars g) as [Hg' Hbg'].
      { destruct Hg as [->|?]; [done|]. destruct Hbg as [->|?]; done. }
      exists (groups ++ [g]), (fresh_group p). cbn [fst snd].
      rewrite fmap_app, fresh_group_join, concat_app. cbn [concat fmap list_fmap].
      rewrite app_nil_r.
      split; [done|]. split; [done|].
      split; [apply Forall_app; split; [done|by apply Forall_singleton]|].
      split; [apply fresh_group_starts|].
      split; [apply sublist_app; [done|apply fresh_group_sublist]|].
      split.
      { by rewrite !nonempty_paragraphs_app, <- Hne, nonempty_paragraphs_app,
          fresh_group_nonempty. }
      split; [apply Forall_app; split; [done|by apply Forall_singleton]|].
      apply fresh_group_single.
    + rewrite bool_decide_eq_false_2 by done.
      assert (g = []) as ->.
      { apply join_nil_inv; [done|]. by destruct (decide (join_blank_lines g = "")); [|tauto]. }
      rewrite app_nil_r in Hsub, Hne.
      exists groups, (fresh_group p). cbn [fst snd].
      rewrite fresh_group_join.
      split; [done|]. split; [done|]. split; [done|].
      split; [apply fresh_group_starts|].
      split; [apply sublist_app; [done|apply fresh_group_sublist]|].
      split.
      { by rewrite !nonempty_paragraphs_app, <- Hne, fresh_group_nonempty. }
      split; [done|]. apply fresh_group_single.
  - (* the paragraph joins the current chunk *)
    destruct (decide (join_blank_lines g ≠ EmptyString)) as [Hcur|Hcur].
    + rewrite bool_decide_eq_true_2 by done.
      assert (g ≠ []) as Hgne by (by intros ->).
      assert (starts_nonempty g) as Hg' by (by destruct Hg).
      exists groups, (g ++ [p]). cbn [fst snd].
      rewrite join_snoc by done.
      split; [done|]. split; [done|]. split; [done|].
      split.
      { right. destruct Hg' as (q & rest & -> & Hq). by exists q, (rest ++ [p]). }
      split; [rewrite (assoc_L (++)); by apply sublist_app|].
      split.
      { by rewrite (assoc_L (++)), nonempty_paragraphs_app, Hne,
          <- nonempty_paragraphs_app. }
      split; [done|]. right. left.
      rewrite join_snoc, !length_append by done.
      change (String.length PyStr.blank_line) with 2%nat. lia.
    + rewrite bool_decide_eq_false_2 by done.
      assert (g = []) as ->.
      { apply join_nil_inv; [done|]. by destruct (decide (join_blank_lines g = "")); [|tauto]. }
      rewrite app_nil_r in Hsub, Hne.
      exists groups, (fresh_group p). cbn [fst snd].
      rewrite fresh_group_join.
      split; [done|]. split; [done|]. split; [done|].
      split; [apply fresh_group_starts|].
      split; [apply sublist_app; [done|apply fresh_group_sublist]|].
      split.
      { by rewrite !nonempty_paragraphs_app, <- Hne, fresh_group_nonempty. }
      split; [done|]. apply fresh_group_single.
Qed.

Lemma chunk_loop_inv max_chars paragraphs ps st :
  chunk_inv max_chars ps st →
  chunk_inv max_chars (ps ++ paragraphs)
    (foldl (chunk_step max_chars) st paragraphs).
Proof.
  revert ps st. induction paragraphs as [|p paragraphs IH]; intros ps st Hst.
  - by rewrite app_nil_r.
  - cbn [foldl]. rewrite (cons_middle p), (assoc_L (++)).
    by apply IH, chunk_step_inv.
Qed.

(** The chunks of a text longer than [max_chars]. *)
Lemma chunk_text_groups text max_chars :
  (max_chars < Z.of_nat (String.length text))%Z →
  ∃ groups,
    _chunk_text text max_chars = join_blank_lines <$> groups
    ∧ Forall starts_nonempty groups
    ∧ concat groups `sublist_of` PyStr.split_blank_lines text
    ∧ nonempty_paragraphs (concat groups)
      = nonempty_paragraphs (PyStr.split_blank_lines text)
    ∧ Forall (short_or_single max_chars) groups.
Proof.
  intros Hlong. unfold _chunk_text.
  rewrite (proj2 (Z.leb_gt _ _)) by done. cbv zeta.
  pose proof (chunk_loop_inv max_chars (PyStr.split_blank_lines text) []
                ([], EmptyString)) as Hinv.
  rewrite app_nil_l in Hinv.
  destruct (foldl _ _ _) as [chunks current].
  destruct Hinv as (groups & g & Hchunks & Hcurrent & Hgroups & Hg & Hsub & Hne
                    & Hb & Hbg).
  { exists [], []. cbn. repeat split; try done; by left. }
  cbn [fst snd] in Hchunks, Hcurrent. subst chunks current.
  destruct (decide (join_blank_lines g ≠ EmptyString)) as [Hcur|Hcur].
  - rewrite bool_decide_eq_true_2 by done.
    assert (starts_nonempty g ∧ short_or_single max_chars g) as [Hg' Hbg'].
    { destruct Hg as [->|?]; [done|]. destruct Hbg as [->|?]; done. }
    exists (groups ++ [g]). rewrite fmap_app, concat_app. cbn [concat fmap list_fmap].
    rewrite app_nil_r.
    split; [done|]. split; [apply Forall_app; split; [done|by apply Forall_singleton]|].
    split; [done|]. split; [done|]. apply Forall_app; split; [done|by apply Forall_singleton].
  - rewrite bool_decide_eq_false_2 by done.
    assert (g = []) as ->.
    { apply join_nil_inv; [done|]. by destruct (decide (join_blank_lines g = "")); [|tauto]. }
    rewrite app_nil_r in Hsub, Hne. by exists groups.
Qed.

Lemma cons_head_ne c l : PyStr.cons_head c l ≠ [].
Proof. by destruct l. Qed.

Lemma split_blank_lines_cons c c' s :
  PyStr.split_blank_lines (String c (String c' s)) =
  if bool_decide (c = PyStr.newline) && bool_decide (c' = PyStr.newline)
  then EmptyString :: PyStr.split_blank_lines s
  else PyStr.cons_head c (PyStr.split_blank_lines (String c' s)).
Proof. reflexivity. Qed.

Lemma split_blank_lines_ne s : PyStr.split_blank_lines s ≠ [].
Proof.
  destruct s as [|c [|c' s]]; [done|done|]. rewrite split_blank_lines_cons.
  destruct (_ && _); [done|apply cons_head_ne].
Qed.

Lemma join_cons_head c l :
  l ≠ [] → join_blank_lines (PyStr.cons_head c l) = String c (join_blank_lines l).
Proof. destruct l as [|p [|q l]]; done. Qed.

(** Joining the paragraphs of a text gives the text back. *)
Lemma join_split_blank_lines s : join_blank_lines (PyStr.split_blank_lines s) = s.
Proof.
  assert (∀ n s, (String.length s ≤ n)%nat →
                 join_blank_lines (PyStr.split_blank_lines s) = s) as Hn;
    [|by apply (Hn (String.length s))].
  clear s. induction n as [|n IH]; intros s Hs.
  { destruct s; [done|simpl in Hs; lia]. }
  destruct s as [|c [|c' s]]; [done|done|].
  rewrite split_blank_lines_cons.
  destruct (bool_decide (c = PyStr.newline) && bool_decide (c' = PyStr.newline)) eqn:Hsep.
  - apply andb_true_iff in Hsep as [->%bool_decide_eq_true ->%bool_decide_eq_true].
    pose proof (split_blank_lines_ne s) as Hne.
    destruct (PyStr.split_blank_lines s) as [|p ps] eqn:Hsplit; [done|].
    rewrite join_cons_cons, append_nil_l, <- Hsplit, IH; [done|].
    simpl in Hs. lia.
  - rewrite join_cons_head by apply split_blank_lines_ne.
    rewrite IH; [done|]. simpl in Hs |- *. lia.
Qed.

Lemma join_app l1 l2 :
  l1 ≠ [] → l2 ≠ [] →
  join_blank_lines (l1 ++ l2)
  = join_blank_lines l1 +:+ PyStr.blank_line +:+ join_blank_lines l2.
Proof.
  intros H1 H2. induction l1 as [|x l1 IH]; [done|].
  destruct l1 as [|y l1].
  - destruct l2; done.
  - change ((x :: y :: l1) ++ l2) with (x :: y :: (l1 ++ l2)).
    rewrite !join_cons_cons. change (y :: l1 ++ l2) with ((y :: l1) ++ l2).
    rewrite IH by done. by rewrite !append_assoc.
Qed.

Lemma join_concat groups :
  Forall (λ g, g ≠ []) groups →
  join_blank_lines (join_blank_lines <$> groups)
  = join_blank_lines (concat groups).
Proof.
  induction 1 as [|g groups Hg Hgroups IH]; [done|].
  destruct groups as [|g' groups].
  - cbn. by rewrite app_nil_r.
  - rewrite fmap_cons. change (concat (g :: g' :: groups))
      with (g ++ concat (g' :: groups)).
    rewrite join_app; [|done|].
    + rewrite <- IH. by rewrite fmap_cons.
    + apply Forall_cons in Hgroups as [Hg' _]. cbn [concat].
      by destruct g'.
Qed.

Lemma starts_nonempty_ne g : starts_nonempty g → g ≠ [].
Proof. by intros (p & rest & -> & _). Qed.

Lemma paragraphs_of_runs_snoc runs skipped g :
  paragraphs_of_runs (runs ++ [(skipped, g)])
  = paragraphs_of_runs runs ++ skipped ++ g.
Proof.
  unfold paragraphs_of_runs. rewrite bind_app. cbn [mbind list_bind]. cbn.
  by rewrite app_nil_r.
Qed.

Lemma chunks_of_runs_snoc runs skipped g :
  chunks_of_runs (runs ++ [(skipped, g)])
  = chunks_of_runs runs ++ [join_blank_lines g].
Proof. unfold chunks_of_runs. by rewrite fmap_app. Qed.

(** A paragraph that meets an empty current chunk is left out when it is
    empty, and starts the run of the chunk otherwise. *)
Lemma fresh_group_split p :
  ∃ skipped, skipped ++ fresh_group p = [p]
             ∧ Forall (λ q, q = EmptyString) skipped.
Proof.
  unfold fresh_group. case_decide as Hp.
  - exists [p]. split; [done|]. by apply Forall_singleton.
  - by exists [].
Qed.

Lemma chunk_step_runs max_chars ps st p :
  chunk_runs_inv ps st →
  chunk_runs_inv (ps ++ [p]) (chunk_step max_chars st p).
Proof.
  destruct st as [chunks current].
  intros (runs & skipped & g & -> & Hchunks & Hcurrent & Hruns & Hsk & Hg).
  cbn [fst snd] in Hchunks, Hcurrent. subst chunks current.
  destruct (fresh_group_split p) as (sk & Hp & Hsk').
  unfold chunk_step.
  destruct (decide (join_blank_lines g ≠ EmptyString)) as [Hcur|Hcur].
  - rewrite !bool_decide_eq_true_2 by done.
    assert (starts_nonempty g) as Hg' by (by destruct Hg as [->|?]).
    destruct (_ <? _)%Z.
    + (* the paragraph starts a new chunk *)
      exists (runs ++ [(skipped, g)]), sk, (fresh_group p). cbn [fst snd].
      rewrite paragraphs_of_runs_snoc, chunks_of_runs_snoc, fresh_group_join, Hp.
      split; [by rewrite <- !(assoc_L (++))|].
      split; [done|]. split; [done|].
      split; [apply Forall_app; split; [done|by apply Forall_singleton]|].
      split; [done|apply fresh_group_starts].
    + (* the paragraph joins the current chunk *)
      exists runs, skipped, (g ++ [p]). cbn [fst snd].
      rewrite join_snoc by (by apply starts_nonempty_ne).
      split; [by rewrite <- !(assoc_L (++))|].
      split; [done|]. split; [done|]. split; [done|]. split; [done|].
      right. destruct Hg' as (q & rest & -> & Hq). by exists q, (rest ++ [p]).
  - rewrite !bool_decide_eq_false_2 by done.
    assert (g = []) as ->.
    { apply join_nil_inv; [done|].
      by destruct (decide (join_blank_lines g = EmptyString)); [|tauto]. }
    exists runs, (skipped ++ sk), (fresh_group p).
    rewrite app_nil_r, <- !(assoc_L (++)), Hp, fresh_group_join.
    assert (Forall (λ q, q = EmptyString) (skipped ++ sk)) as Hall
      by (apply Forall_app; by split).
    destruct (_ <? _)%Z; cbn [fst snd];
      (split; [done|]; split; [done|]; split; [done|]; split; [done|];
       split; [done|apply fresh_group_starts]).
Qed.

Lemma chunk_loop_runs max_chars paragraphs ps st :
  chunk_runs_inv ps st →
  chunk_runs_inv (ps ++ paragraphs)
    (foldl (chunk_step max_chars) st paragraphs).
Proof.
  revert ps st. induction paragraphs as [|p paragraphs IH]; intros ps st Hst.
  - by rewrite app_nil_r.
  - cbn [foldl]. rewrite (cons_middle p), (assoc_L (++)).
    by apply IH, chunk_step_runs.
Qed.

(** X7. Every chunk is a run of consecutive paragraphs of the text joined
    by blank lines, and the runs follow each other in the text: the
    paragraphs of the text are, in order, those of the run of the first
    chunk, of the second chunk, and so on, with nothing between, before or
    behind the runs but empty paragraphs.  In a text longer than
    [max_chars] every run starts with a paragraph that is not empty. *)
Theorem chunk_text_keeps_paragraphs (text : string) (max_chars : Z) :
  ∃ (runs : list (list string * list string)) (rest : list string),
    PyStr.split_blank_lines text = paragraphs_of_runs runs ++ rest
    ∧ _chunk_text text max_chars = chunks_of_runs runs
    ∧ Forall (λ r, Forall (λ p, p = EmptyString) r.1 ∧ r.2 ≠ []) runs
    ∧ Forall (λ p, p = EmptyString) rest
    ∧ ((max_chars < Z.of_nat (String.length text))%Z →
       Forall (λ r, starts_nonempty r.2) runs).
Proof.
  destruct (Z.le_gt_cases (Z.of_nat (String.length text)) max_chars)
    as [Hshort|Hlong].
  - exists [([], PyStr.split_blank_lines text)], []. unfold _chunk_text.
    rewrite (proj2 (Z.leb_le _ _)) by done.
    unfold paragraphs_of_runs, chunks_of_runs.
    cbn [mbind list_bind fmap list_fmap fst snd app].
    rewrite join_split_blank_lines, !app_nil_r.
    split; [done|]. split; [done|].
    split; [|split; [done|lia]].
    apply Forall_singleton. split; [done|apply split_blank_lines_ne].
  - unfold _chunk_text. rewrite (proj2 (Z.leb_gt _ _)) by lia. cbv zeta.
    pose proof (chunk_loop_runs max_chars (PyStr.split_blank_lines text) []
                  ([], EmptyString)) as Hinv.
    rewrite app_nil_l in Hinv.
    destruct (foldl _ _ _) as [chunks current].
    destruct Hinv as (runs & skipped & g & Hps & Hchunks & Hcurrent & Hruns
                      & Hsk & Hg).
    { exists [], [], []. repeat split; try done. by left. }
    cbn [fst snd] in Hchunks, Hcurrent. subst chunks current.
    destruct (decide (join_blank_lines g ≠ EmptyString)) as [Hcur|Hcur].
    + rewrite bool_decide_eq_true_2 by done.
      assert (starts_nonempty g) as Hg' by (by destruct Hg as [->|?]).
      assert (Forall (λ r, Forall (λ p, p = EmptyString) r.1
                           ∧ starts_nonempty r.2) (runs ++ [(skipped, g)]))
        as Hall by (apply Forall_app; split; [done|by apply Forall_singleton]).
      exists (runs ++ [(skipped, g)]), [].
      rewrite paragraphs_of_runs_snoc, chunks_of_runs_snoc, app_nil_r.
      split; [done|]. split; [done|]. split; [|split; [done|]].
      * eapply Forall_impl; [exact Hall|].
        intros r [? ?]. split; [done|by apply starts_nonempty_ne].
      * intros _. eapply Forall_impl; [exact Hall|]. by intros r [_ ?].
    + rewrite bool_decide_eq_false_2 by done.
      assert (g = []) as ->.
      { apply join_nil_inv; [done|].
        by destruct (decide (join_blank_lines g = EmptyString)); [|tauto]. }
      exists runs, skipped. rewrite app_nil_r in Hps.
      split; [done|]. split; [done|]. split; [|split; [done|]].
      * eapply Forall_impl; [exact Hruns|].
        intros r [? ?]. split; [done|by apply starts_nonempty_ne].
      * intros _. eapply Forall_impl; [exact Hruns|]. by intros r [_ ?].
Qed.

(** X8. A chunk has at most [max_chars + 2] characters unless it is a
    single paragraph of the text: the test that a paragraph fits does not
    count the blank line that joins it to the chunk. *)
Theorem chunk_text_length_bound (text : string) (max_chars : Z) (chunk : string) :
  chunk ∈ _chunk_text text max_chars →
  (Z.of_nat (String.length chunk) ≤ max_chars + 2)%Z
  ∨ chunk ∈ PyStr.split_blank_lines text.
Proof.
  destruct (Z.le_gt_cases (Z.of_nat (String.length text)) max_chars)
    as [Hshort|Hlong].
  - unfold _chunk_text. rewrite (proj2 (Z.leb_le _ _)) by done.
    intros ->%list_elem_of_singleton. left. lia.
  - destruct (chunk_text_groups text max_chars) as
      (groups & -> & _ & Hsub & _ & Hbound); [lia|].
    intros (g & -> & Hg)%list_elem_of_fmap.
    rewrite Forall_forall in Hbound.
    destruct (Hbound g Hg) as [?|[p ->]]; [by left|right]. cbn.
    eapply sublist_subseteq; [done|].
    apply list_elem_of_In, in_concat. exists [p].
    split; [by apply list_elem_of_In|by left].
Qed.

(** X9. The empty chunk is returned for the empty text only (when
    [max_chars] is not negative), and the list of chunks is empty exactly
    for a text longer than [max_chars] whose paragraphs are all empty. *)
Theorem chunk_text_empty_cases (text : string) (max_chars : Z) :
  (EmptyString ∈ _chunk_text text max_chars
   ↔ text = EmptyString ∧ (0 ≤ max_chars)%Z)
  ∧ (_chunk_text text max_chars = []
     ↔ (max_chars < Z.of_nat (String.length text))%Z
       ∧ Forall (λ p, p = EmptyString) (PyStr.split_blank_lines text)).
Proof.
  destruct (Z.le_gt_cases (Z.of_nat (String.length text)) max_chars)
    as [Hshort|Hlong].
  - unfold _chunk_text. rewrite (proj2 (Z.leb_le _ _)) by done. split.
    + rewrite list_elem_of_singleton. split.
      * intros <-. split; [done|]. simpl in Hshort. lia.
      * by intros [-> _].
    + split; [done|]. lia.
  - destruct (chunk_text_groups text max_chars) as
      (groups & -> & Hstart & Hsub & Hne & _); [lia|].
    split.
    + split.
      * intros (g & Hg & Hin)%list_elem_of_fmap. exfalso.
        rewrite Forall_forall in Hstart.
        by apply (join_starts_nonempty g (Hstart g Hin)).
      * intros [-> ?]. simpl in Hlong. lia.
    + split.
      * intros Hnil. apply fmap_nil_inv in Hnil as ->. split; [lia|].
        cbn in Hne. symmetry in Hne. unfold nonempty_paragraphs in Hne.
        apply Forall_forall. intros p Hp.
        destruct (decide (p = EmptyString)) as [|Hpne]; [done|exfalso].
        eapply (filter_nil_not_elem_of _ _ p); [apply Hne|done..].
      * intros [_ Hall]. destruct groups as [|g groups]; [done|exfalso].
        apply Forall_cons in Hstart as [(p & rest & -> & Hp) _].
        rewrite Forall_forall in Hall. apply Hp, Hall.
        eapply sublist_subseteq; [done|]. cbn. left.
Qed.

(** X10. For a text without empty paragraphs, joining the chunks by blank
    lines gives the text back. *)
Theorem chunk_text_round_trip (text : string) (max_chars : Z) :
  EmptyString ∉ PyStr.split_blank_lines text →
  join_blank_lines (_chunk_text text max_chars) = text.
Proof.
  intros Hfull.
  destruct (Z.le_gt_cases (Z.of_nat (String.length text)) max_chars)
    as [Hshort|Hlong].
  { unfold _chunk_text. by rewrite (proj2 (Z.leb_le _ _)). }
  destruct (chunk_text_groups text max_chars)
    as (groups & -> & Hgroups & Hsub & Hne & _); [lia|].
  rewrite join_concat
    by (eapply Forall_impl; [done|apply starts_nonempty_ne]).
  etrans; [|apply (join_split_blank_lines text)]. f_equal.
  assert (∀ l, EmptyString ∉ l → nonempty_paragraphs l = l) as Hid.
  { intros l Hl. unfold nonempty_paragraphs.
    induction l as [|x l IH]; [done|]. apply not_elem_of_cons in Hl as [? ?].
    rewrite filter_cons_True by done. f_equal. by apply IH. }
  rewrite <- (Hid (concat groups)), Hne, Hid; [done|done|].
  intros Hin. apply Hfull. by eapply sublist_subseteq.
Qed.

End chunk_text.

Lemma chunk_text_length_bound_witness :
  _chunk_text sample_paragraphs 6 = ["aaa" +:+ PyStr.blank_line +:+ "bbb"; "cc"]
  ∧ ((Z.of_nat (String.length ("aaa" +:+ PyStr.blank_line +:+ "bbb")) ≤ 6 + 2)%Z
     ∨ "aaa" +:+ PyStr.blank_line +:+ "bbb" ∈ PyStr.split_blank_lines sample_paragraphs).
Proof.
  split; [vm_compute; reflexivity|].
  apply (chunk_text_length_bound sample_paragraphs 6).
  apply list_elem_of_In. vm_compute. left. reflexivity.
Defined.

Lemma chunk_text_empty_cases_witness :
  EmptyString ∈ _chunk_text EmptyString 50000
  ∧ _chunk_text (PyStr.blank_line +:+ PyStr.blank_line) 3 = [].
Proof.
  split.
  - apply (proj1 (chunk_text_empty_cases EmptyString 50000)). by split.
  - apply (proj2 (chunk_text_empty_cases
                    (PyStr.blank_line +:+ PyStr.blank_line) 3)).
    split; [vm_compute; reflexivity|]. vm_compute. repeat constructor.
Defined.

Lemma chunk_text_round_trip_witness :
  join_blank_lines (_chunk_text sample_paragraphs 6) = sample_paragraphs.
Proof.
  apply chunk_text_round_trip.
  intros Hin. apply list_elem_of_In in Hin. vm_compute in Hin.
  repeat destruct Hin as [Hin|Hin]; try discriminate Hin. done.
Defined.

(** ** The context of a match *)

Section get_context.
Implicit Types (text : string) (start chars : nat).

Lemma contains_app_l p a s :
  PyStr.contains p s = true → PyStr.contains p (a +:+ s) = true.
Proof.
  rewrite !contains_spec. intros (x & y & ->). exists (a +:+ x), y.
  by rewrite append_assoc.
Qed.

Lemma contains_app_r p s b :
  PyStr.contains p s = true → PyStr.contains p (s +:+ b) = true.
Proof.
  rewrite !contains_spec. intros (x & y & ->). exists x, (y +:+ b).
  by rewrite !append_assoc.
Qed.

(** X11. The context of a match contains the matched text, up to the
    whitespace at its ends. *)
Theorem get_context_contains_match text start (end_ : nat) chars :
  (start ≤ end_ ≤ String.length text)%nat →
  PyStr.contains (PyStr.strip (PyStr.slice start end_ text))
                 (_get_context text start end_ chars) = true.
Proof.
  intros [Hse Hel]. unfold _get_context. cbv zeta.
  set (cs := (start - chars)%nat).
  set (ce := (String.length text `min` (end_ + chars))%nat).
  assert (PyStr.contains (PyStr.strip (PyStr.slice start end_ text))
            (PyStr.strip (PyStr.slice cs ce text)) = true) as Hin.
  { rewrite (slice_app cs start ce) by (subst cs ce; lia).
    rewrite (slice_app start end_ ce) by (subst cs ce; lia).
    apply strip_contains. }
  destruct (0 <? cs)%nat, (ce <? String.length text)%nat;
    auto using contains_app_l, contains_app_r.
Qed.

(** X12. For a match from [start] to [end_] the context has at most
    [end_ - start + 2 * chars + 6] characters; when the window reaches both
    ends of the text, the context is the stripped text with no ellipsis. *)
Theorem get_context_window text start (end_ : nat) chars :
  ((start ≤ end_)%nat →
   (String.length (_get_context text start end_ chars)
    ≤ (end_ - start) + 2 * chars + 6)%nat)
  ∧ ((start ≤ chars)%nat → (String.length text ≤ end_ + chars)%nat →
     _get_context text start end_ chars = PyStr.strip text).
Proof.
  unfold _get_context. cbv zeta.
  set (cs := (start - chars)%nat).
  set (ce := (String.length text `min` (end_ + chars))%nat).
  split.
  - intros Hse.
    pose proof (length_strip (PyStr.slice cs ce text)) as Hstrip.
    pose proof (length_take (ce - cs) (PyStr.drop cs text)) as Htake.
    fold (PyStr.slice cs ce text) in Htake.
    assert (ce - cs ≤ end_ - start + 2 * chars)%nat by (subst cs ce; lia).
    destruct (0 <? cs)%nat, (ce <? String.length text)%nat;
      rewrite ?length_append; simpl; lia.
  - intros Hs He.
    assert (cs = 0%nat) as -> by (subst cs; lia).
    assert (ce = String.length text) as -> by (subst ce; lia).
    rewrite Nat.ltb_irrefl. cbn [Nat.ltb Nat.leb].
    unfold PyStr.slice. rewrite Nat.sub_0_r. cbn [PyStr.drop].
    by rewrite take_all.
Qed.

End get_context.

Lemma get_context_contains_match_witness :
  PyStr.contains (PyStr.strip (PyStr.slice 18 32 sample_document))
                 (_get_context sample_document 18 32 5) = true
  ∧ _get_context sample_document 18 32 5 = "...are to be provided at c...".
Proof.
  split; [|vm_compute; reflexivity].
  apply get_context_contains_match. vm_compute. lia.
Defined.

Lemma get_context_window_witness :
  (String.length (_get_context sample_document 18 32 5) ≤ (32 - 18) + 2 * 5 + 6)%nat
  ∧ _get_context "  to be provided  " 2 16 150 = "to be provided".
Proof.
  destruct (get_context_window sample_document 18 32 5) as [Hlen _].
  destruct (get_context_window "  to be provided  " 2 16 150) as [_ Hall].
  split; [apply Hlen; lia|]. rewrite Hall; [reflexivity|lia|vm_compute; lia].
Defined.

(** ** The cleaning of a response *)

Section clean_response.
Implicit Types (s p body : string) (ch : ascii).

Lemma endswith_app s p : PyStr.endswith p (s +:+ p) = true.
Proof.
  unfold PyStr.endswith. rewrite length_append.
  replace (String.length s + String.length p - String.length p)%nat
    with (String.length s) by lia.
  rewrite drop_app_length, !bool_decide_eq_true_2; [done|lia|done].
Qed.

Lemma take_app_sub s p :
  PyStr.take (String.length (s +:+ p) - String.length p) (s +:+ p) = s.
Proof.
  rewrite length_append.
  replace (String.length s + String.length p - String.length p)%nat
    with (String.length s) by lia.
  apply take_app_length.
Qed.

Lemma rstrip_idemp s : PyStr.rstrip (PyStr.rstrip s) = PyStr.rstrip s.
Proof.
  induction s as [|ch s IH]; [done|]. rewrite rstrip_cons.
  destruct (PyStr.rstrip s) as [|ch' r] eqn:Hr.
  - destruct (PyStr.isspace ch) eqn:Hch; [done|].
    by rewrite rstrip_cons, Hch.
  - by rewrite rstrip_cons, IH.
Qed.

Lemma rstrip_head ch s :
  PyStr.rstrip (String ch s) = EmptyString
  ∨ ∃ r, PyStr.rstrip (String ch s) = String ch r.
Proof.
  rewrite rstrip_cons. destruct (PyStr.rstrip s) as [|ch' r].
  - destruct (PyStr.isspace ch); [by left|right; by eexists].
  - right. by eexists.
Qed.

Lemma strip_idemp s : PyStr.strip (PyStr.strip s) = PyStr.strip s.
Proof.
  unfold PyStr.strip. destruct (PyStr.lstrip s) as [|ch r] eqn:Hl; [done|].
  pose proof (lstrip_head _ _ _ Hl) as Hch.
  destruct (rstrip_head ch r) as [->|[r' Hr]]; [done|].
  rewrite Hr, lstrip_cons, Hch, <- Hr. apply rstrip_idemp.
Qed.

(** X13. The cleaning of a response unwraps a code fence: for a response
    that is, after stripping, a body inside a json fence or a plain fence,
    the cleaned text is the stripped body; a response that neither starts
    nor ends with a fence is only stripped. *)
Theorem clean_response_unwraps_fence (response_text body : string) :
  (PyStr.strip response_text = "```json" +:+ body +:+ "```" →
   PyStr.startswith "```" (body +:+ "```") = false →
   clean_response response_text = PyStr.strip body)
  ∧ (PyStr.strip response_text = "```" +:+ body +:+ "```" →
     PyStr.startswith "```json" (PyStr.strip response_text) = false →
     clean_response response_text = PyStr.strip body)
  ∧ (PyStr.startswith "```" (PyStr.strip response_text) = false →
     PyStr.endswith "```" (PyStr.strip response_text) = false →
     clean_response response_text = PyStr.strip response_text).
Proof.
  unfold clean_response. cbv zeta. split; [|split].
  - intros -> Hbody. rewrite startswith_app.
    change (PyStr.drop 7 ("```json" +:+ body +:+ "```"))
      with (body +:+ "```").
    rewrite Hbody, endswith_app.
    change 3%nat with (String.length "```"). by rewrite take_app_sub.
  - intros Hfence Hjson. rewrite Hjson, Hfence, startswith_app.
    change (PyStr.drop 3 ("```" +:+ body +:+ "```")) with (body +:+ "```").
    rewrite endswith_app.
    change 3%nat with (String.length "```"). by rewrite take_app_sub.
  - intros Hstart Hend.
    assert (PyStr.startswith "```json" (PyStr.strip response_text) = false)
      as ->.
    { destruct (PyStr.startswith "```json" _) eqn:Hj; [|done].
      apply startswith_inv in Hj as [b Hb]. rewrite Hb in Hstart.
      change ("```json" +:+ b) with ("```" +:+ "json" +:+ b) in Hstart.
      by rewrite startswith_app in Hstart. }
    rewrite Hstart, Hend. apply strip_idemp.
Qed.

End clean_response.

Lemma clean_response_unwraps_fence_witness :
  clean_response "  ```json
[1, 2]
```
" = "[1, 2]"
  ∧ clean_response " [1, 2] " = "[1, 2]".
Proof.
  split.
  - destruct (clean_response_unwraps_fence "  ```json
[1, 2]
```
" "
[1, 2]
") as [Hjson _].
    rewrite Hjson; vm_compute; reflexivity.
  - destruct (clean_response_unwraps_fence " [1, 2] " "") as (_ & _ & Hbare).
    rewrite Hbare; vm_compute; reflexivity.
Defined.

(** ** The findings of the rule engine *)

Section appends_all.
Context (P : RedFlag → Prop).
Implicit Types (c : M unit) (f : RedFlag).

Lemma appends_all_ret : appends_all P (mret ()).
Proof. exists []. split; [apply appends_ret|constructor]. Qed.

Lemma appends_all_append_flag f : P f → appends_all P (append_flag f).
Proof. intros Hf. exists [f]. split; [apply appends_append_flag|by constructor]. Qed.

Lemma appends_all_bind c1 c2 :
  appends_all P c1 → appends_all P c2 → appends_all P (c1 ≫= λ _, c2).
Proof.
  intros (fs & H1 & Hfs) (gs & H2 & Hgs). exists (fs ++ gs).
  split; [by apply appends_bind|by apply Forall_app].
Qed.

Lemma appends_all_for_each {A} (l : list A) (body : A → M unit) :
  (∀ x, x ∈ l → appends_all P (body x)) → appends_all P (for_each l body).
Proof.
  induction l as [|x l IH]; intros Hbody; cbn [for_each].
  - apply appends_all_ret.
  - apply appends_all_bind.
    + apply Hbody. left.
    + apply IH. intros y Hy. apply Hbody. by right.
Qed.

Lemma appends_all_findings_of c : appends_all P c → Forall P (findings_of c).
Proof. intros (fs & Hc & Hfs). by rewrite (appends_findings_of c fs). Qed.

End appends_all.

Section rule_findings.
Import PyFloat.
Context (OFFSHORE_JURISDICTIONS WEASEL_WORDS HIGH_RISK_PHRASES : list string).
Context (re_match : Type) (m_start m_end : re_match → nat).
Context (int_group_1 : re_match → Z) (re_escape : string → string).
Context (re_finditer : string → re_flags → string → list re_match).

Local Abbreviation check_offshore :=
  (_check_offshore_jurisdictions OFFSHORE_JURISDICTIONS re_match m_start m_end
     re_escape re_finditer).
Local Abbreviation check_weasel :=
  (_check_weasel_words WEASEL_WORDS re_match m_start m_end re_escape
     re_finditer).
Local Abbreviation check_high_risk :=
  (_check_high_risk_phrases HIGH_RISK_PHRASES re_match m_start m_end re_escape
     re_finditer).
Local Abbreviation check_dates :=
  (_check_date_anomalies re_match m_start m_end int_group_1 re_finditer).
Local Abbreviation check_payment :=
  (_check_payment_red_flags re_match m_start m_end re_finditer).
Local Abbreviation check_liability :=
  (_check_liability_limitations re_match m_start m_end int_group_1 re_finditer).
Local Abbreviation check_customer :=
  (_check_customer_concentration re_match m_start m_end int_group_1
     re_finditer).
Local Abbreviation run_analyze :=
  (analyze OFFSHORE_JURISDICTIONS WEASEL_WORDS HIGH_RISK_PHRASES re_match
     m_start m_end int_group_1 re_escape re_finditer).

Ltac rule_finding_record :=
  unfold rule_finding; cbn [source recommendation severity score category];
  repeat case_match; cbn [rule_grades];
  (split; [reflexivity|split; [by eexists|]]);
  rewrite !elem_of_cons; solve [repeat first [left; reflexivity | right]].

Ltac rule_finding_step :=
  first [ apply appends_all_ret
        | apply appends_all_append_flag; rule_finding_record
        | apply appends_all_for_each; intros
        | case_match; try done ].

Lemma rule_finding_offshore text : appends_all rule_finding (check_offshore text).
Proof. unfold _check_offshore_jurisdictions. repeat rule_finding_step. Qed.

Lemma rule_finding_weasel text : appends_all rule_finding (check_weasel text).
Proof. unfold _check_weasel_words. repeat rule_finding_step. Qed.

Lemma rule_finding_high_risk text : appends_all rule_finding (check_high_risk text).
Proof. unfold _check_high_risk_phrases. repeat rule_finding_step. Qed.

Lemma rule_finding_missing_loop text indicators :
  appends_all rule_finding (missing_schedules_loop text indicators).
Proof. induction indicators; simpl; repeat rule_finding_step; done. Qed.

Lemma rule_finding_dates text : appends_all rule_finding (check_dates text).
Proof. unfold _check_date_anomalies. repeat rule_finding_step. Qed.

Lemma rule_finding_payment text : appends_all rule_finding (check_payment text).
Proof.
  unfold _check_payment_red_flags. apply appends_all_for_each.
  intros [pattern [[[t sev] sc] rec]] Hin. unfold red_flags in Hin.
  rewrite !elem_of_cons in Hin.
  destruct Hin as [Hin|[Hin|Hin%elem_of_nil]]; [| |done];
    injection Hin as -> -> -> -> ->; repeat rule_finding_step.
Qed.

Lemma rule_finding_liability text : appends_all rule_finding (check_liability text).
Proof. unfold _check_liability_limitations. repeat rule_finding_step. Qed.

Lemma rule_finding_customer text : appends_all rule_finding (check_customer text).
Proof. unfold _check_customer_concentration. repeat rule_finding_step. Qed.

Lemma analyze_rule_findings text s fs :
  returned (run_analyze text s) = Some fs → Forall rule_finding fs.
Proof.
  rewrite analyze_returned. intros [= <-].
  repeat (apply Forall_app; split); apply appends_all_findings_of.
  - apply rule_finding_offshore.
  - apply rule_finding_weasel.
  - apply rule_finding_high_risk.
  - apply rule_finding_missing_loop.
  - apply rule_finding_dates.
  - apply rule_finding_payment.
  - apply rule_finding_liability.
  - apply rule_finding_customer.
Qed.

Ltac grade_cases Hg :=
  first [ apply elem_of_nil in Hg; contradiction
        | apply elem_of_cons in Hg as [Hg|Hg];
          [injection Hg as -> ->|grade_cases Hg] ].

Lemma rule_finding_score f :
  rule_finding f →
  (5 ≤ score f ≤ 10)%Z ∧ severity f ≠ LOW
  ∧ (severity f = CRITICAL ↔ 9 ≤ score f)%Z.
Proof.
  intros (_ & _ & Hg). destruct f as [c sev t d l sc src r].
  cbn [category severity score] in *.
  destruct c; cbn [rule_grades] in Hg; grade_cases Hg;
    (split; [lia|split; [done|]]); split; (done || lia).
Qed.

(** X14. Every finding that [analyze] returns has the source
    ["rule_engine"], a recommendation, and a severity and a score that its
    category fixes: so its score is between 5 and 10, it is never LOW, and
    it is CRITICAL exactly when its score is 9 or 10.  This holds for every
    regex engine and pattern library. *)
Theorem rule_findings_well_formed (text : string) (s : engine)
    (fs : list RedFlag) :
  returned (run_analyze text s) = Some fs →
  Forall rule_finding fs
  ∧ Forall (λ f, (5 ≤ score f ≤ 10)%Z ∧ severity f ≠ LOW
                 ∧ (severity f = CRITICAL ↔ 9 ≤ score f)%Z) fs.
Proof.
  intros Hfs%analyze_rule_findings. split; [done|].
  eapply Forall_impl; [done|]. apply rule_finding_score.
Qed.

(** X15. From a list of rule findings that is not empty, and no external
    findings, the report is always built; its risk score lies between 5.00
    and 10.00 and its risk level is MODERATE, HIGH or EXTREME. *)
Theorem rule_only_report_at_least_moderate {datetime : Type} (now : datetime)
    (doc : string) (elapsed : float64) (text : string) (s : engine)
    (fs : list RedFlag) :
  returned (run_analyze text s) = Some fs → fs ≠ [] →
  ∃ report level,
    aggregate now doc fs [] elapsed = Some report
    ∧ (500 ≤ overall_risk_score report ≤ 1000)%Z
    ∧ _get_risk_level <$> of_hundredths (overall_risk_score report)
      = Some level
    ∧ level ∈ ["MODERATE RISK"; "HIGH RISK"; "EXTREME RISK"].
Proof.
  intros Hfs%analyze_rule_findings Hne.
  destruct (aggregate_score_between now doc fs [] elapsed 5 10)
    as (report & Hagg & Hscore); [by rewrite app_nil_r| |done|done|].
  { rewrite app_nil_r. eapply Forall_impl; [done|].
    intros f Hf. by apply rule_finding_score in Hf as [? _]. }
  destruct (true_divide_between (overall_risk_score report) 100 5 10)
    as (q & Hq & _); [done|lia|done|done|].
  exists report, (_get_risk_level q). split; [done|]. split; [lia|].
  unfold of_hundredths. rewrite Hq. split; [done|].
  unfold _get_risk_level.
  rewrite !(true_divide_ge_int (overall_risk_score report) 100 _ q) by done.
  rewrite !elem_of_cons. repeat case_bool_decide; try tauto; lia.
Qed.

(** X16. [_check_date_anomalies] reads the year from the two digits that
    follow the century, which it does not look at: a match is flagged
    exactly when these digits are below 23 or above 50, and the finding
    names the year 20yy for yy up to 50 and 19yy above.  So an audit dated
    1923 is taken for 2023 and not flagged, and 2051 is flagged as 1951. *)
Theorem date_anomalies_two_digit_years (text : string) :
  let matches :=
    re_finditer "audit(?:ed)?[^.]{0,50}(?:19|20)(\d{2})" IGNORECASE text in
  Forall (λ m, (0 ≤ int_group_1 m ≤ 99)%Z) matches →
  title <$> findings_of (check_dates text)
  = (λ m, "Outdated Financial Audit ("
          +:+ PyStr.of_Z (full_year (int_group_1 m)) +:+ ")")
    <$> filter (λ m, (int_group_1 m < 23 ∨ 50 < int_group_1 m)%Z) matches.
Proof.
  intros matches Hyears. unfold _check_date_anomalies. fold matches.
  set (body := λ match_ : re_match, _).
  set (found := λ m : re_match,
    if (full_year (int_group_1 m) <? 2023)%Z
    then [ {| category := FINANCIAL; severity := HIGH;
              title := "Outdated Financial Audit ("
                       +:+ PyStr.of_Z (full_year (int_group_1 m)) +:+ ")";
              description := "Most recent audit mentioned is from "
                +:+ PyStr.of_Z (full_year (int_group_1 m))
                +:+ ", which is too old to be reliable.";
              location := _get_context text (m_start m) (m_end m) 150;
              score := 7; source := "rule_engine";
              recommendation := Some "Require current audited financials (within 12 months). Outdated audits hide recent problems." |} ]
    else []).
  rewrite (appends_findings_of _ (matches ≫= found)).
  - clear body. induction Hyears as [|m ms Hm _ IH]; [done|].
    rewrite bind_cons, fmap_app, IH, filter_cons. unfold found at 1.
    assert ((full_year (int_group_1 m) <? 2023)%Z
            = bool_decide (int_group_1 m < 23 ∨ 50 < int_group_1 m)%Z) as ->.
    { unfold full_year.
      destruct (Z.ltb_spec 50 (int_group_1 m));
        case_bool_decide;
        first [apply Z.ltb_lt; lia | apply Z.ltb_ge; lia]. }
    destruct (decide (int_group_1 m < 23 ∨ 50 < int_group_1 m)%Z).
    + by rewrite bool_decide_eq_true_2.
    + by rewrite bool_decide_eq_false_2.
  - apply appends_for_each. intros m. subst body found. cbv beta.
    fold (full_year (int_group_1 m)).
    destruct (_ <? 2023)%Z; [apply appends_append_flag|apply appends_ret].
Qed.

Lemma payment_findings_shape text :
  appends_all payment_finding (check_payment text).
Proof.
  unfold _check_payment_red_flags. apply appends_all_for_each.
  intros [pattern [[[t sev] sc] rec]] Hin. unfold red_flags in Hin.
  rewrite !elem_of_cons in Hin.
  destruct Hin as [Hin|[Hin|Hin%elem_of_nil]]; [| |done];
    injection Hin as -> -> -> -> ->;
    apply appends_all_for_each; intros m _; apply appends_all_append_flag;
    (split; [done|split; [|done]]); cbn [title]; unfold payment_titles;
    rewrite !elem_of_cons; [by left|by right; left].
Qed.

Lemma payment_keys_similar a b :
  payment_finding a → payment_finding b →
  _are_similar (_get_flag_key a) (_get_flag_key b) = true.
Proof.
  intros (_ & Ha & Hda) (_ & Hb & Hdb). unfold _get_flag_key.
  rewrite Hda, Hdb. unfold payment_titles in Ha, Hb.
  rewrite !elem_of_cons in Ha, Hb.
  destruct Ha as [->|[->|Ha%elem_of_nil]]; [| |done];
    (destruct Hb as [->|[->|Hb%elem_of_nil]]; [| |done]);
    vm_compute; reflexivity.
Qed.

(** No two payment findings survive the deduplication. *)
Lemma payment_findings_not_both flags out1 a out2 b out3 :
  _deduplicate_flags flags = out1 ++ a :: out2 ++ b :: out3 →
  payment_finding a → ¬ payment_finding b.
Proof.
  intros Hout Ha Hb.
  pose proof (in_category_deduplicate FINANCIAL flags) as Hacc.
  destruct Ha as [Hca Ha], Hb as [Hcb Hb].
  rewrite Hout in Hacc. unfold in_category at 1 in Hacc.
  rewrite filter_app, filter_cons_True, filter_app, filter_cons_True in Hacc
    by done.
  rewrite app_comm_cons, (assoc_L (++)) in Hacc. symmetry in Hacc.
  apply accepted_not_similar in Hacc. apply Hacc.
  rewrite (left_id_L ∅ (∪)), similar_to_some_keys, Exists_exists.
  exists a. split.
  - rewrite elem_of_app, elem_of_cons. right. by left.
  - by apply payment_keys_similar.
Qed.

(** A payment finding that is similar to no financial flag before it
    survives, and is the only payment finding that does. *)
Lemma payment_finding_survives pre a post :
  payment_finding a →
  (∀ f, f ∈ pre → category f = FINANCIAL →
        _are_similar (_get_flag_key a) (_get_flag_key f) = false) →
  a ∈ _deduplicate_flags (pre ++ a :: post)
  ∧ ∀ b, b ∈ _deduplicate_flags (pre ++ a :: post) → payment_finding b → b = a.
Proof.
  intros Ha Hpre.
  assert (a ∈ _deduplicate_flags (pre ++ a :: post)) as Hin.
  { assert (a ∈ in_category FINANCIAL (_deduplicate_flags (pre ++ a :: post)))
      as Hin; [|by apply list_elem_of_filter in Hin as [_ ?]].
    rewrite in_category_deduplicate. unfold in_category at 1.
    rewrite filter_app, filter_cons_True by apply Ha.
    fold (in_category FINANCIAL pre). fold (in_category FINANCIAL post).
    rewrite accepted_app, accepted_cons_fresh.
    - rewrite elem_of_app, elem_of_cons. tauto.
    - rewrite (left_id_L ∅ (∪)), similar_to_some_keys, Exists_exists.
      intros (f & Hf & Hs).
      apply (sublist_subseteq _ _ (accepted_sublist _ _)) in Hf.
      apply list_elem_of_filter in Hf as [Hc Hf].
      by rewrite (Hpre f Hf Hc) in Hs. }
  split; [done|]. intros b Hb Hpb.
  destruct (decide (b = a)) as [|Hne]; [done|exfalso].
  apply list_elem_of_split in Hin as (l1 & l2 & Hout). rewrite Hout in Hb.
  rewrite elem_of_app, elem_of_cons in Hb.
  destruct Hb as [Hb|[Hb|Hb]]; [|done|].
  - apply list_elem_of_split in Hb as (k1 & k2 & ->).
    rewrite <- (assoc_L (++)), <- app_comm_cons in Hout.
    by apply (payment_findings_not_both _ _ _ _ _ _ Hout).
  - apply list_elem_of_split in Hb as (k1 & k2 & ->).
    by apply (payment_findings_not_both _ _ _ _ _ _ Hout).
Qed.

(** X17. The findings of [_check_payment_red_flags] are financial flags
    with one of two titles and one description, and the keys of any two
    such flags are similar (the two titles with the common description
    share 14 of 19 words).  So no two payment findings survive a
    deduplication; of the findings of the check alone the first survives
    and no other; and in any list of flags, a payment finding that is
    similar to no financial flag before it survives and is the only payment
    finding that does: a finding of undefined deferred payment terms
    behind it is dropped. *)
Theorem payment_findings_collapse (text : string) :
  let found := findings_of (check_payment text) in
  Forall payment_finding found
  ∧ (∀ a b, payment_finding a → payment_finding b →
            _are_similar (_get_flag_key a) (_get_flag_key b) = true)
  ∧ (∀ flags out1 a out2 b out3,
       _deduplicate_flags flags = out1 ++ a :: out2 ++ b :: out3 →
       payment_finding a → ¬ payment_finding b)
  ∧ _deduplicate_flags found = take 1 found
  ∧ (∀ pre a post,
       payment_finding a →
       (∀ f, f ∈ pre → category f = FINANCIAL →
             _are_similar (_get_flag_key a) (_get_flag_key f) = false) →
       a ∈ _deduplicate_flags (pre ++ a :: post)
       ∧ ∀ b, b ∈ _deduplicate_flags (pre ++ a :: post) →
              payment_finding b → b = a).
Proof.
  intros found.
  pose proof (appends_all_findings_of _ _ (payment_findings_shape text))
    as Hshape.
  fold found in Hshape.
  split; [done|]. split; [apply payment_keys_similar|].
  split; [apply payment_findings_not_both|].
  split; [|apply payment_finding_survives].
  destruct found as [|a post]; [done|].
  apply Forall_cons in Hshape as [Ha Hpost].
  destruct (payment_finding_survives [] a post Ha) as [Hin Honly].
  { intros f Hf. by apply elem_of_nil in Hf. }
  cbn [app] in Hin, Honly.
  assert (Forall payment_finding (_deduplicate_flags (a :: post))) as Hall.
  { rewrite Forall_forall. intros f Hf%deduplicate_subseteq.
    apply elem_of_cons in Hf as [->|Hf]; [done|].
    rewrite Forall_forall in Hpost. by apply Hpost. }
  destruct (_deduplicate_flags (a :: post)) as [|x [|y rest]] eqn:Hout.
  - by apply elem_of_nil in Hin.
  - by apply list_elem_of_singleton in Hin as ->.
  - exfalso. apply Forall_cons in Hall as [Hx [Hy _]%Forall_cons].
    by apply (payment_findings_not_both _ [] x [] y rest Hout).
Qed.

End rule_findings.

Lemma date_anomalies_two_digit_years_witness :
  title <$> findings_of
    (_check_date_anomalies (nat * nat * Z) (λ m, m.1.1) (λ m, m.1.2) snd
       sample_finditer sample_audits)
  = ["Outdated Financial Audit (2019)"; "Outdated Financial Audit (1951)"].
Proof.
  etrans.
  - apply (date_anomalies_two_digit_years (nat * nat * Z) (λ m, m.1.1)
             (λ m, m.1.2) snd sample_finditer sample_audits).
    vm_compute. repeat constructor; discriminate.
  - vm_compute. reflexivity.
Defined.

Lemma rule_findings_well_formed_witness :
  ∃ fs, returned (sample_analyze sample_audits (mkEngine ∅ 0%nat)) = Some fs
        ∧ length fs = 2%nat ∧ Forall rule_finding fs.
Proof.
  destruct (returned (sample_analyze sample_audits (mkEngine ∅ 0%nat)))
    as [fs|] eqn:Hfs; [|by vm_compute in Hfs].
  exists fs. split; [done|]. split.
  - vm_compute in Hfs. by injection Hfs as <-.
  - by destruct (rule_findings_well_formed _ _ _ _ _ _ _ _ _ _ _ _ Hfs).
Defined.

Lemma rule_only_report_at_least_moderate_witness :
  ∃ fs report,
    returned (sample_analyze sample_audits (mkEngine ∅ 0%nat)) = Some fs
    ∧ aggregate 0%Z "audits.pdf" fs [] (PyFloat.Float64 5 (-2)) = Some report
    ∧ overall_risk_score report = 700%Z
    ∧ _get_risk_level <$> of_hundredths (overall_risk_score report)
      = Some "HIGH RISK".
Proof.
  destruct (returned (sample_analyze sample_audits (mkEngine ∅ 0%nat)))
    as [fs|] eqn:Hfs; [|by vm_compute in Hfs].
  assert (fs ≠ []) as Hne.
  { vm_compute in Hfs. by injection Hfs as <-. }
  destruct (rule_only_report_at_least_moderate _ _ _ _ _ _ _ _ _ 0%Z
              "audits.pdf" (PyFloat.Float64 5 (-2)) _ _ _ Hfs Hne)
    as (report & level & Hagg & _ & Hlevel & _).
  exists fs, report. split; [done|]. split; [done|].
  assert (overall_risk_score report = 700%Z) as Hscore.
  { vm_compute in Hfs. injection Hfs as <-. vm_compute in Hagg.
    by injection Hagg as <-. }
  split; [done|]. rewrite Hscore. vm_compute. reflexivity.
Defined.

Lemma payment_findings_collapse_witness :
  title <$> findings_of
    (_check_payment_red_flags (nat * nat * Z) (λ m, m.1.1) (λ m, m.1.2)
       sample_payment_finditer sample_payments)
  = ["Undefined Earnout Targets"; "Undefined Deferred Payment Terms"]
  ∧ title <$> _deduplicate_flags (findings_of
      (_check_payment_red_flags (nat * nat * Z) (λ m, m.1.1) (λ m, m.1.2)
         sample_payment_finditer sample_payments))
    = ["Undefined Earnout Targets"]
  ∧ _deduplicate_flags (findings_of
      (_check_payment_red_flags (nat * nat * Z) (λ m, m.1.1) (λ m, m.1.2)
         sample_payment_finditer sample_payments))
    = take 1 (findings_of
      (_check_payment_red_flags (nat * nat * Z) (λ m, m.1.1) (λ m, m.1.2)
         sample_payment_finditer sample_payments)).
Proof.
  split; [vm_compute; reflexivity|]. split; [vm_compute; reflexivity|].
  apply (payment_findings_collapse (nat * nat * Z) (λ m, m.1.1) (λ m, m.1.2)
           sample_payment_finditer sample_payments).
Defined.
